(** * speech-to-rag-engine: ingestion, source mapping, retrieval and reply assembly

    A shallow embedding of the TypeScript sources
      - src/lib/retrieval.ts
      - src/lib/phoneMapping.ts (source mapping directory, rate-limited embedding)
      - src/app/api/process-calls-worker/route.ts, src/app/api/process-call/route.ts
      - the auto-responder (generateAutoResponse)
    together with the properties the design document states about them.

    Asynchronous functions are embedded as computations over an explicit
    [World]: the remote collaborators (vector store, relational store,
    embedding, transcription and chat providers, the random source) answer
    through an oracle indexed by the number of requests issued so far, every
    request is appended to a log, [setTimeout] waits are appended to a timer
    log, and the tables the code writes are part of the state. *)

From Stdlib Require Import ZArith QArith Qround Lia Lqa String Ascii DecimalString.
From stdpp Require Import base option list sorting gmap.

Local Open Scope nat_scope.
Local Open Scope list_scope.

(* ===================================================================== *)
(** * JavaScript values *)
(* ===================================================================== *)

Module Js.

(** A JavaScript string is a sequence of UTF-16 code units; [length],
    [trim] and [includes] work on code units. *)
Abbreviation jsstring := (list N).

(** String literal of the source. *)
Definition lit (s : string) : jsstring := N_of_ascii <$> list_ascii_of_string s.

(** [a === b] on strings. *)
Definition str_eqb (a b : jsstring) : bool := bool_decide (a = b).

(** WhiteSpace and LineTerminator code points of ECMAScript, the ones
    [String.prototype.trim] strips. *)
Definition is_white_space (c : N) : bool :=
  ((9 <=? c) && (c <=? 13) || (c =? 32) || (c =? 160) || (c =? 5760)
   || (8192 <=? c) && (c <=? 8202) || (c =? 8232) || (c =? 8233)
   || (c =? 8239) || (c =? 8287) || (c =? 12288) || (c =? 65279))%N.

Fixpoint trimStart (s : jsstring) : jsstring :=
  match s with
  | [] => []
  | c :: s' => if is_white_space c then trimStart s' else s
  end.

Definition trimEnd (s : jsstring) : jsstring := reverse (trimStart (reverse s)).

Definition trim (s : jsstring) : jsstring := trimEnd (trimStart s).

Fixpoint startsWith (needle hay : jsstring) : bool :=
  match needle, hay with
  | [], _ => true
  | _ :: _, [] => false
  | a :: needle', b :: hay' => (a =? b)%N && startsWith needle' hay'
  end.

(** [hay.includes(needle)] *)
Fixpoint includes (hay needle : jsstring) : bool :=
  startsWith needle hay ||
  match hay with
  | [] => false
  | _ :: hay' => includes hay' needle
  end.

(** The JSON-representable values plus [undefined]. *)
Inductive jsval :=
| JUndefined
| JNull
| JBool (b : bool)
| JNum (q : Q)
| JStr (s : jsstring)
| JObject.

(** ToBoolean *)
Definition truthy (v : jsval) : bool :=
  match v with
  | JUndefined | JNull => false
  | JBool b => b
  | JNum q => negb (Qeq_bool q 0)
  | JStr s => negb (bool_decide (s = []))
  | JObject => true
  end.

(** [a || b] *)
Definition js_or (a b : jsval) : jsval := if truthy a then a else b.

(** Truthiness of a nullable string column: [null] and [''] are falsy. *)
Definition str_truthy (s : option jsstring) : bool :=
  match s with
  | Some (_ :: _) => true
  | _ => false
  end.

(** A thrown value: an [Error], a PostgREST error object or a provider
    error, seen through the properties the code reads. *)
Record js_error := {
  instanceof_Error : bool;
  statusCode : option Z;
  code : option jsstring;
  message : option jsstring
}.

(** [new Error(m)] *)
Definition new_Error (m : jsstring) : js_error :=
  {| instanceof_Error := true; statusCode := None; code := None; message := Some m |}.

(** [q > 0] on numbers *)
Definition Qpositive (q : Q) : bool :=
  match (0 ?= q)%Q with
  | Lt => true
  | _ => false
  end.

(** [Array.prototype.sort(cmp)]: the sort is stable, and [cmp a b > 0]
    puts [a] after [b].  For a comparator that is a consistent order the
    result of a stable sort is unique, so the insertion sort below returns
    what any conforming engine returns. *)
Fixpoint sort_insert {A} (cmp : A -> A -> Q) (x : A) (l : list A) : list A :=
  match l with
  | [] => [x]
  | y :: l' => if Qpositive (cmp x y) then y :: sort_insert cmp x l' else x :: y :: l'
  end.

Fixpoint sort {A} (cmp : A -> A -> Q) (l : list A) : list A :=
  match l with
  | [] => []
  | x :: l' => sort_insert cmp x (sort cmp l')
  end.

(** [l.slice(-n)] for a count [n] *)
Definition slice_last {A} (n : nat) (l : list A) : list A := drop (length l - n) l.

End Js.
Export Js.

(* ===================================================================== *)
(** * Data model: rows, requests and replies *)
(* ===================================================================== *)

Module Model.

(** [number[]] *)
Abbreviation vector := (list Q).

(** supabase-js answers with either [{data, error: null}] or
    [{data: null, error}]. *)
Inductive pg_reply (D : Type) :=
| PgOk (data : D)
| PgFail (error : js_error).
Arguments PgOk {D} data.
Arguments PgFail {D} error.

(** A row of [match_documents]; [file_id] is the property
    [retrieveRelevantChunksFromFiles] adds.  Numbers are exact rationals:
    [NaN] and the infinities are not values of [similarity]. *)
Record chunk_row := {
  id : jsstring;
  chunk : jsstring;
  similarity : Q;
  source_type : jsstring;
  source_id : jsstring;
  file_id : option jsstring
}.

(** A row of [match_shopify_chunks], without its [metadata]. *)
Record shopify_chunk_row := {
  sc_id : jsstring;
  sc_chunk_text : jsstring;
  sc_similarity : Q;
  sc_store_id : jsstring;
  sc_content_type : jsstring;
  sc_title : jsstring
}.

(** What [retrieveRelevantShopifyChunks] returns per row. *)
Record shopify_match := {
  sm_id : jsstring;
  sm_chunk : jsstring;
  sm_similarity : Q;
  sm_store_id : jsstring;
  sm_content_type : jsstring;
  sm_title : jsstring
}.

(** [phone_document_mapping] columns read by the responder. *)
Record mapping_details := {
  system_prompt : option jsstring;
  intent : option jsstring;
  auth_token : option jsstring;
  origin : option jsstring
}.

(** [whatsapp_messages] *)
Record message_row := {
  message_id : jsstring;
  from_number : jsstring;
  to_number : jsstring;
  received_at : Z;
  content_text : option jsstring;
  event_type : jsstring;
  sender_name : option jsstring;
  auto_respond_sent : option bool;
  response_sent_at : option Q
}.

Inductive role := system | user | assistant.

Record chat_message := { msg_role : role; msg_content : jsstring }.

(** [call_recordings] *)
Record call_recording := {
  file_name : jsstring;
  file_size : option N;
  mime_type : option jsstring;
  storage_path : option jsstring;
  phone_number : option jsstring;
  status : jsstring;
  error_reason : option jsstring;
  chunk_count : option nat;
  processed_at : option Q
}.

(** The object passed to [.update(...)] on [call_recordings]. *)
Record recording_patch := {
  p_status : option jsstring;
  p_error_reason : option jsstring;
  p_chunk_count : option nat;
  p_processed_at : option Q
}.

Record transcript_row := {
  t_call_id : jsstring;
  t_transcript : jsstring;
  t_transcript_length : nat
}.

(** What [classifyTranscript] returns. *)
Record classification := {
  isBlank : jsval;
  isSpam : jsval;
  is11zaRelated : jsval;
  blankConfidence : jsval;
  spamConfidence : jsval;
  relevanceConfidence : jsval
}.

Record classification_row := {
  c_call_id : jsstring;
  c_classification : classification
}.

(** [rag_chunks] rows written by the call pipelines. *)
Record rag_chunk := {
  rc_source_type : jsstring;
  rc_source_id : jsstring;
  rc_text : jsstring;
  rc_embedding : option vector;
  rc_phone_number : option jsstring;
  rc_chunk_index : option nat
}.

(** The uploaded file of the multipart form. *)
Record upload := {
  up_name : jsstring;
  up_size : N;
  up_type : jsstring;
  up_bytes : list N
}.

Inductive embed_reply :=
| EmbedReturns (embedding : option vector)
| EmbedThrows (e : js_error).

Inductive transcribe_reply :=
| TranscribeText (text : jsstring)
| TranscribeThrows (e : js_error).

(** The chat completion: it throws, or carries
    [choices[i].message.content] for each choice.  The request leaves the
    temperature out. *)
Inductive groq_reply :=
| GroqChoices (contents : list (option jsstring))
| GroqThrows (e : js_error).

Record send_result := { send_success : bool; send_error : option jsstring }.

(** Every request the code sends to a collaborator. *)
Inductive request :=
| RpcMatchDocuments (query_embedding : vector) (match_count : nat)
    (target_file : option jsstring) (source_types : list jsstring)
| RpcMatchShopifyChunks (query_embedding : vector) (store_id_param : jsstring) (match_count : nat)
| SelectDataSource (phone : jsstring)
| SelectShopifyStoreId (phone : jsstring)
| SelectFileIds (phone : jsstring)
| SelectCallIds (phone : jsstring)
| SelectMappingDetails (phone : jsstring)
| SelectHistory (counterpart : jsstring)
| UpdateWhatsappMessage (mid : jsstring) (sent : bool)
| InsertWhatsappMessage (row : message_row)
| EmbedText (text : jsstring) (retries : option nat)
| MathRandom
| GroqChat (model : jsstring) (messages : list chat_message) (max_tokens : nat)
| SendWhatsApp (to text token org : jsstring)
| Transcribe (audio : list N) (fileName : jsstring)
| CheckCallRecordingsTable
| InsertCallRecording (row : call_recording)
| SelectCallRecord (callId : jsstring)
| UpdateCallRecording (callId : jsstring) (patch : recording_patch)
| StorageDownload (path : option jsstring)
| InsertTranscript (row : transcript_row)
| InsertClassification (row : classification_row)
| InsertRagChunks (rows : list rag_chunk)
| InsertPhoneCallMapping (phone callId : jsstring).

(** What the collaborator answers.  For reads of a table the model keeps
    ([whatsapp_messages], [call_recordings]) the answer is only whether the
    store fails; the rows come from the table. *)
Definition reply_of (r : request) : Type :=
  match r with
  | RpcMatchDocuments _ _ _ _ => pg_reply (list chunk_row)
  | RpcMatchShopifyChunks _ _ _ => pg_reply (option (list shopify_chunk_row))
  | SelectDataSource _ => pg_reply (option jsstring)
  | SelectShopifyStoreId _ => pg_reply (option jsstring)
  | SelectFileIds _ => pg_reply (list (option jsstring))
  | SelectCallIds _ => pg_reply (list (option jsstring))
  | SelectMappingDetails _ => pg_reply (option (list mapping_details))
  | SelectHistory _ => option js_error
  | UpdateWhatsappMessage _ _ => unit
  | InsertWhatsappMessage _ => unit
  | EmbedText _ _ => embed_reply
  | MathRandom => Q
  | GroqChat _ _ _ => groq_reply
  | SendWhatsApp _ _ _ _ => send_result
  | Transcribe _ _ => transcribe_reply
  | CheckCallRecordingsTable => option js_error
  | InsertCallRecording _ => pg_reply jsstring
  | SelectCallRecord _ => option js_error
  | UpdateCallRecording _ _ => unit
  | StorageDownload _ => pg_reply (option (list N))
  | InsertTranscript _ => option js_error
  | InsertClassification _ => option js_error
  | InsertRagChunks _ => option js_error
  | InsertPhoneCallMapping _ _ => option js_error
  end.

(** The environment of the program. *)
Record World := {
  (** the reply to the [n]-th request ever issued *)
  oracle : nat -> forall r : request, reply_of r;
  (** the requests issued so far, oldest first *)
  requests : list request;
  (** the [setTimeout] waits so far, in milliseconds *)
  timers : list Q;
  (** [Date.now()], advanced by the waits *)
  clock : Q;
  (** [JSON.parse] followed by property reads: [None] when parsing throws
      or the value has no properties to read *)
  JSON_parse : jsstring -> option (jsstring -> jsval);
  (** [chunkText] of src/lib/chunk, which is not part of these sources *)
  chunkText : jsstring -> option nat -> list jsstring;
  call_recordings : gmap jsstring call_recording;
  call_transcripts : list transcript_row;
  call_classifications : list classification_row;
  rag_chunks : list rag_chunk;
  phone_call_mapping : list (jsstring * jsstring);
  whatsapp_messages : list message_row
}.

Definition set_requests (f : list request -> list request) (w : World) : World :=
  {| oracle := oracle w; requests := f (requests w); timers := timers w; clock := clock w;
     JSON_parse := JSON_parse w; chunkText := chunkText w;
     call_recordings := call_recordings w; call_transcripts := call_transcripts w;
     call_classifications := call_classifications w; rag_chunks := rag_chunks w;
     phone_call_mapping := phone_call_mapping w; whatsapp_messages := whatsapp_messages w |}.

Definition set_timers (f : list Q -> list Q) (g : Q -> Q) (w : World) : World :=
  {| oracle := oracle w; requests := requests w; timers := f (timers w); clock := g (clock w);
     JSON_parse := JSON_parse w; chunkText := chunkText w;
     call_recordings := call_recordings w; call_transcripts := call_transcripts w;
     call_classifications := call_classifications w; rag_chunks := rag_chunks w;
     phone_call_mapping := phone_call_mapping w; whatsapp_messages := whatsapp_messages w |}.

Definition set_call_recordings
    (f : gmap jsstring call_recording -> gmap jsstring call_recording) (w : World) : World :=
  {| oracle := oracle w; requests := requests w; timers := timers w; clock := clock w;
     JSON_parse := JSON_parse w; chunkText := chunkText w;
     call_recordings := f (call_recordings w); call_transcripts := call_transcripts w;
     call_classifications := call_classifications w; rag_chunks := rag_chunks w;
     phone_call_mapping := phone_call_mapping w; whatsapp_messages := whatsapp_messages w |}.

Definition set_call_transcripts (f : list transcript_row -> list transcript_row) (w : World) : World :=
  {| oracle := oracle w; requests := requests w; timers := timers w; clock := clock w;
     JSON_parse := JSON_parse w; chunkText := chunkText w;
     call_recordings := call_recordings w; call_transcripts := f (call_transcripts w);
     call_classifications := call_classifications w; rag_chunks := rag_chunks w;
     phone_call_mapping := phone_call_mapping w; whatsapp_messages := whatsapp_messages w |}.

Definition set_call_classifications
    (f : list classification_row -> list classification_row) (w : World) : World :=
  {| oracle := oracle w; requests := requests w; timers := timers w; clock := clock w;
     JSON_parse := JSON_parse w; chunkText := chunkText w;
     call_recordings := call_recordings w; call_transcripts := call_transcripts w;
     call_classifications := f (call_classifications w); rag_chunks := rag_chunks w;
     phone_call_mapping := phone_call_mapping w; whatsapp_messages := whatsapp_messages w |}.

Definition set_rag_chunks (f : list rag_chunk -> list rag_chunk) (w : World) : World :=
  {| oracle := oracle w; requests := requests w; timers := timers w; clock := clock w;
     JSON_parse := JSON_parse w; chunkText := chunkText w;
     call_recordings := call_recordings w; call_transcripts := call_transcripts w;
     call_classifications := call_classifications w; rag_chunks := f (rag_chunks w);
     phone_call_mapping := phone_call_mapping w; whatsapp_messages := whatsapp_messages w |}.

Definition set_phone_call_mapping
    (f : list (jsstring * jsstring) -> list (jsstring * jsstring)) (w : World) : World :=
  {| oracle := oracle w; requests := requests w; timers := timers w; clock := clock w;
     JSON_parse := JSON_parse w; chunkText := chunkText w;
     call_recordings := call_recordings w; call_transcripts := call_transcripts w;
     call_classifications := call_classifications w; rag_chunks := rag_chunks w;
     phone_call_mapping := f (phone_call_mapping w); whatsapp_messages := whatsapp_messages w |}.

Definition set_whatsapp_messages (f : list message_row -> list message_row) (w : World) : World :=
  {| oracle := oracle w; requests := requests w; timers := timers w; clock := clock w;
     JSON_parse := JSON_parse w; chunkText := chunkText w;
     call_recordings := call_recordings w; call_transcripts := call_transcripts w;
     call_classifications := call_classifications w; rag_chunks := rag_chunks w;
     phone_call_mapping := phone_call_mapping w; whatsapp_messages := f (whatsapp_messages w) |}.

(** ** Computations: an [async] function either returns or throws *)

Inductive outcome (A : Type) :=
| Ret (a : A)
| Throw (e : js_error).
Arguments Ret {A} a.
Arguments Throw {A} e.

Definition Eff (A : Type) : Type := World -> outcome A * World.

Definition ret {A} (a : A) : Eff A := fun w => (Ret a, w).

Definition throw {A} (e : js_error) : Eff A := fun w => (Throw e, w).

Definition bind {A B} (c : Eff A) (k : A -> Eff B) : Eff B :=
  fun w =>
    match c w with
    | (Ret a, w') => k a w'
    | (Throw e, w') => (Throw e, w')
    end.

(** [try { c } catch (e) { h e }] *)
Definition try_catch {A} (c : Eff A) (h : js_error -> Eff A) : Eff A :=
  fun w =>
    match c w with
    | (Ret a, w') => (Ret a, w')
    | (Throw e, w') => h e w'
    end.

Notation "'let!' x ':=' c 'in' k" := (bind c (fun x => k))
  (at level 10, x name, c at level 100, k at level 200).
Notation "'do!' c 'in' k" := (bind c (fun _ => k))
  (at level 10, c at level 100, k at level 200).

(** Send [r] and await the reply. *)
Definition remote (r : request) : Eff (reply_of r) :=
  fun w => (Ret (oracle w (length (requests w)) r), set_requests (fun l => l ++ [r]) w).

(** [await new Promise(resolve => setTimeout(resolve, ms))] *)
Definition sleep (ms : Q) : Eff unit :=
  fun w => (Ret tt, set_timers (fun l => l ++ [ms]) (fun t => (t + ms)%Q) w).

(** [new Date()] *)
Definition now : Eff Q := fun w => (Ret (clock w), w).

(** [for (const x of xs) { acc = await body(x, acc) }] *)
Fixpoint for_of {A S} (xs : list A) (body : A -> S -> Eff S) (acc : S) : Eff S :=
  match xs with
  | [] => ret acc
  | x :: xs' => let! acc' := body x acc in for_of xs' body acc'
  end.

(** The requests issued by a run that started in [w] and ended in [w']. *)
Definition issued (w w' : World) : list request := drop (length (requests w)) (requests w').

End Model.
Export Model.

(* ===================================================================== *)
(** * Retrieval and ranking (src/lib/retrieval.ts) *)
(* ===================================================================== *)

Module Retrieval.

(** [limit] is the result count handed to the store as [match_count]; it
    is a natural number here, as it is at every call site. *)
Definition retrieveRelevantChunks (queryEmbedding : vector) (fileId : option jsstring)
    (limit : nat) (sourceTypes : list jsstring) : Eff (list chunk_row) :=
  let! reply := remote (RpcMatchDocuments queryEmbedding limit fileId sourceTypes) in
  match reply with
  | PgFail error => throw error
  | PgOk data => ret data
  end.

(** [{ ...c, file_id: fileId }] *)
Definition with_file_id (fileId : jsstring) (c : chunk_row) : chunk_row :=
  {| id := id c; chunk := chunk c; similarity := similarity c;
     source_type := source_type c; source_id := source_id c; file_id := Some fileId |}.

(** [(a, b) => b.similarity - a.similarity] *)
Definition by_similarity_desc (a b : chunk_row) : Q := (similarity b - similarity a)%Q.

Definition retrieveRelevantChunksFromFiles (queryEmbedding : vector) (fileIds : list jsstring)
    (limit : nat) : Eff (list chunk_row) :=
  match fileIds with
  | [] => ret []
  | [fileId] => retrieveRelevantChunks queryEmbedding (Some fileId) limit [lit "pdf"]
  | _ =>
    let! allChunks :=
      for_of fileIds (fun fileId allChunks =>
        let! chunks := retrieveRelevantChunks queryEmbedding (Some fileId) limit [lit "pdf"] in
        ret (allChunks ++ (with_file_id fileId <$> chunks))) [] in
    ret (take limit (sort by_similarity_desc allChunks))
  end.

Definition retrieveRelevantChunksForPhone (queryEmbedding : vector)
    (fileIds callIds : list jsstring) (limit : nat) : Eff (list chunk_row) :=
  let! allChunks :=
    (if 0 <? length fileIds
     then for_of fileIds (fun fileId allChunks =>
            let! chunks := retrieveRelevantChunks queryEmbedding (Some fileId) limit [lit "pdf"] in
            ret (allChunks ++ chunks)) []
     else ret []) in
  let! allChunks :=
    (if 0 <? length callIds
     then
       let! callChunks :=
         retrieveRelevantChunks queryEmbedding None (limit * length callIds) [lit "call"] in
       let filteredCallChunks := filter (fun c => source_id c ∈ callIds) callChunks in
       ret (allChunks ++ filteredCallChunks)
     else ret allChunks) in
  ret (take limit (sort by_similarity_desc allChunks)).

Definition to_shopify_match (row : shopify_chunk_row) : shopify_match :=
  {| sm_id := sc_id row; sm_chunk := sc_chunk_text row; sm_similarity := sc_similarity row;
     sm_store_id := sc_store_id row; sm_content_type := sc_content_type row;
     sm_title := sc_title row |}.

Definition retrieveRelevantShopifyChunks (queryEmbedding : vector) (storeId : jsstring)
    (limit : nat) : Eff (list shopify_match) :=
  let! reply := remote (RpcMatchShopifyChunks queryEmbedding storeId limit) in
  match reply with
  | PgFail error => throw error
  | PgOk data =>
    ret (match data with
         | Some rows => to_shopify_match <$> rows
         | None => []
         end)
  end.

End Retrieval.

(* ===================================================================== *)
(** * Rate-limited embedding (src/lib/phoneMapping.ts, second part) *)
(* ===================================================================== *)

Module Embedding.

(** [embedText] of src/lib/embeddings: the provider call. *)
Definition embedText (text : jsstring) (retries : option nat) : Eff (option vector) :=
  let! reply := remote (EmbedText text retries) in
  match reply with
  | EmbedReturns embedding => ret embedding
  | EmbedThrows e => throw e
  end.

Definition message_includes (error : js_error) (needle : jsstring) : bool :=
  match message error with
  | Some m => includes m needle
  | None => false
  end.

Definition isRateLimit (error : js_error) : bool :=
  bool_decide (statusCode error = Some 429%Z)
  || message_includes error (lit "429")
  || message_includes error (lit "rate limit").

(** [Math.pow(2, attempt) * 1000] *)
Definition baseWait (attempt : nat) : Q := inject_Z (2 ^ Z.of_nat attempt * 1000).

(** The [for (let attempt = 0; attempt < maxRetries; attempt++)] loop;
    [remaining] counts the iterations left, [maxRetries - attempt]. *)
Fixpoint embed_attempts (maxRetries remaining attempt : nat) (text : jsstring)
    (cache : gmap jsstring (option vector)) (lastError : option js_error)
    : Eff (option vector * gmap jsstring (option vector)) :=
  match remaining with
  | 0 =>
    throw (default (new_Error (lit "Failed to generate embedding after all retries")) lastError)
  | S remaining' =>
    try_catch
      (let! embedding := embedText text (Some 0) in
       ret (embedding, <[text := embedding]> cache))
      (fun error =>
         if isRateLimit error && (attempt <? maxRetries - 1)
         then
           let! r := remote MathRandom in
           let jitter := (r * 1000)%Q in
           let waitTime := (baseWait attempt + jitter)%Q in
           do! sleep waitTime in
           embed_attempts maxRetries remaining' (S attempt) text cache (Some error)
         else throw error)
  end.

(** The cache is the caller's [Map], updated in place: it is returned
    with the embedding. *)
Definition embedTextWithRateLimit (text : jsstring) (cache : gmap jsstring (option vector))
    : Eff (option vector * gmap jsstring (option vector)) :=
  match cache !! text with
  | Some embedding => ret (embedding, cache)
  | None =>
    let maxRetries := 5 in
    embed_attempts maxRetries maxRetries 0 text cache None
  end.

End Embedding.

(* ===================================================================== *)
(** * Source mapping directory (src/lib/phoneMapping.ts, first part) *)
(* ===================================================================== *)

Module PhoneMapping.

(** The [for (let attempt = 1; attempt <= maxRetries; attempt++)] loop of
    [retrySupabaseQuery] and the [return await queryFn()] after it;
    [remaining] counts the iterations left. *)
Fixpoint retry_attempts {D} (queryFn : Eff (pg_reply D)) (maxRetries remaining attempt : nat)
    : Eff (pg_reply D) :=
  match remaining with
  | 0 => queryFn
  | S remaining' =>
    let! result := queryFn in
    match result with
    | PgOk _ => ret result
    | PgFail _ =>
      do! (if attempt <? maxRetries
           then sleep (inject_Z (Z.of_nat attempt * 1000))
           else ret tt) in
      retry_attempts queryFn maxRetries remaining' (S attempt)
    end
  end.

Definition retrySupabaseQuery {D} (queryFn : Eff (pg_reply D)) (maxRetries : nat)
    : Eff (pg_reply D) :=
  retry_attempts queryFn maxRetries maxRetries 1.

(** [.filter(Boolean)] on a column of nullable strings *)
Definition filter_Boolean (l : list (option jsstring)) : list jsstring :=
  omap (fun x => if str_truthy x then x else None) l.

Definition getFilesForPhoneNumber (phoneNumber : jsstring) : Eff (list jsstring) :=
  let! reply := remote (SelectFileIds phoneNumber) in
  match reply with
  | PgFail _ => ret []
  | PgOk data => ret (filter_Boolean data)
  end.

Definition getCallsForPhoneNumber (phoneNumber : jsstring) : Eff (list jsstring) :=
  let! reply := remote (SelectCallIds phoneNumber) in
  match reply with
  | PgFail _ => ret []
  | PgOk data => ret (filter_Boolean data)
  end.

Definition is_PGRST116 (error : js_error) : bool :=
  bool_decide (code error = Some (lit "PGRST116")).

Definition getShopifyStoreForPhoneNumber (phoneNumber : jsstring) : Eff (option jsstring) :=
  let! reply := retrySupabaseQuery (remote (SelectShopifyStoreId phoneNumber)) 3 in
  match reply with
  | PgFail error =>
    if is_PGRST116 error
    then ret None
    else ret None
  | PgOk shopify_store_id =>
    ret (if str_truthy shopify_store_id then shopify_store_id else None)
  end.

Definition hasShopifyMapping (phoneNumber : jsstring) : Eff bool :=
  let! storeId := getShopifyStoreForPhoneNumber phoneNumber in
  ret (bool_decide (storeId <> None)).

(** The declared result is ['file' | 'shopify' | null]; the value is the
    column read from the store, so it is a nullable string here. *)
Definition getDataSourceForPhone (phoneNumber : jsstring) : Eff (option jsstring) :=
  let! reply := retrySupabaseQuery (remote (SelectDataSource phoneNumber)) 3 in
  match reply with
  | PgFail error =>
    if is_PGRST116 error
    then ret None
    else ret None
  | PgOk data_source =>
    ret (if str_truthy data_source then data_source else Some (lit "file"))
  end.

End PhoneMapping.

(* ===================================================================== *)
(** * Response orchestrator (generateAutoResponse) *)
(* ===================================================================== *)

Module Orchestrator.

Record AutoResponseResult := {
  success : bool;
  response : option jsstring;
  error : option jsstring;
  noDocuments : option bool;
  sent : option bool
}.

Definition failure (noDocs : option bool) (msg : jsstring) : AutoResponseResult :=
  {| success := false; response := None; error := Some msg; noDocuments := noDocs; sent := None |}.

(** [matches: any[]] holds rows of either retrieval. *)
Inductive any_match :=
| DocMatch (c : chunk_row)
| ShopifyMatch (m : shopify_match).

(** [m.chunk] *)
Definition match_chunk (m : any_match) : jsstring :=
  match m with
  | DocMatch c => chunk c
  | ShopifyMatch m => sm_chunk m
  end.

Definition nl : jsstring := [10%N].

(** [parts.join(sep)] *)
Fixpoint join (sep : jsstring) (parts : list jsstring) : jsstring :=
  match parts with
  | [] => []
  | [p] => p
  | p :: rest => p ++ sep ++ join sep rest
  end.

(** [String(n)] for a non-negative integer *)
Definition number_toString (n : N) : jsstring :=
  lit (NilZero.string_of_uint (N.to_uint n)).

(** [Date.now()] *)
Definition Date_now : Eff N := let! t := now in ret (Z.to_N (Qfloor t)).

(** ** Step 4: conversation history

    [.or(from_number.eq.X,to_number.eq.X)] *)
Definition involves (counterpart : jsstring) (m : message_row) : Prop :=
  from_number m = counterpart \/ to_number m = counterpart.

#[global] Instance involves_dec counterpart m : Decision (involves counterpart m).
Proof. unfold involves. apply _. Defined.

(** [.order("received_at", { ascending: true })]; rows with equal
    timestamps come in table order. *)
Definition by_received_at_asc (a b : message_row) : Q := inject_Z (received_at a - received_at b).

(** The rows the history query selects from the table. *)
Definition select_history (counterpart : jsstring) (table : list message_row) : list message_row :=
  take 20 (sort by_received_at_asc (filter (involves counterpart) table)).

Definition is_chat_turn (m : message_row) : bool :=
  str_truthy (content_text m)
  && (str_eqb (event_type m) (lit "MoMessage") || str_eqb (event_type m) (lit "MtMessage")).

Definition to_chat_message (m : message_row) : chat_message :=
  {| msg_role := if str_eqb (event_type m) (lit "MoMessage") then user else assistant;
     msg_content := default [] (content_text m) |}.

Definition load_history (fromNumber : jsstring) : Eff (list chat_message) :=
  let! fault := remote (SelectHistory fromNumber) in
  fun w =>
    let historyRows :=
      match fault with
      | Some _ => None
      | None => Some (select_history fromNumber (whatsapp_messages w))
      end in
    (Ret (to_chat_message <$> List.filter is_chat_turn (default [] historyRows)), w).

Section Prompts.

(** The two [baseRules] texts of the source; nothing below depends on
    their wording. *)
Variable shopifyRules documentRules : jsstring.

(** ** Step 5: the messages of the generation call *)
Definition compose_messages (dataSource : jsstring) (customSystemPrompt : option jsstring)
    (contextText : jsstring) (history : list chat_message) (messageText : jsstring)
    : list chat_message :=
  let isShopify := str_eqb dataSource (lit "shopify") in
  let baseRules := if isShopify then shopifyRules else documentRules in
  let systemPrompt :=
    match customSystemPrompt with
    | Some (c :: p) => (c :: p) ++ nl ++ nl ++ baseRules
    | _ =>
      lit "You are a helpful " ++ (if isShopify then lit "Shopify store" else lit "WhatsApp")
      ++ lit " assistant." ++ nl ++ nl ++ baseRules
    end in
  {| msg_role := system;
     msg_content := systemPrompt ++ nl ++ nl ++ lit "CONTEXT:" ++ nl
       ++ (match contextText with
           | [] => lit "No relevant context found in the documents."
           | _ => contextText
           end) |}
  :: slice_last 10 history
  ++ [{| msg_role := user; msg_content := messageText |}].

(** ** Step 3: retrieval by data source; [inl] is an early [return] *)
Definition retrieve_matches (dataSource toNumber : jsstring) (queryEmbedding : vector)
    : Eff (AutoResponseResult + list any_match) :=
  if str_eqb dataSource (lit "shopify")
  then
    let! shopifyStoreId := PhoneMapping.getShopifyStoreForPhoneNumber toNumber in
    match shopifyStoreId with
    | Some (c :: s) =>
      let! matches := Retrieval.retrieveRelevantShopifyChunks queryEmbedding (c :: s) 5 in
      ret (inr (ShopifyMatch <$> matches))
    | _ => ret (inl (failure (Some true) (lit "No Shopify store mapped to this business number")))
    end
  else
    let! fileIds := PhoneMapping.getFilesForPhoneNumber toNumber in
    let! callIds := PhoneMapping.getCallsForPhoneNumber toNumber in
    if (length fileIds =? 0) && (length callIds =? 0)
    then ret (inl (failure (Some true)
                     (lit "No documents or calls mapped to this business number")))
    else
      let! matches := Retrieval.retrieveRelevantChunksForPhone queryEmbedding fileIds callIds 5 in
      ret (inr (DocMatch <$> matches)).

Definition mark_responded (messageId : jsstring) (wasSent : bool) : Eff unit :=
  let! t := now in
  do! remote (UpdateWhatsappMessage messageId wasSent) in
  fun w =>
    (Ret tt,
     set_whatsapp_messages
       (fmap (fun m =>
          if str_eqb (message_id m) messageId
          then {| message_id := message_id m; from_number := from_number m;
                  to_number := to_number m; received_at := received_at m;
                  content_text := content_text m; event_type := event_type m;
                  sender_name := sender_name m;
                  auto_respond_sent := Some wasSent; response_sent_at := Some t |}
          else m)) w).

(** ** Steps 6 and 7: delivery and bookkeeping *)
Definition deliver (fromNumber toNumber messageId response token org : jsstring)
    : Eff AutoResponseResult :=
  let! sendResult := remote (SendWhatsApp fromNumber response token org) in
  if negb (send_success sendResult)
  then
    do! mark_responded messageId false in
    ret {| success := false; response := Some response; sent := Some false;
           noDocuments := None;
           error := Some (lit "Generated response but failed to send: "
                          ++ default (lit "undefined") (send_error sendResult)) |}
  else
    let! stamp := Date_now in
    let responseMessageId := lit "auto_" ++ messageId ++ lit "_" ++ number_toString stamp in
    let! t := now in
    let row :=
      {| message_id := responseMessageId; from_number := toNumber; to_number := fromNumber;
         received_at := Qfloor t; content_text := Some response;
         event_type := lit "MtMessage"; sender_name := Some (lit "AI Assistant");
         auto_respond_sent := None; response_sent_at := None |} in
    do! remote (InsertWhatsappMessage row) in
    do! (fun w => (Ret tt, set_whatsapp_messages (fun t => t ++ [row]) w)) in
    do! mark_responded messageId true in
    ret {| success := true; response := Some response; sent := Some true;
           noDocuments := None; error := None |}.

(** Everything after the data source is known to be mapped. *)
Definition respond_from_source (dataSource fromNumber toNumber messageText messageId : jsstring)
    : Eff AutoResponseResult :=
  (* 1.5 prompt and credentials of the mapping *)
  let! reply :=
    PhoneMapping.retrySupabaseQuery (remote (SelectMappingDetails toNumber)) 3 in
  match reply with
  | PgOk (Some (first :: _)) =>
    let customSystemPrompt := system_prompt first in
    match auth_token first, origin first with
    | Some (t :: token), Some (o :: org) =>
      (* 2. embed the query *)
      let! queryEmbedding := Embedding.embedText messageText None in
      match queryEmbedding with
      | None => ret (failure None (lit "Failed to generate embedding for message"))
      | Some queryEmbedding =>
        (* 3. retrieve *)
        let! found := retrieve_matches dataSource toNumber queryEmbedding in
        match found with
        | inl early => ret early
        | inr matches =>
          let contextText := join (nl ++ nl) (match_chunk <$> matches) in
          (* 4. history *)
          let! history := load_history fromNumber in
          (* 5. generate *)
          let messages :=
            compose_messages dataSource customSystemPrompt contextText history messageText in
          let! completion := remote (GroqChat (lit "llama-3.3-70b-versatile") messages 500) in
          match completion with
          | GroqThrows e => throw e
          | GroqChoices [] =>
            throw {| instanceof_Error := true; statusCode := None; code := None;
                     message := Some (lit "Cannot read properties of undefined") |}
          | GroqChoices (Some (c :: r) :: _) =>
            deliver fromNumber toNumber messageId (c :: r) (t :: token) (o :: org)
          | GroqChoices (_ :: _) => ret (failure None (lit "No response generated from LLM"))
          end
        end
      end
    | _, _ =>
      ret (failure None (lit "No WhatsApp API credentials found. Please set credentials in the Configuration tab."))
    end
  | _ => ret (failure None (lit "Failed to fetch phone mapping details"))
  end.

Definition generateAutoResponse (fromNumber toNumber messageText messageId : jsstring)
    : Eff AutoResponseResult :=
  try_catch
    ((* 1. data source of the business number *)
     let! dataSource := PhoneMapping.getDataSourceForPhone toNumber in
     match dataSource with
     | Some (c :: s) => respond_from_source (c :: s) fromNumber toNumber messageText messageId
     | _ => ret (failure (Some true) (lit "No data source mapped to this business number"))
     end)
    (fun e =>
       ret {| success := false; response := None; noDocuments := None; sent := None;
              error := if instanceof_Error e then message e else Some (lit "Unknown error") |}).

End Prompts.

End Orchestrator.

(* ===================================================================== *)
(** * Call ingestion (process-calls-worker/route.ts and process-call/route.ts) *)
(* ===================================================================== *)

Module Ingestion.

(** [await Promise.all(cs)]: every computation is started; the result is
    the list of values, or the first rejection in list order. *)
Fixpoint Promise_all {A} (cs : list (Eff A)) : Eff (list A) :=
  match cs with
  | [] => ret []
  | c :: cs' =>
    fun w =>
      match c w with
      | (Ret a, w1) =>
        match Promise_all cs' w1 with
        | (Ret l, w2) => (Ret (a :: l), w2)
        | (Throw e, w2) => (Throw e, w2)
        end
      | (Throw e, w1) => (Throw e, snd (Promise_all cs' w1))
      end
  end.

(** [.update(patch)] writes the properties the object has. *)
Definition apply_patch (p : recording_patch) (r : call_recording) : call_recording :=
  {| file_name := file_name r; file_size := file_size r; mime_type := mime_type r;
     storage_path := storage_path r; phone_number := phone_number r;
     status := default (status r) (p_status p);
     error_reason := match p_error_reason p with Some e => Some e | None => error_reason r end;
     chunk_count := match p_chunk_count p with Some n => Some n | None => chunk_count r end;
     processed_at := match p_processed_at p with Some t => Some t | None => processed_at r end |}.

(** [await supabase.from('call_recordings').update(patch).eq('id', callId)];
    the code does not read the answer, and the row, when it exists, is
    written. *)
Definition update_recording (callId : jsstring) (patch : recording_patch) : Eff unit :=
  do! remote (UpdateCallRecording callId patch) in
  fun w => (Ret tt, set_call_recordings (alter (apply_patch patch) callId) w).

Definition status_patch (s : jsstring) : recording_patch :=
  {| p_status := Some s; p_error_reason := None; p_chunk_count := None; p_processed_at := None |}.

(** [error instanceof Error ? error.message : 'Unknown error'] *)
Definition error_message (e : js_error) : option jsstring :=
  if instanceof_Error e then message e else Some (lit "Unknown error").

(** Both route files define [transcribeAudio] and [classifyTranscript]
    with the same body. *)
Definition transcribeAudio (audioBuffer : list N) (fileName : jsstring) : Eff jsstring :=
  try_catch
    (let! transcription := remote (Transcribe audioBuffer fileName) in
     match transcription with
     | TranscribeText transcript => ret transcript
     | TranscribeThrows e => throw e
     end)
    (fun _ => throw (new_Error (lit "Failed to transcribe audio"))).

(** The [catch] branch of [classifyTranscript]. *)
Definition fallback_classification (transcript : jsstring) : classification :=
  {| isBlank := JBool (length (trim transcript) <? 50);
     isSpam := JBool false;
     is11zaRelated := JBool false;
     blankConfidence := JNum (1 # 2);
     spamConfidence := JNum (1 # 2);
     relevanceConfidence := JNum (1 # 2) |}.

Section Texts.

(** The classification prompt with the transcript interpolated; nothing
    below depends on its wording. *)
Variable classification_prompt : jsstring -> jsstring.

Definition classifyTranscript (transcript : jsstring) : Eff classification :=
  try_catch
    (let! response :=
       remote (GroqChat (lit "llama3-8b-8192")
                 [{| msg_role := user; msg_content := classification_prompt transcript |}] 500) in
     match response with
     | GroqThrows e => throw e
     | GroqChoices (Some (c :: content) :: _) =>
       fun w =>
         match JSON_parse w (c :: content) with
         | None => (Throw (new_Error (lit "Unexpected token in JSON")), w)
         | Some get =>
           (Ret {| isBlank := js_or (get (lit "isBlank")) (JBool false);
                   isSpam := js_or (get (lit "isSpam")) (JBool false);
                   is11zaRelated := js_or (get (lit "is11zaRelated")) (JBool false);
                   blankConfidence := js_or (get (lit "blankConfidence")) (JNum 0);
                   spamConfidence := js_or (get (lit "spamConfidence")) (JNum 0);
                   relevanceConfidence := js_or (get (lit "relevanceConfidence")) (JNum 0) |},
            w)
         end
     | GroqChoices _ => throw (new_Error (lit "No classification response"))
     end)
    (fun _ => ret (fallback_classification transcript)).

Definition save_transcript (callId transcript : jsstring) : Eff (option js_error) :=
  let row := {| t_call_id := callId; t_transcript := transcript;
                t_transcript_length := length transcript |} in
  let! transcriptError := remote (InsertTranscript row) in
  fun w =>
    (Ret transcriptError,
     match transcriptError with
     | None => set_call_transcripts (fun t => t ++ [row]) w
     | Some _ => w
     end).

Definition save_classification (callId : jsstring) (c : classification) : Eff (option js_error) :=
  let row := {| c_call_id := callId; c_classification := c |} in
  let! classificationError := remote (InsertClassification row) in
  fun w =>
    (Ret classificationError,
     match classificationError with
     | None => set_call_classifications (fun t => t ++ [row]) w
     | Some _ => w
     end).

Definition insert_rag_chunks (rows : list rag_chunk) : Eff (option js_error) :=
  let! insertError := remote (InsertRagChunks rows) in
  fun w =>
    (Ret insertError,
     match insertError with
     | None => set_rag_chunks (fun t => t ++ rows) w
     | Some _ => w
     end).

(** ** The background worker: [processCall] *)

(** "Determine final status" in process-calls-worker/route.ts *)
Definition worker_final_status (c : classification) : jsstring :=
  if truthy (isBlank c) then lit "blank"
  else if truthy (isSpam c) then lit "spam"
  else if truthy (is11zaRelated c) then lit "11za_related"
  else lit "irrelevant".

(** The body of the inner [try] of [processCall]. *)
Definition worker_chunk_and_embed (callId : jsstring) (callRecord : call_recording)
    (transcript : jsstring) : Eff unit :=
  do! update_recording callId (status_patch (lit "chunking")) in
  let! chunks := (fun w => (Ret (chunkText w transcript None), w)) in
  let! embeddings := Promise_all ((fun c => Embedding.embedText c None) <$> chunks) in
  let chunkInserts :=
    imap (fun index c =>
            {| rc_text := c; rc_embedding := mjoin (embeddings !! index);
               rc_source_type := lit "call"; rc_source_id := callId;
               rc_phone_number := phone_number callRecord; rc_chunk_index := Some index |})
         chunks in
  let! chunkError := insert_rag_chunks chunkInserts in
  match chunkError with
  | Some _ => throw (new_Error (lit "Failed to save chunks"))
  | None =>
    update_recording callId
      {| p_status := None; p_error_reason := None; p_chunk_count := Some (length chunks);
         p_processed_at := None |}
  end.

(** From "Determine final status" to "Update final status". *)
Definition worker_finish (callId : jsstring) (callRecord : call_recording)
    (transcript : jsstring) (c : classification) : Eff unit :=
  let finalStatus := worker_final_status c in
  let! finalStatus :=
    (if str_eqb finalStatus (lit "11za_related")
     then try_catch
            (do! worker_chunk_and_embed callId callRecord transcript in ret finalStatus)
            (fun _ => ret (lit "failed"))
     else ret finalStatus) in
  let! t := now in
  update_recording callId
    {| p_status := Some finalStatus; p_error_reason := None; p_chunk_count := None;
       p_processed_at := Some t |}.

Definition processCall (callId : jsstring) : Eff unit :=
  try_catch
    (let! fetchError := remote (SelectCallRecord callId) in
     let! found := (fun w => (Ret (call_recordings w !! callId), w)) in
     match fetchError, found with
     | None, Some callRecord =>
       do! update_recording callId (status_patch (lit "transcribing")) in
       let! download := remote (StorageDownload (storage_path callRecord)) in
       match download with
       | PgOk (Some audioData) =>
         let! transcript := transcribeAudio audioData (file_name callRecord) in
         do! update_recording callId (status_patch (lit "classifying")) in
         let! c := classifyTranscript transcript in
         do! save_transcript callId transcript in
         do! save_classification callId c in
         worker_finish callId callRecord transcript c
       | _ => throw (new_Error (lit "Failed to download audio file"))
       end
     | _, _ => throw (new_Error (lit "Call record not found: " ++ callId))
     end)
    (fun error =>
       let! t := now in
       update_recording callId
         {| p_status := Some (lit "failed"); p_error_reason := error_message error;
            p_chunk_count := None; p_processed_at := Some t |}).

(** ** The upload endpoint: [POST] of process-call/route.ts *)

Record form_data := {
  form_file : option upload;
  form_phone_number : option jsstring
}.

Inductive response_body :=
| ErrorBody (error : option jsstring)
| ProcessedBody (call_id : jsstring) (final_status : jsstring) (transcript_length : nat)
    (chunks_created : nat) (phone : jsstring).

Record http_response := { http_status : nat; body : response_body }.

Definition json_error (msg : jsstring) (st : nat) : http_response :=
  {| http_status := st; body := ErrorBody (Some msg) |}.

(** ['relation "public.call_recordings" does not exist'] *)
Definition relation_missing : jsstring :=
  lit "relation " ++ [34%N] ++ lit "public.call_recordings" ++ [34%N] ++ lit " does not exist".

Definition migration_required : jsstring :=
  lit "Database migration required. Please run the migration SQL to create call recording tables.".

(** [e.message.includes(...)]; reading [includes] of a missing message
    throws a [TypeError]. *)
Definition message_mentions (e : js_error) (needle : jsstring) : Eff bool :=
  match message e with
  | Some m => ret (includes m needle)
  | None => throw (new_Error (lit "Cannot read properties of undefined (reading 'includes')"))
  end.

Definition allowedTypes : list jsstring :=
  [lit "audio/mpeg"; lit "audio/mp3"; lit "audio/wav"; lit "audio/ogg"; lit "audio/webm"].

(** "6) Determine final status" in process-call/route.ts *)
Definition upload_final_status (c : classification) : jsstring :=
  if truthy (isBlank c) then lit "blank"
  else if truthy (isSpam c) then lit "spam"
  else if truthy (is11zaRelated c) then lit "11za_related"
  else lit "approved".

Definition BATCH_SIZE : nat := 10.
Definition BATCH_DELAY_MS : Q := 1000.

(** The [for (let j = 0; j < batch.length; j++)] loop. *)
Definition push_batch_rows (callId : jsstring) (i : nat) (batch : list jsstring)
    (embeddings : list (option vector)) (rows : list rag_chunk) : Eff (list rag_chunk) :=
  for_of (imap (fun j c => (j, c)) batch)
    (fun '(j, c) rows =>
       match mjoin (embeddings !! j) with
       | None =>
         throw (new_Error (lit "Failed to generate embedding for chunk "
                           ++ Orchestrator.number_toString (N.of_nat (i + j + 1))))
       | Some embedding =>
         ret (rows ++ [{| rc_source_type := lit "call"; rc_source_id := callId; rc_text := c;
                          rc_embedding := Some embedding; rc_phone_number := None;
                          rc_chunk_index := None |}])
       end)
    rows.

(** The [for (let i = 0; i < chunks.length; i += BATCH_SIZE)] loop;
    [fuel] bounds the iterations, and [length chunks] is enough. *)
Fixpoint embed_batches (fuel i : nat) (callId : jsstring) (chunks : list jsstring)
    (rows : list rag_chunk) : Eff (list rag_chunk) :=
  match fuel with
  | 0 => ret rows
  | S fuel' =>
    if i <? length chunks
    then
      let batch := take BATCH_SIZE (drop i chunks) in
      let! embeddings := Promise_all ((fun c => Embedding.embedText c None) <$> batch) in
      let! rows := push_batch_rows callId i batch embeddings rows in
      do! (if i + BATCH_SIZE <? length chunks then sleep BATCH_DELAY_MS else ret tt) in
      embed_batches fuel' (i + BATCH_SIZE) callId chunks rows
    else ret rows
  end.

(** "7) If approved (11za_related), process for RAG" *)
Definition upload_process_for_rag (callId phoneNumber transcript : jsstring) : Eff unit :=
  let! chunks :=
    (fun w => (Ret (List.filter (fun c => 0 <? length (trim c))
                      (chunkText w transcript (Some 1500))), w)) in
  if length chunks =? 0
  then throw (new_Error (lit "No text chunks produced from transcript"))
  else
    let! rows := embed_batches (length chunks) 0 callId chunks [] in
    let! insertError := insert_rag_chunks rows in
    match insertError with
    | Some e => throw e
    | None =>
      let! mappingError := remote (InsertPhoneCallMapping phoneNumber callId) in
      match mappingError with
      | Some e => throw e
      | None =>
        fun w => (Ret tt, set_phone_call_mapping (fun t => t ++ [(phoneNumber, callId)]) w)
      end
    end.

(** From "6) Determine final status" to the response. *)
Definition upload_finish (callId phoneNumber transcript : jsstring) (c : classification)
    : Eff http_response :=
  let finalStatus := upload_final_status c in
  do! (if str_eqb finalStatus (lit "11za_related")
       then upload_process_for_rag callId phoneNumber transcript
       else ret tt) in
  let! t := now in
  do! update_recording callId
        {| p_status := Some finalStatus; p_error_reason := None; p_chunk_count := None;
           p_processed_at := Some t |} in
  ret {| http_status := 200;
         body := ProcessedBody callId finalStatus (length transcript)
                   (if str_eqb finalStatus (lit "11za_related")
                    then (length transcript + 1499) / 1500
                    else 0)
                   phoneNumber |}.

(** From "2) Transcribe audio" on, once [callId] is set. *)
Definition upload_pipeline (callId phoneNumber : jsstring) (file : upload) : Eff http_response :=
  let! transcript := transcribeAudio (up_bytes file) (up_name file) in
  do! update_recording callId (status_patch (lit "transcribing")) in
  let! transcriptError := save_transcript callId transcript in
  match transcriptError with
  | Some e => throw e
  | None =>
    let! c := classifyTranscript transcript in
    let! classificationError := save_classification callId c in
    match classificationError with
    | Some e => throw e
    | None => upload_finish callId phoneNumber transcript c
    end
  end.

(** The [catch] of [POST]; [callId] is what the variable holds when the
    exception arrives. *)
Definition upload_catch (callId : option jsstring) (err : js_error) : Eff http_response :=
  do! (match callId with
       | Some (c :: callId) => update_recording (c :: callId) (status_patch (lit "failed"))
       | _ => ret tt
       end) in
  ret {| http_status := 500;
         body := ErrorBody (if instanceof_Error err then message err
                            else Some (lit "Unknown error")) |}.

Definition POST (form : form_data) : Eff http_response :=
  try_catch
    (let! tableCheckError := remote CheckCallRecordingsTable in
     let! missing :=
       match tableCheckError with
       | Some e => message_mentions e relation_missing
       | None => ret false
       end in
     if missing then ret (json_error migration_required 400)
     else
       match form_file form, form_phone_number form with
       | None, _ => ret (json_error (lit "No audio file uploaded") 400)
       | Some file, Some (p :: phone) =>
         let phoneNumber := p :: phone in
         if negb (bool_decide (up_type file ∈ allowedTypes))
         then ret (json_error
                     (lit "Unsupported file type. Please upload MP3, WAV, or OGG files.") 400)
         else
           (* 1) create the call recording record *)
           let row :=
             {| file_name := up_name file; file_size := Some (up_size file);
                mime_type := Some (up_type file); storage_path := None;
                phone_number := Some phoneNumber; status := lit "uploaded";
                error_reason := None; chunk_count := None; processed_at := None |} in
           let! callRow := remote (InsertCallRecording row) in
           match callRow with
           | PgFail callError =>
             let! missing := message_mentions callError relation_missing in
             if missing then ret (json_error migration_required 500)
             else throw callError
           | PgOk callId =>
             do! (fun w => (Ret tt, set_call_recordings (insert callId row) w)) in
             try_catch (upload_pipeline callId phoneNumber file) (upload_catch (Some callId))
           end
       | Some _, _ => ret (json_error (lit "Phone number is required") 400)
       end)
    (upload_catch None).

End Texts.

End Ingestion.

(* ===================================================================== *)
(** * Concrete worlds *)
(* ===================================================================== *)

Module Scenarios.

(** PostgREST's answer to [.single()] when no row matches. *)
Definition no_rows : js_error :=
  {| instanceof_Error := false; statusCode := None; code := Some (lit "PGRST116");
     message := Some (lit "JSON object requested, multiple (or no) rows returned") |}.

(** A lost connection to the store. *)
Definition connection_lost : js_error :=
  {| instanceof_Error := false; statusCode := None; code := Some (lit "08006");
     message := Some (lit "connection failure") |}.


Definition bad_request : js_error :=
  {| instanceof_Error := true; statusCode := Some 400%Z; code := None;
     message := Some (lit "Bad Request") |}.

(** Collaborators that have nothing to say. *)
Definition silent (r : request) : reply_of r :=
  match r with
  | RpcMatchDocuments _ _ _ _ => PgOk []
  | RpcMatchShopifyChunks _ _ _ => PgOk None
  | SelectDataSource _ => PgFail no_rows
  | SelectShopifyStoreId _ => PgFail no_rows
  | SelectFileIds _ => PgOk []
  | SelectCallIds _ => PgOk []
  | SelectMappingDetails _ => PgOk None
  | SelectHistory _ => None
  | UpdateWhatsappMessage _ _ => tt
  | InsertWhatsappMessage _ => tt
  | EmbedText _ _ => EmbedReturns None
  | MathRandom => 0%Q
  | GroqChat _ _ _ => GroqChoices []
  | SendWhatsApp _ _ _ _ => {| send_success := false; send_error := None |}
  | Transcribe _ _ => TranscribeText []
  | CheckCallRecordingsTable => None
  | InsertCallRecording _ => PgFail connection_lost
  | SelectCallRecord _ => None
  | UpdateCallRecording _ _ => tt
  | StorageDownload _ => PgOk None
  | InsertTranscript _ => None
  | InsertClassification _ => None
  | InsertRagChunks _ => None
  | InsertPhoneCallMapping _ _ => None
  end.

(** A fresh world around an oracle: nothing sent, every table empty. *)
Definition fresh (o : nat -> forall r : request, reply_of r) : World :=
  {| oracle := o; requests := []; timers := []; clock := 0%Q;
     JSON_parse := fun _ => None; chunkText := fun _ _ => [];
     call_recordings := ∅; call_transcripts := []; call_classifications := [];
     rag_chunks := []; phone_call_mapping := []; whatsapp_messages := [] |}.

(** ** Two documents with two matches each *)

Definition row (name : string) (sim : Q) : chunk_row :=
  {| id := lit name; chunk := lit name; similarity := sim;
     source_type := lit "pdf"; source_id := lit name; file_id := None |}.

Definition two_documents_oracle (n : nat) (r : request) : reply_of r :=
  match r with
  | RpcMatchDocuments _ _ (Some f) _ =>
    if str_eqb f (lit "doc-a") then PgOk [row "a1" (9 # 10); row "a2" (1 # 2)]
    else if str_eqb f (lit "doc-b") then PgOk [row "b1" (7 # 10); row "b2" (3 # 10)]
    else PgOk []
  | r => silent r
  end.

Definition two_documents : World := fresh two_documents_oracle.

(** ** A provider under sustained rate limiting; the random source
    answers one half *)



(** ** A provider that rejects the text *)

Definition rejecting_oracle (n : nat) (r : request) : reply_of r :=
  match r with
  | EmbedText _ _ => EmbedThrows bad_request
  | r => silent r
  end.

Definition rejecting_provider : World := fresh rejecting_oracle.

(** ** Source mapping: an unmapped number, a store that is down, a mapped
    row without a data source *)

Definition business_number : jsstring := lit "+15550100".

Definition unmapped : World := fresh (fun _ => silent).

Definition store_down_oracle (n : nat) (r : request) : reply_of r :=
  match r with
  | SelectDataSource _ => PgFail connection_lost
  | SelectShopifyStoreId _ => PgFail connection_lost
  | SelectFileIds _ => PgFail connection_lost
  | SelectCallIds _ => PgFail connection_lost
  | SelectMappingDetails _ => PgFail connection_lost
  | r => silent r
  end.

Definition store_down : World := fresh store_down_oracle.



(** ** A conversation of 21 messages, received at times 1 to 21 *)

Definition counterpart : jsstring := lit "+15550199".

Definition inbound (i : nat) : message_row :=
  {| message_id := lit "m" ++ Orchestrator.number_toString (N.of_nat i);
     from_number := counterpart; to_number := business_number;
     received_at := Z.of_nat i;
     content_text := Some (lit "message " ++ Orchestrator.number_toString (N.of_nat i));
     event_type := lit "MoMessage"; sender_name := None;
     auto_respond_sent := None; response_sent_at := None |}.

Definition long_conversation : World :=
  set_whatsapp_messages (fun _ => inbound <$> seq 1 21) unmapped.

(** The turn built from [inbound i]. *)
Definition turn (i : nat) : chat_message :=
  {| msg_role := user; msg_content := lit "message " ++ Orchestrator.number_toString (N.of_nat i) |}.

(** ** A business number that answers: mapped without a data source, one
    document, credentials set, every collaborator up, and the 21-message
    conversation in the table *)

Definition support_line_oracle (n : nat) (r : request) : reply_of r :=
  match r with
  | SelectDataSource _ => PgOk None
  | SelectMappingDetails _ =>
    PgOk (Some [{| system_prompt := None; intent := None;
                   auth_token := Some (lit "token"); origin := Some (lit "https://api") |}])
  | EmbedText _ _ => EmbedReturns (Some [1%Q])
  | SelectFileIds _ => PgOk [Some (lit "doc-a")]
  | RpcMatchDocuments _ _ _ _ => PgOk [row "a1" (9 # 10)]
  | GroqChat _ _ _ => GroqChoices [Some (lit "Hello!")]
  | SendWhatsApp _ _ _ _ => {| send_success := true; send_error := None |}
  | r => silent r
  end.

Definition support_line : World :=
  set_whatsapp_messages (fun _ => inbound <$> seq 1 21) (fresh support_line_oracle).

(** The message lists of the chat completions among the requests. *)
Definition chats_sent (qs : list request) : list (list chat_message) :=
  omap (fun r => match r with
                 | GroqChat _ messages _ => Some messages
                 | _ => None
                 end) qs.

(** ** Uploads through [POST] of process-call *)

Definition call_upload : Ingestion.form_data :=
  {| Ingestion.form_file :=
       Some {| up_name := lit "call.mp3"; up_size := 3%N; up_type := lit "audio/mpeg";
               up_bytes := [1%N; 2%N; 3%N] |};
     Ingestion.form_phone_number := Some business_number |}.

Definition new_call : jsstring := lit "call-1".

Definition provider_down : js_error :=
  {| instanceof_Error := true; statusCode := Some 503%Z; code := None;
     message := Some (lit "Service Unavailable") |}.

(** The store accepts the new row; the transcription provider fails. *)
Definition failing_transcription_oracle (n : nat) (r : request) : reply_of r :=
  match r with
  | InsertCallRecording _ => PgOk new_call
  | Transcribe _ _ => TranscribeThrows provider_down
  | r => silent r
  end.

Definition failing_transcription : World := fresh failing_transcription_oracle.

(** The same failure met by the worker: the recording is in the table
    and its audio can be downloaded. *)
Definition stored_recording : call_recording :=
  {| file_name := lit "call.mp3"; file_size := Some 3%N; mime_type := Some (lit "audio/mpeg");
     storage_path := Some (lit "calls/call.mp3"); phone_number := Some business_number;
     status := lit "uploaded"; error_reason := None; chunk_count := None;
     processed_at := None |}.

Definition failing_transcription_worker_oracle (n : nat) (r : request) : reply_of r :=
  match r with
  | StorageDownload _ => PgOk (Some [1%N; 2%N; 3%N])
  | Transcribe _ _ => TranscribeThrows provider_down
  | r => silent r
  end.

Definition failing_transcription_worker : World :=
  set_call_recordings (fun _ => {[ new_call := stored_recording ]})
    (fresh failing_transcription_worker_oracle).







(** A silent recording: the transcript is empty and the classifier is
    down. *)
Definition silence_oracle (n : nat) (r : request) : reply_of r :=
  match r with
  | StorageDownload _ => PgOk (Some [1%N; 2%N; 3%N])
  | Transcribe _ _ => TranscribeText []
  | GroqChat _ _ _ => GroqThrows provider_down
  | r => silent r
  end.

Definition silence_worker : World :=
  set_call_recordings (fun _ => {[ new_call := stored_recording ]}) (fresh silence_oracle).

(** The status and the error reason recorded for a call. *)
Definition recorded (w : World) (callId : jsstring) : option (jsstring * option jsstring) :=
  (fun r => (status r, error_reason r)) <$> call_recordings w !! callId.

End Scenarios.

(* ===================================================================== *)
(** * Terms of the statements *)
(* ===================================================================== *)

Module Terms.
Import Retrieval Embedding PhoneMapping Orchestrator Ingestion.

(** The world after the requests [qs] were sent. *)
Definition issue (qs : list request) (w : World) : World := set_requests (fun l => l ++ qs) w.

(** The similarity query for one document, bounded to [limit] rows. *)
Definition doc_query (emb : vector) (limit : nat) (f : jsstring) : request :=
  RpcMatchDocuments emb limit (Some f) [lit "pdf"].

(** The store answers the query for [f], sent as the [n]-th request,
    without an error. *)
Definition doc_ok (w : World) (emb : vector) (limit n : nat) (f : jsstring) : Prop :=
  exists rows, oracle w n (doc_query emb limit f) = PgOk rows.

(** The rows of that answer. *)
Definition doc_rows (w : World) (emb : vector) (limit n : nat) (f : jsstring) : list chunk_row :=
  match oracle w n (doc_query emb limit f) with
  | PgOk rows => rows
  | PgFail _ => []
  end.

(** [a] may stand before [b] in a ranked list. *)
Definition ranked_before (a b : chunk_row) : Prop := (similarity b <= similarity a)%Q.

(** The body of both per-document loops; [g] is what is pushed. *)
Definition fetch_body (emb : vector) (limit : nat)
    (g : jsstring -> list chunk_row -> list chunk_row)
    (fileId : jsstring) (allChunks : list chunk_row) : Eff (list chunk_row) :=
  let! chunks := retrieveRelevantChunks emb (Some fileId) limit [lit "pdf"] in
  ret (allChunks ++ g fileId chunks).

(** The provider call of [embedTextWithRateLimit]: [embedText(text, 0)]. *)
Definition embed_query (text : jsstring) : request := EmbedText text (Some 0).




(** The world after waiting [ms]. *)
Definition wait (ms : Q) (w : World) : World :=
  set_timers (fun l => l ++ [ms]) (fun t => (t + ms)%Q) w.


(** The design's wording of the history step: the 20 most recent
    messages involving the counterpart, oldest first, of which the most
    recent 10 turns are kept. *)
Definition most_recent_20 (counterpart : jsstring) (table : list message_row)
    : list message_row :=
  slice_last 20 (sort by_received_at_asc (filter (involves counterpart) table)).

Definition stated_context (counterpart : jsstring) (table : list message_row)
    : list chat_message :=
  slice_last 10 (to_chat_message <$> List.filter is_chat_turn (most_recent_20 counterpart table)).

(** The context the code puts into the prompt. *)
Definition prompt_context (fromNumber : jsstring) (w : World) : outcome (list chat_message) :=
  match fst (load_history fromNumber w) with
  | Ret history => Ret (slice_last 10 history)
  | Throw e => Throw e
  end.

(** The classifier request for a transcript. *)
Definition classify_query (prompt : jsstring -> jsstring) (transcript : jsstring) : request :=
  GroqChat (lit "llama3-8b-8192") [{| msg_role := user; msg_content := prompt transcript |}] 500.

(** The classifier call fails: the provider throws, the answer has no
    content, or the content does not parse. *)
Definition classifier_fails (w : World) (reply : groq_reply) : Prop :=
  match reply with
  | GroqThrows _ => True
  | GroqChoices (Some (c :: content) :: _) => JSON_parse w (c :: content) = None
  | GroqChoices _ => True
  end.

(** The world after [update_recording callId patch]. *)
Definition updated (callId : jsstring) (patch : recording_patch) (w : World) : World :=
  set_call_recordings (alter (apply_patch patch) callId)
    (issue [UpdateCallRecording callId patch] w).

(** The object of the "Update final status" write. *)
Definition final_patch (finalStatus : jsstring) (t : Q) : recording_patch :=
  {| p_status := Some finalStatus; p_error_reason := None; p_chunk_count := None;
     p_processed_at := Some t |}.

(** The object of the write in the [catch] of the worker. *)
Definition failed_patch (e : js_error) (t : Q) : recording_patch :=
  {| p_status := Some (lit "failed"); p_error_reason := error_message e;
     p_chunk_count := None; p_processed_at := Some t |}.

(** A transcript goes to the chunking stage. *)
Definition chunked (c : classification) : bool :=
  negb (truthy (isBlank c)) && negb (truthy (isSpam c)) && truthy (is11zaRelated c).

End Terms.

(* ===================================================================== *)
(** * The manual trigger of the worker (process-calls-worker/route.ts) *)
(* ===================================================================== *)

Module WorkerRoutes.

Inductive trigger_body :=
| TriggerMessage (msg : jsstring)
| TriggerError (error : jsstring).

Record trigger_response := { trigger_status : nat; trigger_body_of : trigger_body }.

(** [POST]: [body] is what [await request.json()] gives, [None] when it
    throws; the inner option is the [callId] property. *)
Definition POST (prompt : jsstring -> jsstring) (body : option (option jsstring))
    : Eff trigger_response :=
  try_catch
    (match body with
     | None => throw (new_Error (lit "Unexpected end of JSON input"))
     | Some (Some (c :: callId)) =>
       do! Ingestion.processCall prompt (c :: callId) in
       ret {| trigger_status := 200;
              trigger_body_of := TriggerMessage (lit "Call processing triggered") |}
     | Some _ =>
       ret {| trigger_status := 400; trigger_body_of := TriggerError (lit "callId is required") |}
     end)
    (fun _ =>
       ret {| trigger_status := 500;
              trigger_body_of := TriggerError (lit "Failed to trigger processing") |}).

End WorkerRoutes.

(* ===================================================================== *)
(** * Catalog texts (ShopifyDataProcessor in src/lib/phoneMapping.ts) *)
(* ===================================================================== *)

Module CatalogText.

Definition lt_sign : N := 60.
Definition gt_sign : N := 62.

(** A [>] occurs in [s]. *)
Definition has_gt (s : jsstring) : bool := existsb (N.eqb gt_sign) s.

(** [s.replace(/<[^>]*>/g, '')], scanning from the left: a [<] opens a
    match when a [>] follows somewhere, the match runs to the first such
    [>], and the scan goes on behind it.  [in_tag] says that the scan is
    inside a match. *)
Fixpoint strip_scan (in_tag : bool) (s : jsstring) : jsstring :=
  match s with
  | [] => []
  | c :: s' =>
    if in_tag
    then if (c =? gt_sign)%N then strip_scan false s' else strip_scan true s'
    else if (c =? lt_sign)%N && has_gt s' then strip_scan true s'
         else c :: strip_scan false s'
  end.

Definition strip_tags (s : jsstring) : jsstring := strip_scan false s.

(** No [<] of [t] is followed by a [>]. *)
Definition no_tag (t : jsstring) : Prop :=
  forall pre post, t = pre ++ lt_sign :: post -> has_gt post = false.

Record ShopifyPage := {
  page_id : jsstring;
  page_title : jsstring;
  page_handle : jsstring;
  page_body : option jsstring
}.

Record ShopifyCollection := {
  collection_id : jsstring;
  collection_title : jsstring;
  collection_description : option jsstring;
  collection_handle : jsstring
}.

Definition pageToText (page : ShopifyPage) : jsstring :=
  let text := lit "Page: " ++ page_title page ++ Orchestrator.nl in
  let text :=
    match page_body page with
    | Some (c :: body) =>
      let cleanBody := trim (strip_tags (c :: body)) in
      text ++ lit "Content: " ++ cleanBody ++ Orchestrator.nl
    | _ => text
    end in
  trim text.

Definition collectionToText (collection : ShopifyCollection) : jsstring :=
  let text := lit "Collection: " ++ collection_title collection ++ Orchestrator.nl in
  let text :=
    match collection_description collection with
    | Some (c :: description) =>
      let cleanDescription := trim (strip_tags (c :: description)) in
      text ++ lit "Description: " ++ cleanDescription ++ Orchestrator.nl
    | _ => text
    end in
  trim text.

End CatalogText.

(* ===================================================================== *)
(** * The rate-limit-safe catalog sync (src/lib/phoneMapping.ts, second
      part) *)
(* ===================================================================== *)

Module CatalogSync.

Record ShopifyVariant := {
  variant_id : jsstring;
  price_amount : jsstring;
  price_currencyCode : jsstring;
  availableForSale : bool;
  sku : option jsstring
}.

Record ShopifyProduct := {
  product_id : jsstring;
  product_title : jsstring;
  product_description : jsstring;
  product_handle : jsstring;
  onlineStoreUrl : option jsstring;
  variants : list ShopifyVariant;
  images : list jsstring
}.

(** The [metadata] objects of the chunk data; each producer sets some of
    the properties. *)
Record chunk_metadata := {
  md_handle : jsstring;
  md_url : option jsstring;
  md_variants_count : option nat;
  md_images_count : option nat;
  md_available_variants : option nat;
  md_chunk_index : option nat;
  md_total_chunks : option nat
}.

Record ShopifyChunkData := {
  content_type : jsstring;
  content_id : jsstring;
  title : jsstring;
  text : jsstring;
  metadata : chunk_metadata
}.

(** An entry of [results]. *)
Record sync_result := {
  sr_product : ShopifyProduct;
  sr_chunks : list ShopifyChunkData;
  sr_success : bool;
  sr_error : option jsstring
}.

(** [embeddingCache]: the [Map] that every call shares; it is passed
    along and returned. *)
Abbreviation cache := (gmap jsstring (option vector)).

Definition requestDelay : Q := 100.

Section Texts.

(** [productToText], which formats prices with [parseFloat] and
    [toFixed]; nothing below depends on the text it builds. *)
Variable productToText : ShopifyProduct -> jsstring.

Definition chunk_data (product : ShopifyProduct) (chunk : jsstring) (i total : nat)
    : ShopifyChunkData :=
  {| content_type := lit "product"; content_id := product_id product;
     title := product_title product; text := chunk;
     metadata :=
       {| md_handle := product_handle product; md_url := None;
          md_variants_count := Some (length (variants product));
          md_images_count := None; md_available_variants := None;
          md_chunk_index := Some i; md_total_chunks := Some total |} |}.

(** The [for (let i = 0; i < chunks.length; i++)] loop inside the [try]
    of one product.  An exception leaves the loop with the cache as the
    chunks before it left it: [inl] carries the exception to the [catch]. *)
Fixpoint sync_chunks (product : ShopifyProduct) (total i : nat) (chunks : list jsstring)
    (embeddingCache : cache) (processedChunks : list ShopifyChunkData)
    : Eff ((js_error + list ShopifyChunkData) * cache) :=
  match chunks with
  | [] => ret (inr processedChunks, embeddingCache)
  | chunk :: rest =>
    let! fetched :=
      match mjoin (embeddingCache !! chunk) with
      | Some _ => ret (inr embeddingCache)
      | None =>
        try_catch
          (let! r := Embedding.embedTextWithRateLimit chunk embeddingCache in
           ret (inr (snd r)))
          (fun error => ret (inl error))
      end in
    match fetched with
    | inl error => ret (inl error, embeddingCache)
    | inr embeddingCache =>
      do! (if i <? total - 1 then sleep requestDelay else ret tt) in
      sync_chunks product total (S i) rest embeddingCache
        (processedChunks ++ [chunk_data product chunk i total])
    end
  end.

(** [error.message || 'Unknown error'] *)
Definition message_or_unknown (error : js_error) : jsstring :=
  match message error with
  | Some (c :: m) => c :: m
  | _ => lit "Unknown error"
  end.

(** The body of [for (const product of products)]: the [try] and its
    [catch]. *)
Definition sync_product (product : ShopifyProduct) (embeddingCache : cache)
    : Eff (sync_result * cache) :=
  let productText := productToText product in
  let! chunks :=
    (fun w => (Ret (List.filter (fun c => 0 <? length (trim c))
                      (chunkText w productText (Some 1500))), w)) in
  let! r := sync_chunks product (length chunks) 0 chunks embeddingCache [] in
  match fst r with
  | inr processedChunks =>
    ret ({| sr_product := product; sr_chunks := processedChunks; sr_success := true;
            sr_error := None |}, snd r)
  | inl error =>
    ret ({| sr_product := product; sr_chunks := []; sr_success := false;
            sr_error := Some (message_or_unknown error) |}, snd r)
  end.

Definition syncShopifyWithMistralRateLimitSafe (products : list ShopifyProduct)
    : Eff (list sync_result) :=
  let! r :=
    for_of products
      (fun product acc =>
         let! step := sync_product product (snd acc) in
         ret (fst acc ++ [fst step], snd step))
      ([], ∅) in
  ret (fst r).

End Texts.

End CatalogSync.

(* ===================================================================== *)
(** * The catalog processor (src/lib/shopifyClient.ts and
      ShopifyDataProcessor, processShopifyStore, syncShopifyStore in
      src/lib/phoneMapping.ts) *)
(* ===================================================================== *)

Module Shopify.
Import CatalogText CatalogSync.

(** What [fetch] and [response.json()] give [makeRequest]: the data, a
    response that is not [ok], or a body with [errors]. *)
Inductive api_reply (D : Type) :=
| ApiData (d : D)
| ApiStatus (status : N) (statusText : jsstring)
| ApiErrors (errors_json : jsstring).
Arguments ApiData {D} d.
Arguments ApiStatus {D} status statusText.
Arguments ApiErrors {D} errors_json.

(** A page of a connection: the nodes of its edges and its [pageInfo]. *)
Record listing (T : Type) := {
  nodes : list T;
  hasNextPage : bool;
  endCursor : option jsstring
}.
Arguments nodes {T} l.
Arguments hasNextPage {T} l.
Arguments endCursor {T} l.

(** [shopify_stores], the columns read here. *)
Record ShopifyStore := {
  store_domain : jsstring;
  storefront_token : jsstring
}.

(** [shopify_chunks] *)
Record shopify_chunk := {
  ch_store_id : jsstring;
  ch_content_type : jsstring;
  ch_content_id : jsstring;
  ch_title : jsstring;
  ch_chunk_text : jsstring;
  ch_embedding : vector;
  ch_metadata : chunk_metadata
}.

(** The requests to the Storefront API of a store and to the two tables
    of the catalog. *)
Inductive query :=
| GetStoreInfo (domain token : jsstring)
| GetProducts (domain token : jsstring) (first : nat) (after : option jsstring)
| GetPages (domain token : jsstring) (first : nat) (after : option jsstring)
| GetCollections (domain token : jsstring) (first : nat) (after : option jsstring)
| DeleteChunks (store_id : jsstring)
| InsertChunk (row : shopify_chunk)
| SelectStore (storeId : jsstring)
| UpdateLastSynced (storeId : jsstring) (t : Q).

Definition answer_of (q : query) : Type :=
  match q with
  | GetStoreInfo _ _ => api_reply jsstring
  | GetProducts _ _ _ _ => api_reply (listing ShopifyProduct)
  | GetPages _ _ _ _ => api_reply (listing ShopifyPage)
  | GetCollections _ _ _ _ => api_reply (listing ShopifyCollection)
  | DeleteChunks _ => option js_error
  | InsertChunk _ => option js_error
  | SelectStore _ => pg_reply (option ShopifyStore)
  | UpdateLastSynced _ _ => unit
  end.

(** The environment of the catalog code: the world of the embedding
    provider, the chunker and the clock, the answers to the [n]-th query,
    the queries so far, and the chunk table. *)
Record State := {
  world : World;
  api : nat -> forall q : query, answer_of q;
  asked : list query;
  shopify_chunks : list shopify_chunk
}.

Definition set_world (f : World -> World) (s : State) : State :=
  {| world := f (world s); api := api s; asked := asked s; shopify_chunks := shopify_chunks s |}.

Definition set_asked (f : list query -> list query) (s : State) : State :=
  {| world := world s; api := api s; asked := f (asked s); shopify_chunks := shopify_chunks s |}.

Definition set_shopify_chunks (f : list shopify_chunk -> list shopify_chunk) (s : State) : State :=
  {| world := world s; api := api s; asked := asked s; shopify_chunks := f (shopify_chunks s) |}.

(** ** Computations on a [State] *)

Definition Run (A : Type) : Type := State -> outcome A * State.

Definition pure {A} (a : A) : Run A := fun s => (Ret a, s).

Definition raise {A} (e : js_error) : Run A := fun s => (Throw e, s).

Definition and_then {A B} (c : Run A) (k : A -> Run B) : Run B :=
  fun s =>
    match c s with
    | (Ret a, s') => k a s'
    | (Throw e, s') => (Throw e, s')
    end.

(** [try { c } catch (e) { h e }] *)
Definition attempt {A} (c : Run A) (h : js_error -> Run A) : Run A :=
  fun s =>
    match c s with
    | (Ret a, s') => (Ret a, s')
    | (Throw e, s') => h e s'
    end.

Notation "'let*' x ':=' c 'in' k" := (and_then c (fun x => k))
  (at level 10, x name, c at level 100, k at level 200).
Notation "'do*' c 'in' k" := (and_then c (fun _ => k))
  (at level 10, c at level 100, k at level 200).

(** A computation of the embedding world, run on the world of the
    state. *)
Definition lift {A} (c : Eff A) : Run A :=
  fun s => (fst (c (world s)), set_world (fun _ => snd (c (world s))) s).

(** Send [q] and await the answer. *)
Definition ask (q : query) : Run (answer_of q) :=
  fun s => (Ret (api s (length (asked s)) q), set_asked (fun l => l ++ [q]) s).

(** ** [ShopifyAPIClient] *)

(** The message of the error that [makeRequest] throws for a response
    that is not [ok]. *)
Definition status_message (status : N) (statusText : jsstring) : jsstring :=
  if (status =? 401)%N
  then lit "Invalid or expired Shopify storefront access token. Please check your token and try again."
  else if (status =? 403)%N
  then lit "Access forbidden. Your storefront token may not have the required permissions."
  else if (status =? 404)%N
  then lit "Shopify store not found. Please check your store domain."
  else if (status =? 429)%N
  then lit "Rate limit exceeded. Please try again later."
  else lit "Shopify API error: " ++ Orchestrator.number_toString status ++ lit " " ++ statusText.

(** [makeRequest] behind the [fetch]. *)
Definition makeRequest {D} (response : api_reply D) : Run D :=
  match response with
  | ApiStatus status statusText => raise (new_Error (status_message status statusText))
  | ApiErrors errors_json => raise (new_Error (lit "Shopify GraphQL errors: " ++ errors_json))
  | ApiData d => pure d
  end.


Definition getProducts (domain token : jsstring) (first : nat) (after : option jsstring)
    : Run (listing ShopifyProduct) :=
  let* response := ask (GetProducts domain token first after) in makeRequest response.

Definition getPages (domain token : jsstring) (first : nat) (after : option jsstring)
    : Run (listing ShopifyPage) :=
  let* response := ask (GetPages domain token first after) in makeRequest response.

Definition getCollections (domain token : jsstring) (first : nat) (after : option jsstring)
    : Run (listing ShopifyCollection) :=
  let* response := ask (GetCollections domain token first after) in makeRequest response.

(** ** [ShopifyDataProcessor] *)

(** [`${error.message}`] *)
Definition message_text (error : js_error) : jsstring :=
  default (lit "undefined") (message error).

Definition chunk_row (storeId : jsstring) (chunkData : ShopifyChunkData) (embedding : vector)
    : shopify_chunk :=
  {| ch_store_id := storeId; ch_content_type := content_type chunkData;
     ch_content_id := content_id chunkData; ch_title := title chunkData;
     ch_chunk_text := text chunkData; ch_embedding := embedding;
     ch_metadata := metadata chunkData |}.

Definition storeChunk (storeId : jsstring) (chunkData : ShopifyChunkData) : Run unit :=
  let* embedding := lift (Embedding.embedText (text chunkData) None) in
  match embedding with
  | None =>
    raise (new_Error (lit "Failed to generate embedding for chunk: " ++ title chunkData))
  | Some embedding =>
    let row := chunk_row storeId chunkData embedding in
    let* error := ask (InsertChunk row) in
    match error with
    | None => fun s => (Ret tt, set_shopify_chunks (fun t => t ++ [row]) s)
    | Some error =>
      if bool_decide (code error = Some (lit "23505"))
      then pure tt
      else raise (new_Error (lit "Failed to store chunk: " ++ message_text error))
    end
  end.

(** [chunkText(text, 1500).filter(c => c.trim().length > 0)] *)
Definition chunks_of (text : jsstring) : Run (list jsstring) :=
  lift (fun w => (Ret (List.filter (fun c => 0 <? length (trim c))
                         (chunkText w text (Some 1500))), w)).

(** [for (const chunk of chunks) await this.storeChunk(...)] *)
Fixpoint store_chunks (storeId : jsstring) (data : jsstring -> ShopifyChunkData)
    (chunks : list jsstring) : Run unit :=
  match chunks with
  | [] => pure tt
  | chunk :: rest => do* storeChunk storeId (data chunk) in store_chunks storeId data rest
  end.

Definition handle_only (handle : jsstring) : chunk_metadata :=
  {| md_handle := handle; md_url := None; md_variants_count := None; md_images_count := None;
     md_available_variants := None; md_chunk_index := None; md_total_chunks := None |}.

Definition processPage (storeId : jsstring) (page : ShopifyPage) : Run unit :=
  let* chunks := chunks_of (pageToText page) in
  store_chunks storeId
    (fun chunk =>
       {| content_type := lit "page"; content_id := page_id page; title := page_title page;
          text := chunk; metadata := handle_only (page_handle page) |})
    chunks.

Definition processCollection (storeId : jsstring) (collection : ShopifyCollection) : Run unit :=
  let* chunks := chunks_of (collectionToText collection) in
  store_chunks storeId
    (fun chunk =>
       {| content_type := lit "collection"; content_id := collection_id collection;
          title := collection_title collection; text := chunk;
          metadata := handle_only (collection_handle collection) |})
    chunks.

(** The loop that the three [process...s] methods share:

    [while (hasNextPage && total < max) {
       const { items, hasNextPage: nextPage, endCursor: cursor } = await fetch(first, endCursor);
       for (const item of items) { if (total >= max) break; await process(item); total++; }
       hasNextPage = nextPage; endCursor = cursor; }]

    The result is the total that the method logs, or [None] when [fuel]
    iterations of the [while] did not end it. *)
Section Pagination.

Context {T : Type}.
Variable fetch : nat -> option jsstring -> Run (listing T).
Variable process : T -> Run unit.
Variable first max : nat.

Fixpoint process_items (items : list T) (total : nat) : Run nat :=
  match items with
  | [] => pure total
  | item :: rest =>
    if max <=? total then pure total
    else do* process item in process_items rest (S total)
  end.

Fixpoint paginate (fuel : nat) (nextPage : bool) (cursor : option jsstring) (total : nat)
    : Run (option nat) :=
  if nextPage && (total <? max)
  then
    match fuel with
    | 0 => pure None
    | S fuel' =>
      let* page := fetch first cursor in
      let* total := process_items (nodes page) total in
      paginate fuel' (hasNextPage page) (endCursor page) total
    end
  else pure (Some total).

End Pagination.

Definition clearExistingChunks (storeId : jsstring) : Run unit :=
  let* error := ask (DeleteChunks storeId) in
  match error with
  | Some error =>
    raise (new_Error (lit "Failed to clear existing chunks: " ++ message_text error))
  | None =>
    fun s =>
      (Ret tt,
       set_shopify_chunks (List.filter (fun row => negb (str_eqb (ch_store_id row) storeId))) s)
  end.

Section Processor.

(** The private [productToText], which formats prices with [parseFloat]
    and [toFixed]; nothing below depends on the text it builds. *)
Variable productToText : ShopifyProduct -> jsstring.

Variable storeDomain storefrontToken storeId : jsstring.

Definition processProduct (product : ShopifyProduct) : Run unit :=
  let* chunks := chunks_of (productToText product) in
  let productUrl :=
    match onlineStoreUrl product with
    | Some (c :: url) => c :: url
    | _ => lit "https://" ++ storeDomain ++ lit "/products/" ++ product_handle product
    end in
  let metadata :=
    {| md_handle := product_handle product; md_url := Some productUrl;
       md_variants_count := Some (length (variants product));
       md_images_count := Some (length (images product));
       md_available_variants := Some (length (List.filter availableForSale (variants product)));
       md_chunk_index := None; md_total_chunks := None |} in
  store_chunks storeId
    (fun chunk =>
       {| content_type := lit "product"; content_id := product_id product;
          title := product_title product; text := chunk; metadata := metadata |})
    chunks.

Definition processProducts (fuel : nat) : Run (option nat) :=
  paginate (getProducts storeDomain storefrontToken) processProduct 250 6 fuel true None 0.

Definition processPages (fuel : nat) : Run (option nat) :=
  paginate (getPages storeDomain storefrontToken) (processPage storeId) 100 3 fuel true None 0.

Definition processCollections (fuel : nat) : Run (option nat) :=
  paginate (getCollections storeDomain storefrontToken) (processCollection storeId) 100 3
    fuel true None 0.

(** [None] when one of the three loops did not end within [fuel]
    iterations. *)
Definition processAllData (fuel : nat) : Run (option unit) :=
  do* clearExistingChunks storeId in
  let* products := processProducts fuel in
  match products with
  | None => pure None
  | Some _ =>
    let* pages := processPages fuel in
    match pages with
    | None => pure None
    | Some _ =>
      let* collections := processCollections fuel in
      match collections with
      | None => pure None
      | Some _ => pure (Some tt)
      end
    end
  end.

End Processor.

Section Stores.

Variable productToText : ShopifyProduct -> jsstring.

Definition processShopifyStore (fuel : nat) (storeId : jsstring) : Run (option unit) :=
  let* reply := ask (SelectStore storeId) in
  match reply with
  | PgOk (Some store) =>
    let* done :=
      processAllData productToText (store_domain store) (storefront_token store) storeId fuel in
    match done with
    | None => pure None
    | Some _ =>
      let* t := lift now in
      do* ask (UpdateLastSynced storeId t) in
      pure (Some tt)
    end
  | _ => raise (new_Error (lit "Store not found: " ++ storeId))
  end.

End Stores.

(** ** [syncShopifyStore] *)





End Shopify.

(* ===================================================================== *)
(** * Specifications of computations *)
(* ===================================================================== *)

Module Logic.

(** Started in a world that satisfies [P], the computation [c] ends with
    an outcome and a world that satisfy [Q]. *)
Definition hoare {A} (P : World -> Prop) (c : Eff A) (Q : outcome A -> World -> Prop) : Prop :=
  forall w, P w -> Q (fst (c w)) (snd (c w)).

(** [c] keeps [I], whether it returns or throws. *)
Definition keeps {A} (I : World -> Prop) (c : Eff A) : Prop :=
  forall w, I w -> I (snd (c w)).

(** [c] never throws. *)
Definition returns {A} (c : Eff A) : Prop := forall w, exists a, fst (c w) = Ret a.

(** Since the log was [l0], only requests that satisfy [φ] were sent. *)
Definition sent_only (φ : request -> Prop) (l0 : list request) (w : World) : Prop :=
  exists qs, requests w = l0 ++ qs /\ Forall φ qs.

(** The tables and the timers of [w0] are those of [w]. *)
Definition same_store (w0 w : World) : Prop :=
  timers w = timers w0 /\ clock w = clock w0 /\
  call_recordings w = call_recordings w0 /\ call_transcripts w = call_transcripts w0 /\
  call_classifications w = call_classifications w0 /\ rag_chunks w = rag_chunks w0 /\
  phone_call_mapping w = phone_call_mapping w0 /\ whatsapp_messages w = whatsapp_messages w0.

(** The tables of [w0] are those of [w]. *)
Definition same_tables (w0 w : World) : Prop :=
  call_recordings w = call_recordings w0 /\ call_transcripts w = call_transcripts w0 /\
  call_classifications w = call_classifications w0 /\ rag_chunks w = rag_chunks w0 /\
  phone_call_mapping w = phone_call_mapping w0 /\ whatsapp_messages w = whatsapp_messages w0.

End Logic.

(* ===================================================================== *)
(** * Further terms and worlds of the statements *)
(* ===================================================================== *)

Module MoreTerms.
Import Retrieval Embedding PhoneMapping Orchestrator Ingestion Terms Logic.

(** A similarity query of either kind. *)
Definition is_similarity_query (r : request) : Prop :=
  match r with
  | RpcMatchDocuments _ _ _ _ | RpcMatchShopifyChunks _ _ _ => True
  | _ => False
  end.

(** The one query for the calls of [callIds]. *)
Definition call_query (emb : vector) (limit : nat) (callIds : list jsstring) : request :=
  RpcMatchDocuments emb (limit * length callIds) None [lit "call"].

(** The row has similarity [q]. *)
Definition has_similarity (q : Q) (c : chunk_row) : bool := Qeq_bool (similarity c) q.

(** ** Documents and calls: [doc-a] answers, [doc-b] is refused, the call
    query returns rows of three calls *)

Definition call_row (name call : string) (sim : Q) : chunk_row :=
  {| id := lit name; chunk := lit name; similarity := sim;
     source_type := lit "call"; source_id := lit call; file_id := None |}.

Definition mixed_sources_oracle (n : nat) (r : request) : reply_of r :=
  match r with
  | RpcMatchDocuments _ _ (Some f) _ =>
    if str_eqb f (lit "doc-a")
    then PgOk [Scenarios.row "a1" (9 # 10); Scenarios.row "a2" (1 # 2)]
    else PgFail Scenarios.connection_lost
  | RpcMatchDocuments _ _ None _ =>
    PgOk [call_row "c1" "call-1" (8 # 10); call_row "c2" "call-9" (7 # 10);
          call_row "c3" "call-2" (1 # 2)]
  | r => Scenarios.silent r
  end.

Definition mixed_sources : World := Scenarios.fresh mixed_sources_oracle.

(** ** Two documents whose best rows tie *)

Definition tied_documents_oracle (n : nat) (r : request) : reply_of r :=
  match r with
  | RpcMatchDocuments _ _ (Some f) _ =>
    if str_eqb f (lit "doc-a")
    then PgOk [Scenarios.row "a1" (1 # 2); Scenarios.row "a2" (2 # 4)]
    else PgOk [Scenarios.row "b1" (9 # 10); Scenarios.row "b2" (1 # 2)]
  | r => Scenarios.silent r
  end.

Definition tied_documents : World := Scenarios.fresh tied_documents_oracle.

(** The waits of [retrySupabaseQuery] after [k] refused attempts, the
    first of them attempt [a]. *)
Fixpoint retry_waits (maxRetries a k : nat) : list Q :=
  match k with
  | 0 => []
  | S k' =>
    (if a <? maxRetries then [inject_Z (Z.of_nat a * 1000)] else [])
      ++ retry_waits maxRetries (S a) k'
  end.

(** ** A store that refuses the first two data-source queries and then
    answers ['shopify'] *)

Definition recovering_store_oracle (n : nat) (r : request) : reply_of r :=
  match r with
  | SelectDataSource _ =>
    if n <? 2 then PgFail Scenarios.connection_lost else PgOk (Some (lit "shopify"))
  | r => Scenarios.silent r
  end.

Definition recovering_store : World := Scenarios.fresh recovering_store_oracle.

(** ** A provider that is rate limited twice and then answers *)



(** ** What a run of the responder did *)

(** A message handed to the WhatsApp sender. *)
Definition is_send (r : request) : bool :=
  match r with
  | SendWhatsApp _ _ _ _ => true
  | _ => false
  end.

(** The tables of the call pipeline are those of [w0]. *)
Definition call_tables_same (w0 w : World) : Prop :=
  call_recordings w = call_recordings w0 /\ call_transcripts w = call_transcripts w0 /\
  call_classifications w = call_classifications w0 /\ rag_chunks w = rag_chunks w0 /\
  phone_call_mapping w = phone_call_mapping w0.


(** The result [r] of a run from [w0] to [w] tells what happened: without
    [sent], nothing was handed to the sender; with [sent], exactly one
    message was, addressed to [fromNumber], with the reported response as
    its text and non-empty credentials, and the reply row was stored
    exactly when [sent] is [true]. *)
Definition answered (fromNumber : jsstring) (w0 : World) (r : AutoResponseResult) (w : World)
    : Prop :=
  call_tables_same w0 w /\
  exists qs, requests w = requests w0 ++ qs /\
    match sent r with
    | None =>
      success r = false /\ response r = None /\ List.filter is_send qs = [] /\
      length (whatsapp_messages w) = length (whatsapp_messages w0)
    | Some b =>
      success r = b /\ (b = true -> error r = None) /\
      exists resp token org,
        response r = Some resp /\ resp <> [] /\ token <> [] /\ org <> [] /\
        List.filter is_send qs = [SendWhatsApp fromNumber resp token org] /\
        length (whatsapp_messages w)
        = if b then S (length (whatsapp_messages w0)) else length (whatsapp_messages w0)
    end.

(** ** What a pipeline run leaves in [call_recordings] *)


Definition upload_terminal : list jsstring :=
  [lit "blank"; lit "spam"; lit "11za_related"; lit "approved"; lit "failed"].






(** ** An upload whose form is in order; the store creates the
    recording and the classifier answers with all flags false *)


(** The row the upload endpoint stores for a chunk of the call
    [callId]. *)
Definition upload_chunk_row (callId : jsstring) (emb : jsstring -> option vector) (c : jsstring)
    : rag_chunk :=
  {| rc_source_type := lit "call"; rc_source_id := callId; rc_text := c;
     rc_embedding := emb c; rc_phone_number := None; rc_chunk_index := None |}.


(** The error of the upload endpoint for the chunk at [index]. *)
Definition missing_embedding (index : nat) : js_error :=
  new_Error (lit "Failed to generate embedding for chunk "
             ++ Orchestrator.number_toString (N.of_nat (index + 1))).

(** ** A provider that embeds every text as its length, and has no
    embedding for the empty text *)

Definition length_embedding (c : jsstring) : option vector :=
  match c with
  | [] => None
  | _ => Some [inject_Z (Z.of_nat (length c))]
  end.

Definition embedding_provider_oracle (n : nat) (r : request) : reply_of r :=
  match r with
  | EmbedText c _ => EmbedReturns (length_embedding c)
  | r => Scenarios.silent r
  end.

Definition embedding_provider : World := Scenarios.fresh embedding_provider_oracle.

(** Twelve one-letter chunks. *)
Definition twelve_chunks : list jsstring := (fun i => [N.of_nat (97 + i)]) <$> seq 0 12.


(** A short classification prompt. *)
Definition plain_prompt (transcript : jsstring) : jsstring := lit "Classify: " ++ transcript.

(** ** What the catalog sync may do *)

(** A provider call or a draw of the jitter. *)
Definition is_embedding_traffic (r : request) : Prop :=
  match r with
  | EmbedText _ _ | MathRandom => True
  | _ => False
  end.

(** From [w] to [w'] only embedding traffic was sent and no table was
    written. *)
Definition embedding_only (w w' : World) : Prop :=
  same_tables w w' /\ oracle w' = oracle w /\ chunkText w' = chunkText w /\
  exists qs, requests w' = requests w ++ qs /\ Forall is_embedding_traffic qs.

(** The chunks the sync makes of a product text. *)
Definition product_chunks (w : World) (productText : jsstring) : list jsstring :=
  List.filter (fun c => 0 <? length (trim c)) (chunkText w productText (Some 1500)).

(** An entry of the sync results is well formed: a success lists one
    chunk per chunk of the product text, numbered from 0, and a failure
    lists no chunk and carries a non-empty error text. *)
Definition sync_result_ok (productToText : CatalogSync.ShopifyProduct -> jsstring) (w : World)
    (r : CatalogSync.sync_result) : Prop :=
  let chunks := product_chunks w (productToText (CatalogSync.sr_product r)) in
  if CatalogSync.sr_success r
  then CatalogSync.sr_error r = None /\
       CatalogSync.sr_chunks r
       = imap (fun i c => CatalogSync.chunk_data (CatalogSync.sr_product r) c i (length chunks))
              chunks
  else CatalogSync.sr_chunks r = [] /\
       exists c m, CatalogSync.sr_error r = Some (c :: m).

(** The texts embedded so far are [ts], each requested once, and all of
    them are in [cache]. *)
Definition embedded_once (w0 : World) (ts : list jsstring) (cache : CatalogSync.cache)
    (w : World) : Prop :=
  requests w = requests w0 ++ (embed_query <$> ts) /\ NoDup ts /\
  forall t, t ∈ ts -> is_Some (cache !! t).

(** ** Two products with the same text, chunked into two chunks *)

Definition mug : CatalogSync.ShopifyProduct :=
  {| CatalogSync.product_id := lit "p1"; CatalogSync.product_title := lit "Mug";
     CatalogSync.product_description := lit "A mug"; CatalogSync.product_handle := lit "mug";
     CatalogSync.onlineStoreUrl := None; CatalogSync.variants := [];
     CatalogSync.images := [] |}.

Definition catalog_worker : World :=
  {| oracle := embedding_provider_oracle; requests := []; timers := []; clock := 0%Q;
     JSON_parse := fun _ => None; chunkText := fun t _ => [t; lit "details"];
     call_recordings := ∅; call_transcripts := []; call_classifications := [];
     rag_chunks := []; phone_call_mapping := []; whatsapp_messages := [] |}.

End MoreTerms.

(* ===================================================================== *)
(** * Terms and states of the statements on the catalog processor *)
(* ===================================================================== *)

Module ShopifyTerms.
Import CatalogText CatalogSync Shopify.

(** [c] keeps [I], whether it returns or throws. *)
Definition preserves {A} (I : State -> Prop) (c : Run A) : Prop :=
  forall s, I s -> I (snd (c s)).

(** The state after the queries [qs] were sent. *)
Definition asking (qs : list query) (s : State) : State := set_asked (fun l => l ++ qs) s.


Definition is_listing_query (q : query) : bool :=
  match q with
  | GetProducts _ _ _ _ | GetPages _ _ _ _ | GetCollections _ _ _ _ => true
  | _ => false
  end.

(** The number of listing requests sent so far. *)
Definition listings_asked (s : State) : nat := length (List.filter is_listing_query (asked s)).

Definition is_last_synced (q : query) : bool :=
  match q with
  | UpdateLastSynced _ _ => true
  | _ => false
  end.

(** The rows of the other stores. *)
Definition other_rows (storeId : jsstring) (t : list shopify_chunk) : list shopify_chunk :=
  List.filter (fun row => negb (str_eqb (ch_store_id row) storeId)) t.

(** A row that the processor of [storeId] may add: it belongs to the
    store and its text is not blank. *)
Definition own_row (storeId : jsstring) (row : shopify_chunk) : Prop :=
  ch_store_id row = storeId /\ (0 <? length (trim (ch_chunk_text row))) = true.

(** Since [s0] the chunks of [storeId] were cleared and only rows of the
    store were added; the answers of the collaborators are those of [s0]. *)
Definition rebuilt (storeId : jsstring) (s0 s : State) : Prop :=
  api s = api s0 /\
  exists added, shopify_chunks s = other_rows storeId (shopify_chunks s0) ++ added /\
                Forall (own_row storeId) added.

(** The Storefront API answers every listing request with a listing
    that has a node whenever it announces a next page. *)
Definition listings_progress (s : State) : Prop :=
  forall n q,
    match q return answer_of q -> Prop with
    | GetProducts _ _ _ _ | GetPages _ _ _ _ | GetCollections _ _ _ _ =>
      fun answer =>
        match answer with
        | ApiData l => hasNextPage l = true -> nodes l <> []
        | _ => True
        end
    | _ => fun _ => True
    end (api s n q).

(** The outcome [r] of a listing loop that started in [s] with the
    limit [max]: the loop ended, processed at most [max] items and sent at
    most [max] listing requests. *)
Definition within_limit (max : nat) (s : State) (r : outcome (option nat) * State) : Prop :=
  listings_asked (snd r) <= listings_asked s + max /\
  match fst r with
  | Ret None => False
  | Ret (Some total) => total <= max
  | Throw _ => True
  end.

(** Since [s] no [last_synced_at] was written. *)
Definition not_marked_synced (s s' : State) : Prop :=
  exists qs, asked s' = asked s ++ qs /\ List.filter is_last_synced qs = [].

(** ** States *)

Definition quiet_api (n : nat) (q : query) : answer_of q :=
  match q with
  | GetStoreInfo _ _ => ApiData (lit "Demo store")
  | GetProducts _ _ _ _ => ApiData {| nodes := []; hasNextPage := false; endCursor := None |}
  | GetPages _ _ _ _ => ApiData {| nodes := []; hasNextPage := false; endCursor := None |}
  | GetCollections _ _ _ _ => ApiData {| nodes := []; hasNextPage := false; endCursor := None |}
  | DeleteChunks _ => None
  | InsertChunk _ => None
  | SelectStore _ => PgOk None
  | UpdateLastSynced _ _ => tt
  end.

Definition start (a : nat -> forall q : query, answer_of q) (w : World)
    (table : list shopify_chunk) : State :=
  {| world := w; api := a; asked := []; shopify_chunks := table |}.

Definition about_page (i : nat) : ShopifyPage :=
  {| page_id := lit "page-" ++ Orchestrator.number_toString (N.of_nat i);
     page_title := lit "About"; page_handle := lit "about"; page_body := Some (lit "<p>Hi</p>") |}.

(** A store with five pages in one listing. *)
Definition five_pages_api (n : nat) (q : query) : answer_of q :=
  match q with
  | GetPages _ _ _ _ =>
    ApiData {| nodes := about_page <$> seq 0 5; hasNextPage := true;
               endCursor := Some (lit "c5") |}
  | q => quiet_api n q
  end.

Definition five_pages : State := start five_pages_api MoreTerms.catalog_worker [].

(** A Storefront API that announces a next page and lists nothing. *)
Definition stuck_api (n : nat) (q : query) : answer_of q :=
  match q with
  | GetPages _ _ _ _ => ApiData {| nodes := []; hasNextPage := true; endCursor := None |}
  | q => quiet_api n q
  end.

Definition stuck : State := start stuck_api MoreTerms.catalog_worker [].




End ShopifyTerms.

(* ===================================================================== *)
(** * Facts about the model *)
(* ===================================================================== *)

Module ModelFacts.
Import Terms.

(** Project the fields of a world built by the setters. *)
Ltac simpl_world :=
  cbn [oracle requests timers clock JSON_parse chunkText call_recordings call_transcripts
       call_classifications rag_chunks phone_call_mapping whatsapp_messages
       set_requests set_timers set_call_recordings set_call_transcripts
       set_call_classifications set_rag_chunks set_phone_call_mapping
       set_whatsapp_messages issue fst snd] in *.

Lemma remote_run (r : request) (w : World) :
  remote r w = (Ret (oracle w (length (requests w)) r), issue [r] w).
Proof. reflexivity. Qed.

Lemma issue_issue (a b : list request) (w : World) : issue b (issue a w) = issue (a ++ b) w.
Proof. unfold issue, set_requests; cbn. by rewrite <- (assoc_L (++)). Qed.

Lemma issue_nil (w : World) : issue [] w = w.
Proof. destruct w; unfold issue, set_requests; cbn. by rewrite (right_id_L [] (++)). Qed.

Lemma requests_issue (qs : list request) (w : World) : requests (issue qs w) = requests w ++ qs.
Proof. reflexivity. Qed.

Lemma oracle_issue (qs : list request) (w : World) : oracle (issue qs w) = oracle w.
Proof. reflexivity. Qed.

Lemma issued_issue (qs : list request) (w : World) : issued w (issue qs w) = qs.
Proof. unfold issued. rewrite requests_issue. by rewrite drop_app_length. Qed.


Lemma Qpositive_true (q : Q) : Qpositive q = true <-> (0 < q)%Q.
Proof.
  unfold Qpositive. rewrite Qlt_alt.
  destruct (0 ?= q)%Q; split; congruence.
Qed.

Lemma Qpositive_false (q : Q) : Qpositive q = false <-> (q <= 0)%Q.
Proof.
  split.
  - intros H. apply Qnot_lt_le. intros Hlt. apply Qpositive_true in Hlt. congruence.
  - intros H. destruct (Qpositive q) eqn:E; [|done].
    apply Qpositive_true in E. exfalso. eapply Qlt_not_le; eauto.
Qed.

(** ** [Array.prototype.sort] *)
Section SortFacts.

Context {A : Type} (cmp : A -> A -> Q) (R : relation A).
Hypothesis cmp_after : forall x y, Qpositive (cmp x y) = true -> R y x.
Hypothesis cmp_keep : forall x y, Qpositive (cmp x y) = false -> R x y.

Lemma sort_insert_perm (x : A) (l : list A) : sort_insert cmp x l ≡ₚ x :: l.
Proof.
  induction l as [|y l IH]; cbn; [done|].
  destruct (Qpositive (cmp x y)); [|done].
  rewrite IH. apply Permutation_swap.
Qed.

Lemma sort_perm (l : list A) : sort cmp l ≡ₚ l.
Proof.
  induction l as [|x l IH]; cbn; [done|].
  by rewrite sort_insert_perm, IH.
Qed.

Lemma sort_length (l : list A) : length (sort cmp l) = length l.
Proof. apply Permutation_length, sort_perm. Qed.

Lemma sort_insert_HdRel (a x : A) (l : list A) :
  R a x -> HdRel R a l -> HdRel R a (sort_insert cmp x l).
Proof.
  intros Hax Hl. destruct l as [|y l]; cbn; [by constructor|].
  inversion_clear Hl. destruct (Qpositive (cmp x y)); by constructor.
Qed.

Lemma sort_insert_sorted (x : A) (l : list A) : Sorted R l -> Sorted R (sort_insert cmp x l).
Proof.
  induction 1 as [|y l Hl IH Hhd]; cbn; [by repeat constructor|].
  destruct (Qpositive (cmp x y)) eqn:E.
  - constructor; [done|]. apply sort_insert_HdRel; auto.
  - repeat constructor; auto.
Qed.

Lemma sort_sorted (l : list A) : Sorted R (sort cmp l).
Proof.
  induction l as [|x l IH]; cbn; [constructor|].
  by apply sort_insert_sorted.
Qed.

End SortFacts.

Lemma HdRel_take {A} (R : relation A) (a : A) (n : nat) (l : list A) :
  HdRel R a l -> HdRel R a (take n l).
Proof. intros H. destruct H, n; cbn; by constructor. Qed.

Lemma Sorted_take {A} (R : relation A) (n : nat) (l : list A) :
  Sorted R l -> Sorted R (take n l).
Proof.
  intros H. revert n. induction H as [|x l Hl IH Hhd]; intros [|n]; cbn; try constructor.
  - apply IH.
  - by apply HdRel_take.
Qed.

End ModelFacts.

(* ===================================================================== *)
(** * Retrieval: fan-out, merge and ranking *)
(* ===================================================================== *)

Module RetrievalFacts.
Import Terms ModelFacts Retrieval.

Lemma by_similarity_desc_after (x y : chunk_row) :
  Qpositive (by_similarity_desc x y) = true -> ranked_before y x.
Proof.
  unfold by_similarity_desc, ranked_before. rewrite Qpositive_true.
  intros H. apply Qlt_le_weak. by apply Qlt_minus_iff.
Qed.

Lemma by_similarity_desc_keep (x y : chunk_row) :
  Qpositive (by_similarity_desc x y) = false -> ranked_before x y.
Proof.
  unfold by_similarity_desc, ranked_before. rewrite Qpositive_false.
  intros H. apply Qnot_lt_le. intros Hlt. apply Qlt_minus_iff in Hlt.
  eapply Qlt_not_le; eauto.
Qed.

Lemma ranked_sort (l : list chunk_row) : Sorted ranked_before (sort by_similarity_desc l).
Proof.
  apply sort_sorted; auto using by_similarity_desc_after, by_similarity_desc_keep.
Qed.

Lemma fetch_loop_ok (emb : vector) (limit : nat) g (fileIds : list jsstring) :
  forall (acc : list chunk_row) (w : World),
    (forall i f, fileIds !! i = Some f -> doc_ok w emb limit (length (requests w) + i) f) ->
    for_of fileIds (fetch_body emb limit g) acc w =
      (Ret (acc ++ concat (imap (fun i f =>
                g f (doc_rows w emb limit (length (requests w) + i) f)) fileIds)),
       issue (doc_query emb limit <$> fileIds) w).
Proof.
  induction fileIds as [|f fileIds IH]; intros acc w Hok; cbn.
  - by rewrite (right_id_L [] (++)), issue_nil.
  - destruct (Hok 0 f eq_refl) as [rows Hrows].
    rewrite Nat.add_0_r in Hrows.
    assert (Hhead : doc_rows w emb limit (length (requests w) + 0) f = rows).
    { unfold doc_rows. by rewrite Nat.add_0_r, Hrows. }
    unfold bind at 1. unfold fetch_body at 1, retrieveRelevantChunks, bind. rewrite remote_run.
    unfold doc_query in Hrows. rewrite Hrows. cbn [ret].
    rewrite IH.
    + rewrite issue_issue, requests_issue, length_app, Hhead. cbn [length].
      f_equal. f_equal. rewrite <- (assoc_L (++)). f_equal. f_equal. f_equal.
      apply imap_ext. intros i x _. cbn.
      unfold doc_rows. rewrite oracle_issue.
      by replace (length (requests w) + 1 + i) with (length (requests w) + S i) by lia.
    + intros i x Hx. unfold doc_ok. rewrite oracle_issue, requests_issue, length_app. cbn.
      replace (length (requests w) + 1 + i) with (length (requests w) + S i) by lia.
      by apply Hok.
Qed.

Lemma fetch_loop_prefix (emb : vector) (limit : nat) g (fileIds : list jsstring) :
  forall (acc : list chunk_row) (w : World),
    exists k, k <= length fileIds /\
      snd (for_of fileIds (fetch_body emb limit g) acc w)
      = issue (doc_query emb limit <$> take k fileIds) w.
Proof.
  induction fileIds as [|f fileIds IH]; intros acc w; cbn.
  - exists 0. by rewrite issue_nil.
  - unfold bind at 1. unfold fetch_body at 1, retrieveRelevantChunks, bind. rewrite remote_run.
    destruct (oracle w (length (requests w)) _) as [rows|e]; cbn [ret throw].
    + destruct (IH (acc ++ g f rows) (issue [RpcMatchDocuments emb limit (Some f) [lit "pdf"]] w))
        as (k & Hk & Hrun).
      exists (S k). split; [lia|]. rewrite Hrun, issue_issue. done.
    + exists 1. split; [lia|]. cbn. by rewrite take_0.
Qed.

Lemma length_concat_ge {A} (n : nat) (ls : list (list A)) :
  ls <> [] -> Forall (fun l => length l = n) ls -> n <= length (concat ls).
Proof.
  intros Hne Hall. destruct Hall as [|l ls Hl _]; [done|].
  cbn. rewrite length_app. lia.
Qed.

Lemma bind_ret_snd {A B} (c : Eff A) (h : A -> B) (w : World) :
  snd (bind c (fun x => ret (h x)) w) = snd (c w).
Proof. unfold bind. by destruct (c w) as [[a|e] w']. Qed.

Lemma bind_ret_run {A B} (c : Eff A) (h : A -> B) (w w' : World) (a : A) :
  c w = (Ret a, w') -> bind c (fun x => ret (h x)) w = (Ret (h a), w').
Proof. unfold bind. by intros ->. Qed.

Lemma fromFiles_run (emb : vector) (f1 f2 : jsstring) (rest : list jsstring) (limit : nat) :
  retrieveRelevantChunksFromFiles emb (f1 :: f2 :: rest) limit =
  bind (for_of (f1 :: f2 :: rest) (fetch_body emb limit (fun f c => with_file_id f <$> c)) [])
       (fun all => ret (take limit (sort by_similarity_desc all))).
Proof. reflexivity. Qed.

Lemma forPhone_documents_run (emb : vector) (f : jsstring) (rest : list jsstring)
    (limit : nat) (w : World) :
  retrieveRelevantChunksForPhone emb (f :: rest) [] limit w =
  bind (for_of (f :: rest) (fetch_body emb limit (fun _ c => c)) [])
       (fun all => ret (take limit (sort by_similarity_desc all))) w.
Proof.
  unfold retrieveRelevantChunksForPhone. cbn [length Nat.ltb Nat.leb].
  unfold bind at 1 2. unfold bind at 2.
  change (fun fileId allChunks =>
            bind (retrieveRelevantChunks emb (Some fileId) limit [lit "pdf"])
                 (fun chunks => ret (allChunks ++ chunks)))
    with (fetch_body emb limit (fun _ c => c)).
  by destruct (for_of _ _ _ w) as [[a|e] w'].
Qed.

(** What holds of a merged, re-sorted and truncated result. *)
Lemma ranked_merge (limit : nat) (groups : list (list chunk_row)) :
  let ms := take limit (sort by_similarity_desc (concat groups)) in
  Sorted ranked_before ms /\ length ms <= limit /\ ms ⊆ concat groups /\
  (groups <> [] -> Forall (fun g => length g = limit) groups -> length ms = limit).
Proof.
  cbn. repeat split.
  - apply Sorted_take, ranked_sort.
  - rewrite length_take. lia.
  - intros x Hx. apply elem_of_take in Hx as (i & Hx & _).
    apply list_elem_of_lookup_2 in Hx. by rewrite sort_perm in Hx.
  - intros Hne Hall. rewrite length_take, sort_length.
    pose proof (length_concat_ge limit groups Hne Hall). lia.
Qed.

(** C1. Retrieval over two or more documents sends one similarity query
    per document ID, each with [match_count = limit], in order, and stops
    at the first query the store refuses; when no query is refused, the
    per-document rows are concatenated, re-sorted by descending similarity
    and truncated to [limit], so at most [limit] matches come back in
    non-increasing similarity, and exactly [limit] when every document
    yields [limit] rows.  Both [retrieveRelevantChunksFromFiles] and
    [retrieveRelevantChunksForPhone] (without calls) do so. *)
Theorem document_fan_out_merge (emb : vector) (fileIds : list jsstring) (limit : nat)
    (w : World) :
  2 <= length fileIds ->
  let n0 := length (requests w) in
  let rows_of i f := doc_rows w emb limit (n0 + i) f in
  let fromFiles := retrieveRelevantChunksFromFiles emb fileIds limit w in
  let forPhone := retrieveRelevantChunksForPhone emb fileIds [] limit w in
  let tagged := imap (fun i f => with_file_id f <$> rows_of i f) fileIds in
  let plain := imap rows_of fileIds in
  (exists k, k <= length fileIds /\
     issued w (snd fromFiles) = doc_query emb limit <$> take k fileIds) /\
  (exists k, k <= length fileIds /\
     issued w (snd forPhone) = doc_query emb limit <$> take k fileIds) /\
  ((forall i f, fileIds !! i = Some f -> doc_ok w emb limit (n0 + i) f) ->
   issued w (snd fromFiles) = doc_query emb limit <$> fileIds /\
   issued w (snd forPhone) = doc_query emb limit <$> fileIds /\
   exists ms ms',
     fst fromFiles = Ret ms /\ fst forPhone = Ret ms' /\
     ms = take limit (sort by_similarity_desc (concat tagged)) /\
     ms' = take limit (sort by_similarity_desc (concat plain)) /\
     Sorted ranked_before ms /\ Sorted ranked_before ms' /\
     length ms <= limit /\ length ms' <= limit /\
     ((forall i f, fileIds !! i = Some f -> length (rows_of i f) = limit) ->
      length ms = limit /\ length ms' = limit)).
Proof.
  intros Hlen n0 rows_of fromFiles forPhone tagged plain.
  destruct fileIds as [|f1 [|f2 rest]]; cbn in Hlen; try lia.
  subst fromFiles forPhone. rewrite fromFiles_run, forPhone_documents_run.
  set (fileIds := f1 :: f2 :: rest) in *.
  split; [|split].
  - rewrite bind_ret_snd.
    destruct (fetch_loop_prefix emb limit (fun f c => with_file_id f <$> c) fileIds [] w)
      as (k & Hk & ->).
    exists k. by rewrite issued_issue.
  - rewrite bind_ret_snd.
    destruct (fetch_loop_prefix emb limit (fun _ c => c) fileIds [] w) as (k & Hk & ->).
    exists k. by rewrite issued_issue.
  - intros Hok.
    rewrite (bind_ret_run _ _ _ _ _ (fetch_loop_ok emb limit _ fileIds [] w Hok)).
    rewrite (bind_ret_run _ _ _ _ _ (fetch_loop_ok emb limit _ fileIds [] w Hok)).
    cbn [fst snd]. rewrite issued_issue.
    split; [done|]. split; [done|].
    change (concat (imap _ fileIds)) with (concat tagged) at 1.
    change (concat (imap _ fileIds)) with (concat plain).
    destruct (ranked_merge limit tagged) as (Hs & Hl & _ & Hfull).
    destruct (ranked_merge limit plain) as (Hs' & Hl' & _ & Hfull').
    eexists _, _. repeat split; try done.
    + apply Hfull; [done|]. subst tagged. apply Forall_lookup. intros i g Hg.
      rewrite list_lookup_imap in Hg. destruct (fileIds !! i) as [f|] eqn:Hf; [|done].
      cbn in Hg. injection Hg as <-. rewrite length_fmap. eauto.
    + apply Hfull'; [done|]. subst plain. apply Forall_lookup. intros i g Hg.
      rewrite list_lookup_imap in Hg. destruct (fileIds !! i) as [f|] eqn:Hf; [|done].
      cbn in Hg. injection Hg as <-. eauto.
Qed.

(** The merge over [Scenarios.two_documents]: the two best rows of the
    four, the better first. *)
Lemma document_fan_out_merge_witness :
  2 <= length [lit "doc-a"; lit "doc-b"] /\
  exists ms,
    fst (retrieveRelevantChunksFromFiles [] [lit "doc-a"; lit "doc-b"] 2
           Scenarios.two_documents) = Ret ms /\
    length ms = 2 /\ Sorted ranked_before ms.
Proof.
  assert (Hlen : 2 <= length [lit "doc-a"; lit "doc-b"]) by (cbn; lia).
  split; [exact Hlen|].
  destruct (document_fan_out_merge [] [lit "doc-a"; lit "doc-b"] 2
              Scenarios.two_documents Hlen) as (_ & _ & H).
  destruct H as (_ & _ & ms & ms' & Hms & _ & _ & _ & Hs & _ & _ & _ & Hfull).
  - intros [|[|i]] f Hf; cbn in Hf; try done; injection Hf as <-; eexists; reflexivity.
  - exists ms. split; [exact Hms|]. split; [|exact Hs].
    apply Hfull. intros [|[|i]] f Hf; cbn in Hf; try done; by injection Hf as <-.
Defined.


End RetrievalFacts.

(* ===================================================================== *)
(** * Embedding: retries and backoff *)
(* ===================================================================== *)

Module EmbeddingFacts.
Import Terms ModelFacts Embedding.

Lemma embed_attempts_step (M r a : nat) (text : jsstring) cache last (w : World) :
  embed_attempts M (S r) a text cache last w =
  match oracle w (length (requests w)) (embed_query text) with
  | EmbedReturns v => (Ret (v, <[text := v]> cache), issue [embed_query text] w)
  | EmbedThrows e =>
    if isRateLimit e && (a <? M - 1)
    then embed_attempts M r (S a) text cache (Some e)
           (wait (baseWait a + oracle w (length (requests w) + 1) MathRandom * 1000)
                 (issue [embed_query text; MathRandom] w))
    else (Throw e, issue [embed_query text] w)
  end.
Proof.
  cbn [embed_attempts]. unfold try_catch, bind at 1. unfold embedText, bind at 1.
  rewrite remote_run. unfold embed_query.
  destruct (oracle w (length (requests w)) (EmbedText text (Some 0))) as [v|e]; [done|].
  cbn [throw]. destruct (isRateLimit e && (a <? M - 1)); [|done].
  unfold bind. rewrite remote_run. cbn [sleep].
  rewrite issue_issue, requests_issue, length_app. done.
Qed.











(** On [Scenarios.rejecting_provider] the 400 of the first call is
    thrown after that one call, with no wait. *)
Example rejected_text_is_not_retried :
  let run := embedTextWithRateLimit (lit "hello") ∅ Scenarios.rejecting_provider in
  fst run = Throw Scenarios.bad_request /\
  requests (snd run) = [embed_query (lit "hello")] /\
  timers (snd run) = [].
Proof. cbv zeta. repeat split; by vm_compute. Qed.

End EmbeddingFacts.

(* ===================================================================== *)
(** * Source mapping directory: retries and lookup results *)
(* ===================================================================== *)

Module PhoneMappingFacts.
Import Terms ModelFacts PhoneMapping.

(** The lookup never throws: a reply of either kind becomes a value. *)
Lemma retry_attempts_returns {D} (queryFn : Eff (pg_reply D)) (M : nat) :
  (forall w, exists reply, fst (queryFn w) = Ret reply) ->
  forall k a w, exists reply, fst (retry_attempts queryFn M k a w) = Ret reply.
Proof.
  intros Hq. induction k as [|k IH]; intros a w; cbn [retry_attempts]; [apply Hq|].
  unfold bind at 1. destruct (Hq w) as [reply Hreply].
  destruct (queryFn w) as [o w1]. cbn in Hreply. subst o.
  destruct reply as [d|e]; [by eexists|].
  unfold bind. destruct (a <? M); cbn; apply IH.
Qed.

Lemma data_source_run (phoneNumber : jsstring) (w : World) :
  getDataSourceForPhone phoneNumber w =
  match retrySupabaseQuery (remote (SelectDataSource phoneNumber)) 3 w with
  | (Ret (PgOk data_source), w') =>
    (Ret (if str_truthy data_source then data_source else Some (lit "file")), w')
  | (Ret (PgFail _), w') => (Ret None, w')
  | (Throw e, w') => (Throw e, w')
  end.
Proof.
  unfold getDataSourceForPhone, bind.
  destruct (retrySupabaseQuery _ 3 w) as [[[d|e]|e] w']; try done.
  by destruct (is_PGRST116 e).
Qed.

Lemma shopify_store_run (phoneNumber : jsstring) (w : World) :
  getShopifyStoreForPhoneNumber phoneNumber w =
  match retrySupabaseQuery (remote (SelectShopifyStoreId phoneNumber)) 3 w with
  | (Ret (PgOk store), w') => (Ret (if str_truthy store then store else None), w')
  | (Ret (PgFail _), w') => (Ret None, w')
  | (Throw e, w') => (Throw e, w')
  end.
Proof.
  unfold getShopifyStoreForPhoneNumber, bind.
  destruct (retrySupabaseQuery _ 3 w) as [[[d|e]|e] w']; try done.
  by destruct (is_PGRST116 e).
Qed.

(** C6. With the store down, a data-source lookup sends the query four
    times: three times in the retry loop, with waits of 1 s and 2 s in
    between, and once more in the [return await queryFn()] that follows
    the loop.  The fourth query follows the third with no wait. *)
Theorem retry_sends_a_fourth_query :
  let q := SelectDataSource Scenarios.business_number in
  let run := getDataSourceForPhone Scenarios.business_number Scenarios.store_down in
  requests (snd run) = [q; q; q; q] /\
  timers (snd run) = [1000%Q; 2000%Q] /\
  fst run = Ret None.
Proof. by vm_compute. Qed.

(** A refused attempt: wait when another attempt of the loop follows, and
    go on. *)
Lemma retry_step_fail (phoneNumber : jsstring) (M k a : nat) (w : World) (e : js_error) :
  oracle w (length (requests w)) (SelectDataSource phoneNumber) = PgFail e ->
  retry_attempts (remote (SelectDataSource phoneNumber)) M (S k) a w =
  retry_attempts (remote (SelectDataSource phoneNumber)) M k (S a)
    (if a <? M
     then snd (sleep (inject_Z (Z.of_nat a * 1000)) (issue [SelectDataSource phoneNumber] w))
     else issue [SelectDataSource phoneNumber] w).
Proof.
  intros He. cbn [retry_attempts]. unfold bind at 1. rewrite remote_run, He.
  unfold bind. by destruct (a <? M).
Qed.

Ltac retry_fail Hdown :=
  match goal with
  | |- context [retry_attempts _ _ (S _) _ ?w0] =>
    let e := fresh "e" in
    let H := fresh "H" in
    destruct (Hdown (length (requests w0))) as [e H];
    rewrite (retry_step_fail _ _ _ _ w0 e H); cbn [Nat.ltb Nat.leb]; clear H
  end.

(** The same count in every world where the store refuses the query each
    time. *)
Lemma data_source_lookup_when_down (phoneNumber : jsstring) (w : World) :
  (forall n, exists e, oracle w n (SelectDataSource phoneNumber) = PgFail e) ->
  issued w (snd (getDataSourceForPhone phoneNumber w))
    = replicate 4 (SelectDataSource phoneNumber) /\
  timers (snd (getDataSourceForPhone phoneNumber w)) = timers w ++ [1000%Q; 2000%Q] /\
  fst (getDataSourceForPhone phoneNumber w) = Ret None.
Proof.
  intros Hdown. rewrite data_source_run. unfold retrySupabaseQuery.
  do 3 retry_fail Hdown.
  cbn [retry_attempts]. rewrite remote_run.
  match goal with
  | |- context [oracle ?w0 ?n ?r] => destruct (Hdown n) as [e2 Hlast]
  end.
  unfold sleep in *. simpl_world. rewrite Hlast. simpl_world.
  split; [|split; [|done]].
  - unfold issued. simpl_world. rewrite <- !(assoc_L (++)). by rewrite drop_app_length.
  - by rewrite <- !(assoc_L (++)).
Qed.

(** C7, as stated, fails: for an unmapped number (the store answers "no
    rows", PGRST116) and for a store that is down (every attempt refused)
    both lookups return the same [null], so the caller cannot tell "no
    mapping configured" from "mapping lookup failed". *)
Lemma lookup_failure_returns_none_too :
  ~ (fst (getDataSourceForPhone Scenarios.business_number Scenarios.unmapped)
     <> fst (getDataSourceForPhone Scenarios.business_number Scenarios.store_down))
  /\
  ~ (fst (getShopifyStoreForPhoneNumber Scenarios.business_number Scenarios.unmapped)
     <> fst (getShopifyStoreForPhoneNumber Scenarios.business_number Scenarios.store_down))
  /\
  fst (getDataSourceForPhone Scenarios.business_number Scenarios.store_down) = Ret None.
Proof. split; [|split]; [intros H; apply H; by vm_compute ..|by vm_compute]. Qed.

(** C7, amended. A lookup returns [null] both when the store answers "no
    rows" and when the query still fails after the retries, whatever the
    error; it never throws, so the result carries no failure to tell the
    two apart. *)
Theorem lookup_errors_become_none (phoneNumber : jsstring) (w w' : World) (e : js_error) :
  (retrySupabaseQuery (remote (SelectDataSource phoneNumber)) 3 w = (Ret (PgFail e), w') ->
   getDataSourceForPhone phoneNumber w = (Ret None, w')) /\
  (retrySupabaseQuery (remote (SelectShopifyStoreId phoneNumber)) 3 w = (Ret (PgFail e), w') ->
   getShopifyStoreForPhoneNumber phoneNumber w = (Ret None, w')) /\
  (exists v, fst (getDataSourceForPhone phoneNumber w) = Ret v) /\
  (exists v, fst (getShopifyStoreForPhoneNumber phoneNumber w) = Ret v).
Proof.
  split; [|split; [|split]].
  - intros H. by rewrite data_source_run, H.
  - intros H. by rewrite shopify_store_run, H.
  - rewrite data_source_run. unfold retrySupabaseQuery.
    destruct (retry_attempts_returns (remote (SelectDataSource phoneNumber)) 3
                (fun w0 => ex_intro _ _ eq_refl) 3 1 w) as [reply Hreply].
    destruct (retry_attempts _ 3 3 1 w) as [o w1]. cbn in Hreply. subst o.
    destruct reply; by eexists.
  - rewrite shopify_store_run. unfold retrySupabaseQuery.
    destruct (retry_attempts_returns (remote (SelectShopifyStoreId phoneNumber)) 3
                (fun w0 => ex_intro _ _ eq_refl) 3 1 w) as [reply Hreply].
    destruct (retry_attempts _ 3 3 1 w) as [o w1]. cbn in Hreply. subst o.
    destruct reply; by eexists.
Qed.

(** With the store down and with no row, the data source is [null]. *)
Lemma lookup_errors_become_none_witness :
  getDataSourceForPhone Scenarios.business_number Scenarios.store_down
    = (Ret None,
       snd (retrySupabaseQuery (remote (SelectDataSource Scenarios.business_number)) 3
              Scenarios.store_down)) /\
  getShopifyStoreForPhoneNumber Scenarios.business_number Scenarios.unmapped
    = (Ret None,
       snd (retrySupabaseQuery (remote (SelectShopifyStoreId Scenarios.business_number)) 3
              Scenarios.unmapped)).
Proof.
  split.
  - apply (lookup_errors_become_none Scenarios.business_number Scenarios.store_down
             _ Scenarios.connection_lost). by vm_compute.
  - apply (lookup_errors_become_none Scenarios.business_number Scenarios.unmapped
             _ Scenarios.no_rows). by vm_compute.
Defined.

End PhoneMappingFacts.

(* ===================================================================== *)
(** * Response orchestrator: data source and conversation history *)
(* ===================================================================== *)

Module OrchestratorFacts.
Import Terms ModelFacts PhoneMapping Orchestrator.

(** What [load_history] reads: the first 20 rows in ascending order. *)
Lemma load_history_run (fromNumber : jsstring) (w : World) :
  oracle w (length (requests w)) (SelectHistory fromNumber) = None ->
  load_history fromNumber w =
  (Ret (to_chat_message <$>
          List.filter is_chat_turn (select_history fromNumber (whatsapp_messages w))),
   issue [SelectHistory fromNumber] w).
Proof. intros H. unfold load_history, bind. by rewrite remote_run, H. Qed.

(** C8. In a conversation of 21 messages the history query, ascending
    with [limit(20)], loads messages 1 to 20, the oldest, and the prompt
    keeps turns 11 to 20; the most recent message, 21, is never loaded.
    The 20 most recent messages are 2 to 21, and their last 10 turns are
    12 to 21.  A whole run of [generateAutoResponse] sends the generation
    call with turns 11 to 20 between the system prompt and the question. *)
Theorem history_loads_the_oldest_messages :
  let w := Scenarios.long_conversation in
  let answered :=
    generateAutoResponse [] [] Scenarios.counterpart Scenarios.business_number
      (lit "question") (lit "m22") Scenarios.support_line in
  fst (load_history Scenarios.counterpart w) = Ret (Scenarios.turn <$> seq 1 20) /\
  prompt_context Scenarios.counterpart w = Ret (Scenarios.turn <$> seq 11 10) /\
  stated_context Scenarios.counterpart (whatsapp_messages w) = Scenarios.turn <$> seq 12 10 /\
  prompt_context Scenarios.counterpart w
    <> Ret (stated_context Scenarios.counterpart (whatsapp_messages w)) /\
  fst answered
    = Ret {| success := true; response := Some (lit "Hello!"); error := None;
             noDocuments := None; sent := Some true |} /\
  drop 1 <$> Scenarios.chats_sent (requests (snd answered))
    = [(Scenarios.turn <$> seq 11 10) ++ [{| msg_role := user; msg_content := lit "question" |}]].
Proof.
  cbv zeta. repeat split; by vm_compute.
Qed.



(** The responder guards the catalog path: without a mapped store it
    returns before any similarity query. *)
Lemma no_store_no_similarity_query (toNumber : jsstring) (queryEmbedding : vector)
    (store : option jsstring) (w w' : World) :
  getShopifyStoreForPhoneNumber toNumber w = (Ret store, w') ->
  str_truthy store = false ->
  retrieve_matches (lit "shopify") toNumber queryEmbedding w
  = (Ret (inl (failure (Some true) (lit "No Shopify store mapped to this business number"))),
     w').
Proof.
  intros Hstore Hnone. unfold retrieve_matches.
  change (str_eqb (lit "shopify") (lit "shopify")) with true. cbv iota.
  unfold bind. rewrite Hstore. by destruct store as [[|c s]|].
Qed.

End OrchestratorFacts.

(* ===================================================================== *)
(** * Call ingestion: classification fallback, terminal states, failure *)
(* ===================================================================== *)

Module IngestionFacts.
Import Terms ModelFacts Ingestion.

Lemma bind_run {A B} (c : Eff A) (k : A -> Eff B) (w w' : World) (a : A) :
  c w = (Ret a, w') -> bind c k w = k a w'.
Proof. unfold bind. by intros ->. Qed.

Lemma bind_throw {A B} (c : Eff A) (k : A -> Eff B) (w w' : World) (e : js_error) :
  c w = (Throw e, w') -> bind c k w = (Throw e, w').
Proof. unfold bind. by intros ->. Qed.

Lemma update_recording_run (callId : jsstring) (patch : recording_patch) (w : World) :
  update_recording callId patch w = (Ret tt, updated callId patch w).
Proof. reflexivity. Qed.

Lemma transcribeAudio_ok (audio : list N) (fileName text : jsstring) (w : World) :
  oracle w (length (requests w)) (Transcribe audio fileName) = TranscribeText text ->
  transcribeAudio audio fileName w = (Ret text, issue [Transcribe audio fileName] w).
Proof. intros H. unfold transcribeAudio, try_catch, bind. by rewrite remote_run, H. Qed.

Lemma transcribeAudio_fail (audio : list N) (fileName : jsstring) (e : js_error) (w : World) :
  oracle w (length (requests w)) (Transcribe audio fileName) = TranscribeThrows e ->
  transcribeAudio audio fileName w
  = (Throw (new_Error (lit "Failed to transcribe audio")), issue [Transcribe audio fileName] w).
Proof. intros H. unfold transcribeAudio, try_catch, bind. by rewrite remote_run, H. Qed.

Lemma classify_fallback (prompt : jsstring -> jsstring) (transcript : jsstring) (w : World) :
  classifier_fails w (oracle w (length (requests w)) (classify_query prompt transcript)) ->
  classifyTranscript prompt transcript w
  = (Ret (fallback_classification transcript), issue [classify_query prompt transcript] w).
Proof.
  intros H. unfold classifyTranscript, try_catch, bind. rewrite remote_run.
  unfold classify_query in H.
  destruct (oracle w _ _) as [[|[[|c content]|] rest]|e]; cbn in H |- *; try done.
  by rewrite H.
Qed.


Lemma chunked_status (c : classification) :
  str_eqb (worker_final_status c) (lit "11za_related") = chunked c /\
  str_eqb (upload_final_status c) (lit "11za_related") = chunked c.
Proof.
  unfold worker_final_status, upload_final_status, chunked.
  by destruct (truthy (isBlank c)), (truthy (isSpam c)), (truthy (is11zaRelated c)).
Qed.

(** Without chunking the worker only writes the final status. *)
Lemma worker_finish_direct (callId : jsstring) (callRecord : call_recording)
    (transcript : jsstring) (c : classification) (w : World) :
  chunked c = false ->
  worker_finish callId callRecord transcript c w
  = (Ret tt, updated callId (final_patch (worker_final_status c) (clock w)) w).
Proof.
  intros H. unfold worker_finish. destruct (chunked_status c) as [-> _]. by rewrite H.
Qed.



Lemma save_transcript_run (callId transcript : jsstring) (w : World) :
  exists w',
    save_transcript callId transcript w
    = (Ret (oracle w (length (requests w))
              (InsertTranscript {| t_call_id := callId; t_transcript := transcript;
                                   t_transcript_length := length transcript |})), w') /\
    oracle w' = oracle w /\ JSON_parse w' = JSON_parse w /\ clock w' = clock w /\
    call_recordings w' = call_recordings w /\ rag_chunks w' = rag_chunks w.
Proof.
  unfold save_transcript, bind. rewrite remote_run.
  destruct (oracle w _ _); by eexists.
Qed.

Lemma save_classification_run (callId : jsstring) (c : classification) (w : World) :
  exists w',
    save_classification callId c w
    = (Ret (oracle w (length (requests w))
              (InsertClassification {| c_call_id := callId; c_classification := c |})), w') /\
    oracle w' = oracle w /\ JSON_parse w' = JSON_parse w /\ clock w' = clock w /\
    call_recordings w' = call_recordings w /\ rag_chunks w' = rag_chunks w.
Proof.
  unfold save_classification, bind. rewrite remote_run.
  destruct (oracle w _ _); by eexists.
Qed.

(** The run of the worker up to the classification, for a recording that
    is found, downloaded and transcribed: what is left is [worker_finish]
    in a world with the same oracle, parser, clock and chunk table, whose
    recording has status ['classifying']. *)
Lemma processCall_classified (prompt : jsstring -> jsstring) (callId : jsstring)
    (callRecord : call_recording) (audio : list N) (transcript : jsstring) (w : World) :
  call_recordings w !! callId = Some callRecord ->
  (forall n, oracle w n (SelectCallRecord callId) = None) ->
  (forall n, oracle w n (StorageDownload (storage_path callRecord)) = PgOk (Some audio)) ->
  (forall n, oracle w n (Transcribe audio (file_name callRecord)) = TranscribeText transcript) ->
  (forall n, classifier_fails w (oracle w n (classify_query prompt transcript))) ->
  exists w1,
    oracle w1 = oracle w /\ clock w1 = clock w /\ rag_chunks w1 = rag_chunks w /\
    (exists r, call_recordings w1 !! callId = Some r) /\
    processCall prompt callId w
    = try_catch
        (worker_finish callId callRecord transcript (fallback_classification transcript))
        (fun error =>
           let! t := now in
           update_recording callId (failed_patch error t)) w1.
Proof.
  intros Hrec Hfetch Hdl Htr Hcls.
  unfold processCall, try_catch at 1.
  erewrite bind_run by apply remote_run. rewrite Hfetch.
  unfold bind at 1. simpl_world. rewrite Hrec.
  erewrite bind_run by apply update_recording_run.
  erewrite bind_run by apply remote_run. unfold updated at 1. simpl_world. rewrite Hdl.
  erewrite bind_run by (apply transcribeAudio_ok; unfold updated; simpl_world; apply Htr).
  erewrite bind_run by apply update_recording_run.
  erewrite bind_run by (apply classify_fallback; unfold classifier_fails, updated in *;
                        simpl_world; apply Hcls).
  match goal with
  | |- context [bind (save_transcript callId transcript) _ ?w0] =>
    destruct (save_transcript_run callId transcript w0) as (w2 & Hrun2 & Ho2 & Hp2 & Hc2 & Hr2 & Hg2)
  end.
  erewrite bind_run by exact Hrun2.
  match goal with
  | |- context [bind (save_classification callId ?c) _ w2] =>
    destruct (save_classification_run callId c w2) as (w3 & Hrun3 & Ho3 & Hp3 & Hc3 & Hr3 & Hg3)
  end.
  erewrite bind_run by exact Hrun3.
  exists w3. unfold updated in *. simpl_world.
  rewrite Ho3, Ho2, Hc3, Hc2, Hg3, Hg2, Hr3, Hr2. simpl_world.
  repeat split; try done.
  rewrite !lookup_alter_eq, Hrec. by eexists.
Qed.

(** C3. When the classifier call fails, [classifyTranscript] returns
    [isBlank = (trimmed length < 50)], [isSpam = false],
    [is11zaRelated = false] and the three confidences 0.5.  A transcript
    whose trimmed length is below 50, the empty one in particular, is
    therefore classified blank, and the worker leaves its recording in
    status ['blank']. *)
Theorem classifier_fallback (prompt : jsstring -> jsstring) (transcript : jsstring) (w : World) :
  (forall n, classifier_fails w (oracle w n (classify_query prompt transcript))) ->
  classifyTranscript prompt transcript w
  = (Ret {| isBlank := JBool (length (trim transcript) <? 50);
            isSpam := JBool false;
            is11zaRelated := JBool false;
            blankConfidence := JNum (1 # 2);
            spamConfidence := JNum (1 # 2);
            relevanceConfidence := JNum (1 # 2) |},
     issue [classify_query prompt transcript] w) /\
  (transcript = [] -> isBlank (fallback_classification transcript) = JBool true) /\
  ((length (trim transcript) <? 50) = true ->
   worker_final_status (fallback_classification transcript) = lit "blank" /\
   forall callId callRecord audio,
     call_recordings w !! callId = Some callRecord ->
     (forall n, oracle w n (SelectCallRecord callId) = None) ->
     (forall n, oracle w n (StorageDownload (storage_path callRecord)) = PgOk (Some audio)) ->
     (forall n, oracle w n (Transcribe audio (file_name callRecord)) = TranscribeText transcript) ->
     status <$> call_recordings (snd (processCall prompt callId w)) !! callId
     = Some (lit "blank")).
Proof.
  intros Hcls. split; [|split].
  - by apply classify_fallback.
  - by intros ->.
  - intros Hshort.
    assert (Hblank : worker_final_status (fallback_classification transcript) = lit "blank").
    { unfold worker_final_status, fallback_classification. cbn [isBlank truthy].
      by rewrite Hshort. }
    split; [exact Hblank|].
    intros callId callRecord audio Hrec Hfetch Hdl Htr.
    destruct (processCall_classified prompt callId callRecord audio transcript w
                Hrec Hfetch Hdl Htr Hcls) as (w1 & _ & _ & _ & [r Hr] & ->).
    unfold try_catch. rewrite worker_finish_direct.
    + rewrite Hblank. unfold updated. simpl_world. by rewrite lookup_alter_eq, Hr.
    + unfold chunked, fallback_classification. cbn [isBlank truthy]. by rewrite Hshort.
Qed.

(** On [Scenarios.silence_worker] (empty transcript, classifier down)
    the recording ends in status ['blank']. *)
Lemma classifier_fallback_witness :
  (forall n, classifier_fails Scenarios.silence_worker
               (oracle Scenarios.silence_worker n (classify_query (fun t => t) []))) /\
  status <$> call_recordings
               (snd (processCall (fun t => t) Scenarios.new_call Scenarios.silence_worker))
             !! Scenarios.new_call
  = Some (lit "blank").
Proof.
  assert (Hcls : forall n, classifier_fails Scenarios.silence_worker
                   (oracle Scenarios.silence_worker n (classify_query (fun t => t) [])))
    by (intros n; exact I).
  split; [exact Hcls|].
  destruct (classifier_fallback (fun t => t) [] Scenarios.silence_worker Hcls) as (_ & _ & H).
  destruct (H eq_refl) as [_ Hstatus].
  apply (Hstatus Scenarios.new_call Scenarios.stored_recording [1%N; 2%N; 3%N]);
    [by vm_compute | done | done | done].
Defined.

(** In the worker a failed transcription ends the recording in status
    ['failed'] with the reason recorded, and adds no chunk. *)
Lemma worker_transcription_failure (prompt : jsstring -> jsstring) (callId : jsstring)
    (callRecord : call_recording) (audio : list N) (w : World) :
  call_recordings w !! callId = Some callRecord ->
  (forall n, oracle w n (SelectCallRecord callId) = None) ->
  (forall n, oracle w n (StorageDownload (storage_path callRecord)) = PgOk (Some audio)) ->
  (forall n, exists e, oracle w n (Transcribe audio (file_name callRecord)) = TranscribeThrows e) ->
  let w' := snd (processCall prompt callId w) in
  status <$> call_recordings w' !! callId = Some (lit "failed") /\
  error_reason <$> call_recordings w' !! callId = Some (Some (lit "Failed to transcribe audio")) /\
  rag_chunks w' = rag_chunks w.
Proof.
  intros Hrec Hfetch Hdl Htr. cbv zeta.
  assert (Hrun :
    snd (processCall prompt callId w)
    = updated callId
        (failed_patch (new_Error (lit "Failed to transcribe audio")) (clock w))
        (issue [Transcribe audio (file_name callRecord)]
           (issue [StorageDownload (storage_path callRecord)]
              (updated callId (status_patch (lit "transcribing"))
                 (issue [SelectCallRecord callId] w))))).
  { unfold processCall, try_catch at 1.
    erewrite bind_run by apply remote_run. rewrite Hfetch.
    unfold bind at 1. simpl_world. rewrite Hrec.
    erewrite bind_run by apply update_recording_run.
    erewrite bind_run by apply remote_run. unfold updated at 1. simpl_world. rewrite Hdl.
    match goal with
    | |- context [bind (transcribeAudio audio ?f) _ ?w0] =>
      destruct (Htr (length (requests w0))) as [e He];
      erewrite (bind_throw (transcribeAudio audio f) _ w0)
        by (apply (transcribeAudio_fail audio f e); unfold updated; simpl_world; exact He)
    end.
    reflexivity. }
  rewrite Hrun. unfold updated. simpl_world.
  rewrite !lookup_alter_eq, Hrec. done.
Qed.

(** The upload endpoint on a failed transcription, in every world: the
    [catch] writes the status alone, so the reason of the new recording
    stays [null]. *)
Lemma upload_transcription_failure (prompt : jsstring -> jsstring) (form : form_data)
    (file : upload) (p : N) (phone : jsstring) (c : N) (callId : jsstring) (w : World) :
  form_file form = Some file ->
  form_phone_number form = Some (p :: phone) ->
  up_type file ∈ allowedTypes ->
  (forall n, oracle w n CheckCallRecordingsTable = None) ->
  (forall n row, oracle w n (InsertCallRecording row) = PgOk (c :: callId)) ->
  (forall n, exists e,
     oracle w n (Transcribe (up_bytes file) (up_name file)) = TranscribeThrows e) ->
  let w' := snd (POST prompt form w) in
  status <$> call_recordings w' !! (c :: callId) = Some (lit "failed") /\
  error_reason <$> call_recordings w' !! (c :: callId) = Some None /\
  rag_chunks w' = rag_chunks w /\
  fst (POST prompt form w)
  = Ret {| http_status := 500; body := ErrorBody (Some (lit "Failed to transcribe audio")) |}.
Proof.
  intros Hfile Hphone Htype Hcheck Hinsert Htr. cbv zeta.
  set (row := {| file_name := up_name file; file_size := Some (up_size file);
                 mime_type := Some (up_type file); storage_path := None;
                 phone_number := Some (p :: phone); status := lit "uploaded";
                 error_reason := None; chunk_count := None; processed_at := None |}).
  assert (Hrun :
    POST prompt form w
    = (Ret {| http_status := 500;
              body := ErrorBody (Some (lit "Failed to transcribe audio")) |},
       updated (c :: callId) (status_patch (lit "failed"))
         (issue [Transcribe (up_bytes file) (up_name file)]
            (set_call_recordings (insert (c :: callId) row)
               (issue [InsertCallRecording row] (issue [CheckCallRecordingsTable] w)))))).
  { unfold POST, try_catch at 1.
    erewrite bind_run by apply remote_run. rewrite Hcheck.
    erewrite bind_run by reflexivity. cbv iota.
    rewrite Hfile, Hphone. rewrite bool_decide_true by done. cbn [negb].
    erewrite bind_run by apply remote_run. simpl_world. rewrite Hinsert.
    erewrite bind_run by reflexivity.
    unfold try_catch at 1. unfold upload_pipeline.
    match goal with
    | |- context [bind (transcribeAudio ?a ?f) _ ?w0] =>
      destruct (Htr (length (requests w0))) as [e He];
      erewrite (bind_throw (transcribeAudio a f) _ w0)
        by (apply (transcribeAudio_fail a f e); simpl_world; exact He)
    end.
    reflexivity. }
  rewrite Hrun. unfold updated. simpl_world.
  rewrite !lookup_alter_eq, lookup_insert_eq. done.
Qed.

(** C4. When the transcription fails, the upload endpoint leaves the
    recording in status ['failed'] with no error reason: its [catch]
    writes only the status, and the reason goes to the HTTP answer.  The
    worker, on the same failure, records the reason.  Neither writes a
    chunk. *)
Theorem upload_failure_records_no_reason :
  let uploaded := POST (fun t => t) Scenarios.call_upload Scenarios.failing_transcription in
  let worked :=
    processCall (fun t => t) Scenarios.new_call Scenarios.failing_transcription_worker in
  Scenarios.recorded (snd uploaded) Scenarios.new_call = Some (lit "failed", None) /\
  fst uploaded
    = Ret {| http_status := 500;
             body := ErrorBody (Some (lit "Failed to transcribe audio")) |} /\
  rag_chunks (snd uploaded) = [] /\
  Scenarios.recorded (snd worked) Scenarios.new_call
    = Some (lit "failed", Some (lit "Failed to transcribe audio")) /\
  rag_chunks (snd worked) = [].
Proof. cbv zeta. repeat split; by vm_compute. Qed.




End IngestionFacts.

(* ===================================================================== *)
(** * Rules for specifications of computations *)
(* ===================================================================== *)

Module LogicFacts.
Import Terms ModelFacts Logic Ingestion.







Lemma hoare_remote (P : World -> Prop) (r : request) (Q : outcome (reply_of r) -> World -> Prop) :
  (forall w, P w -> Q (Ret (oracle w (length (requests w)) r)) (issue [r] w)) ->
  hoare P (remote r) Q.
Proof. intros H w Hw. by apply H. Qed.

Lemma keeps_hoare {A} (I : World -> Prop) (c : Eff A) :
  keeps I c -> hoare I c (fun _ w => I w).
Proof. intros H w Hw. by apply H. Qed.

Lemma keeps_ret {A} (I : World -> Prop) (a : A) : keeps I (ret a).
Proof. by intros w Hw. Qed.

Lemma keeps_throw {A} (I : World -> Prop) (e : js_error) : keeps I (throw (A := A) e).
Proof. by intros w Hw. Qed.

Lemma keeps_now (I : World -> Prop) : keeps I now.
Proof. by intros w Hw. Qed.

Lemma keeps_bind {A B} (I : World -> Prop) (c : Eff A) (k : A -> Eff B) :
  keeps I c -> (forall a, keeps I (k a)) -> keeps I (bind c k).
Proof.
  intros Hc Hk w Hw. specialize (Hc w Hw). unfold bind.
  destruct (c w) as [[a|e] w1]; cbn in Hc |- *; [by apply Hk | done].
Qed.

Lemma keeps_try_catch {A} (I : World -> Prop) (c : Eff A) (h : js_error -> Eff A) :
  keeps I c -> (forall e, keeps I (h e)) -> keeps I (try_catch c h).
Proof.
  intros Hc Hh w Hw. specialize (Hc w Hw). unfold try_catch.
  destruct (c w) as [[a|e] w1]; cbn in Hc |- *; [done | by apply Hh].
Qed.

Lemma keeps_for_of {A S} (I : World -> Prop) (xs : list A) (body : A -> S -> Eff S) :
  (forall x acc, keeps I (body x acc)) -> forall acc, keeps I (for_of xs body acc).
Proof.
  intros Hbody. induction xs as [|x xs IH]; intros acc; cbn [for_of].
  - apply keeps_ret.
  - apply keeps_bind; [apply Hbody | apply IH].
Qed.

Lemma keeps_Promise_all {A} (I : World -> Prop) (cs : list (Eff A)) :
  (forall c, c ∈ cs -> keeps I c) -> keeps I (Promise_all cs).
Proof.
  induction cs as [|c cs IH]; intros Hcs w Hw; cbn [Promise_all]; [done|].
  assert (Hc : I (snd (c w))) by (apply Hcs; [left | done]).
  assert (IH' : keeps I (Promise_all cs)) by (apply IH; intros; apply Hcs; by right).
  destruct (c w) as [[a|e] w1]; cbn in Hc |- *.
  - specialize (IH' w1 Hc). by destruct (Promise_all cs w1) as [[l|e] w2].
  - by apply IH'.
Qed.

Lemma keeps_remote (I : World -> Prop) (r : request) :
  (forall w, I w -> I (issue [r] w)) -> keeps I (remote r).
Proof. intros H w Hw. by apply H. Qed.

Lemma keeps_sleep (I : World -> Prop) (ms : Q) :
  (forall w, I w -> I (wait ms w)) -> keeps I (sleep ms).
Proof. intros H w Hw. by apply H. Qed.

Lemma returns_ret {A} (a : A) : returns (ret a).
Proof. intros w. by exists a. Qed.

Lemma returns_bind {A B} (c : Eff A) (k : A -> Eff B) :
  returns c -> (forall a, returns (k a)) -> returns (bind c k).
Proof.
  intros Hc Hk w. destruct (Hc w) as [a Ha]. unfold bind.
  destruct (c w) as [o w1]. cbn in Ha. subst o. apply Hk.
Qed.

Lemma returns_try_catch {A} (c : Eff A) (h : js_error -> Eff A) :
  (forall e, returns (h e)) -> returns (try_catch c h).
Proof.
  intros Hh w. unfold try_catch. destruct (c w) as [[a|e] w1]; [by exists a | apply Hh].
Qed.

Lemma returns_remote (r : request) : returns (remote r).
Proof. intros w. by eexists. Qed.

Lemma sent_only_refl (φ : request -> Prop) (w : World) : sent_only φ (requests w) w.
Proof. exists []. by rewrite (right_id_L [] (++)). Qed.

Lemma sent_only_issue (φ : request -> Prop) (l0 : list request) (r : request) (w : World) :
  φ r -> sent_only φ l0 w -> sent_only φ l0 (issue [r] w).
Proof.
  intros Hr (qs & Hqs & Hall). exists (qs ++ [r]). split.
  - rewrite requests_issue, Hqs. by rewrite (assoc_L (++)).
  - apply Forall_app. by repeat constructor.
Qed.

Lemma sent_only_issued (φ : request -> Prop) (w w' : World) :
  sent_only φ (requests w) w' -> Forall φ (issued w w').
Proof. intros (qs & Hqs & Hall). unfold issued. by rewrite Hqs, drop_app_length. Qed.

Lemma same_store_refl (w : World) : same_store w w.
Proof. by repeat split. Qed.

(** The head constant of an application. *)
Ltac head_of t :=
  lazymatch t with
  | ?f _ => head_of f
  | _ => t
  end.

(** One step of a proof that a computation keeps an invariant; the
    side conditions on the primitives are left to [side]. *)
Ltac keeps_step side :=
  lazymatch goal with
  | |- keeps _ (bind _ _) => apply keeps_bind; [|intros ?]
  | |- keeps _ (try_catch _ _) => apply keeps_try_catch; [|intros ?]
  | |- keeps _ (ret _) => apply keeps_ret
  | |- keeps _ (throw _) => apply keeps_throw
  | |- keeps _ now => apply keeps_now
  | |- keeps _ (remote _) => apply keeps_remote; side
  | |- keeps _ (sleep _) => apply keeps_sleep; side
  | |- keeps _ (for_of _ _ _) => apply keeps_for_of; intros ? ?
  | |- keeps _ (Promise_all _) =>
    apply keeps_Promise_all;
    let c := fresh "c" in
    let Hc := fresh "Hc" in
    intros c Hc; apply list_elem_of_fmap in Hc as (? & -> & _)
  | |- keeps _ (match ?x with _ => _ end) => destruct x
  | |- keeps _ (fun w => _) =>
    let w := fresh "w" in
    let Hw := fresh "Hw" in
    intros w Hw; cbn [fst snd]; try (destruct_match_in_goal); side
  | |- keeps _ ?c => let h := head_of c in unfold h
  end
with destruct_match_in_goal :=
  repeat match goal with
         | |- context [match ?x with _ => _ end] => destruct x
         end.

End LogicFacts.

(* ===================================================================== *)
(** * Retrieval: refused queries, calls, attribution, ties, effects *)
(* ===================================================================== *)

Module RetrievalMore.
Import Terms MoreTerms ModelFacts Logic LogicFacts Retrieval RetrievalFacts.

Lemma fetch_loop_refused (emb : vector) (limit : nat) g (fileIds : list jsstring) :
  forall (acc : list chunk_row) (w : World) (k : nat) (f : jsstring) (e : js_error),
    fileIds !! k = Some f ->
    (forall i x, i < k -> fileIds !! i = Some x ->
                 doc_ok w emb limit (length (requests w) + i) x) ->
    oracle w (length (requests w) + k) (doc_query emb limit f) = PgFail e ->
    for_of fileIds (fetch_body emb limit g) acc w
    = (Throw e, issue (doc_query emb limit <$> take (S k) fileIds) w).
Proof.
  induction fileIds as [|x fileIds IH]; intros acc w k f e Hk Hok Hfail; [done|].
  cbn [for_of]. unfold bind at 1. unfold fetch_body at 1, retrieveRelevantChunks, bind.
  rewrite remote_run. destruct k as [|k].
  - cbn in Hk. injection Hk as ->. rewrite Nat.add_0_r in Hfail.
    unfold doc_query in Hfail. rewrite Hfail. cbn. by rewrite take_0.
  - destruct (Hok 0 x) as [rows Hrows]; [lia | done |].
    rewrite Nat.add_0_r in Hrows. unfold doc_query in Hrows. rewrite Hrows. cbn [ret].
    erewrite (IH _ _ k f e); [by rewrite issue_issue | done | |].
    + intros i y Hi Hy. unfold doc_ok. rewrite oracle_issue, requests_issue, length_app. cbn.
      replace (length (requests w) + 1 + i) with (length (requests w) + S i) by lia.
      apply Hok; [lia | done].
    + rewrite oracle_issue, requests_issue, length_app. cbn.
      by replace (length (requests w) + 1 + k) with (length (requests w) + S k) by lia.
Qed.

Lemma forPhone_run (emb : vector) (f : jsstring) (rest callIds : list jsstring) (limit : nat)
    (w : World) :
  retrieveRelevantChunksForPhone emb (f :: rest) callIds limit w =
  bind (for_of (f :: rest) (fetch_body emb limit (fun _ c => c)) [])
       (fun allChunks =>
          let! allChunks :=
            (if 0 <? length callIds
             then
               let! callChunks :=
                 retrieveRelevantChunks emb None (limit * length callIds) [lit "call"] in
               ret (allChunks ++ filter (fun c => source_id c ∈ callIds) callChunks)
             else ret allChunks) in
          ret (take limit (sort by_similarity_desc allChunks))) w.
Proof. reflexivity. Qed.

(** X1. When the store refuses the query for one document, retrieval
    throws that error at once: the documents before it were queried, the
    ones after it are not, and with calls in scope the call query is not
    sent either. *)
Theorem refused_query_stops_retrieval (emb : vector) (fileIds callIds : list jsstring)
    (limit : nat) (w : World) (k : nat) (f : jsstring) (e : js_error) :
  2 <= length fileIds ->
  fileIds !! k = Some f ->
  (forall i x, i < k -> fileIds !! i = Some x ->
               doc_ok w emb limit (length (requests w) + i) x) ->
  oracle w (length (requests w) + k) (doc_query emb limit f) = PgFail e ->
  retrieveRelevantChunksFromFiles emb fileIds limit w
    = (Throw e, issue (doc_query emb limit <$> take (S k) fileIds) w) /\
  retrieveRelevantChunksForPhone emb fileIds callIds limit w
    = (Throw e, issue (doc_query emb limit <$> take (S k) fileIds) w).
Proof.
  intros Hlen Hk Hok Hfail.
  destruct fileIds as [|f1 [|f2 rest]]; cbn in Hlen; try lia.
  rewrite fromFiles_run, forPhone_run.
  split; apply IngestionFacts.bind_throw; by apply (fetch_loop_refused emb limit _ _ _ w k f e).
Qed.

(** On [MoreTerms.mixed_sources] the refusal of [doc-b] ends the
    retrieval after two queries. *)
Lemma refused_query_stops_retrieval_witness :
  retrieveRelevantChunksForPhone [] [lit "doc-a"; lit "doc-b"] [lit "call-1"] 5
    MoreTerms.mixed_sources
  = (Throw Scenarios.connection_lost,
     issue [doc_query [] 5 (lit "doc-a"); doc_query [] 5 (lit "doc-b")]
       MoreTerms.mixed_sources).
Proof.
  refine (proj2 (refused_query_stops_retrieval [] [lit "doc-a"; lit "doc-b"] [lit "call-1"] 5
                   MoreTerms.mixed_sources 1 (lit "doc-b") Scenarios.connection_lost
                   _ _ _ _)).
  - cbn. lia.
  - reflexivity.
  - intros [|i] x Hi Hx; [|lia]. cbn in Hx. injection Hx as <-. by eexists.
  - reflexivity.
Defined.

(** The body of the call branch. *)
Lemma call_branch_run (emb : vector) (limit : nat) (callIds : list jsstring)
    (allChunks callRows : list chunk_row) (w : World) :
  callIds <> [] ->
  oracle w (length (requests w)) (call_query emb limit callIds) = PgOk callRows ->
  (if 0 <? length callIds
   then
     let! callChunks := retrieveRelevantChunks emb None (limit * length callIds) [lit "call"] in
     ret (allChunks ++ filter (fun c => source_id c ∈ callIds) callChunks)
   else ret allChunks) w
  = (Ret (allChunks ++ filter (fun c => source_id c ∈ callIds) callRows),
     issue [call_query emb limit callIds] w).
Proof.
  intros Hne Hrows. destruct callIds as [|c callIds]; [done|]. cbn [length Nat.ltb Nat.leb].
  unfold bind, retrieveRelevantChunks, bind. rewrite remote_run.
  unfold call_query in Hrows. cbn [length] in Hrows. by rewrite Hrows.
Qed.

(** X2. With calls in scope, retrieval sends one query per document and
    then a single query for all calls, not bound to a file, with
    [match_count = limit * |callIds|] and source type ['call'].  Of its
    rows only those whose [source_id] is a requested call are kept; they
    are merged with the document rows, re-sorted by descending similarity
    and cut to [limit]. *)
Theorem calls_are_fetched_once_and_filtered (emb : vector) (fileIds callIds : list jsstring)
    (limit : nat) (w : World) (callRows : list chunk_row) :
  callIds <> [] ->
  (forall i f, fileIds !! i = Some f -> doc_ok w emb limit (length (requests w) + i) f) ->
  oracle w (length (requests w) + length fileIds) (call_query emb limit callIds)
    = PgOk callRows ->
  let n0 := length (requests w) in
  let run := retrieveRelevantChunksForPhone emb fileIds callIds limit w in
  let docRows := concat (imap (fun i f => doc_rows w emb limit (n0 + i) f) fileIds) in
  let kept := filter (fun c => source_id c ∈ callIds) callRows in
  issued w (snd run) = (doc_query emb limit <$> fileIds) ++ [call_query emb limit callIds] /\
  exists ms,
    fst run = Ret ms /\
    ms = take limit (sort by_similarity_desc (docRows ++ kept)) /\
    length ms <= limit /\ Sorted ranked_before ms /\
    (forall m, m ∈ ms -> m ∈ docRows \/ (m ∈ callRows /\ source_id m ∈ callIds)).
Proof.
  intros Hne Hok Hcalls n0 run docRows kept. subst run.
  assert (Hrun : retrieveRelevantChunksForPhone emb fileIds callIds limit w
                 = (Ret (take limit (sort by_similarity_desc (docRows ++ kept))),
                    issue ((doc_query emb limit <$> fileIds) ++ [call_query emb limit callIds]) w)).
  { destruct fileIds as [|f rest].
    - unfold retrieveRelevantChunksForPhone. cbn [length Nat.ltb Nat.leb].
      cbn [length] in Hcalls. rewrite Nat.add_0_r in Hcalls.
      erewrite IngestionFacts.bind_run by reflexivity.
      erewrite IngestionFacts.bind_run
        by exact (call_branch_run emb limit callIds [] callRows w Hne Hcalls).
      done.
    - rewrite forPhone_run.
      erewrite IngestionFacts.bind_run
        by exact (fetch_loop_ok emb limit (fun _ c => c) (f :: rest) [] w Hok).
      erewrite IngestionFacts.bind_run.
      2: { apply (call_branch_run emb limit callIds _ callRows); [done|].
           by rewrite oracle_issue, requests_issue, length_app, length_fmap. }
      by rewrite issue_issue. }
  rewrite Hrun. cbn [fst snd]. rewrite issued_issue. split; [done|].
  eexists. split; [done|]. split; [done|].
  split; [rewrite length_take; lia|].
  split; [apply Sorted_take, ranked_sort|].
  intros m Hm. apply elem_of_take in Hm as (i & Hm & _).
  apply list_elem_of_lookup_2 in Hm.
  rewrite (sort_perm by_similarity_desc) in Hm.
  apply elem_of_app in Hm as [Hm|Hm]; [by left|].
  right. subst kept. by apply list_elem_of_filter in Hm as [? ?].
Qed.

(** On [MoreTerms.mixed_sources], for the calls [call-1] and [call-2]
    alone: the row of [call-9] is dropped, the other two come back in rank
    order. *)
Lemma calls_are_fetched_once_and_filtered_witness :
  fst (retrieveRelevantChunksForPhone [] [] [lit "call-1"; lit "call-2"] 5
         MoreTerms.mixed_sources)
  = Ret [MoreTerms.call_row "c1" "call-1" (8 # 10); MoreTerms.call_row "c3" "call-2" (1 # 2)].
Proof.
  destruct (calls_are_fetched_once_and_filtered [] [] [lit "call-1"; lit "call-2"] 5
              MoreTerms.mixed_sources
              [MoreTerms.call_row "c1" "call-1" (8 # 10);
               MoreTerms.call_row "c2" "call-9" (7 # 10);
               MoreTerms.call_row "c3" "call-2" (1 # 2)])
    as (_ & ms & Hms & Heq & _).
  - done.
  - intros i f Hf. done.
  - reflexivity.
  - rewrite Hms, Heq. by vm_compute.
Defined.


(** The run of [retrieveRelevantChunksFromFiles] when no query is refused. *)
Lemma fromFiles_success (emb : vector) (fileIds : list jsstring) (limit : nat) (w : World) :
  2 <= length fileIds ->
  (forall i f, fileIds !! i = Some f -> doc_ok w emb limit (length (requests w) + i) f) ->
  retrieveRelevantChunksFromFiles emb fileIds limit w
  = (Ret (take limit (sort by_similarity_desc
            (concat (imap (fun i f => with_file_id f <$>
                             doc_rows w emb limit (length (requests w) + i) f) fileIds)))),
     issue (doc_query emb limit <$> fileIds) w).
Proof.
  intros Hlen Hok. destruct fileIds as [|f1 [|f2 rest]]; cbn in Hlen; try lia.
  rewrite fromFiles_run.
  by rewrite (bind_ret_run _ _ _ _ _ (fetch_loop_ok emb limit _ _ [] w Hok)).
Qed.

(** X3. After a retrieval over two or more documents, every match is a
    row that the store returned for one of the requested documents, and
    carries that document's ID as [file_id]; when the documents together
    yield at most [limit] rows, no row is lost. *)
Theorem matches_carry_their_document (emb : vector) (fileIds : list jsstring) (limit : nat)
    (w : World) :
  2 <= length fileIds ->
  (forall i f, fileIds !! i = Some f -> doc_ok w emb limit (length (requests w) + i) f) ->
  let n0 := length (requests w) in
  let tagged := imap (fun i f => with_file_id f <$> doc_rows w emb limit (n0 + i) f) fileIds in
  exists ms,
    fst (retrieveRelevantChunksFromFiles emb fileIds limit w) = Ret ms /\
    (forall m, m ∈ ms ->
       exists i f row,
         fileIds !! i = Some f /\ row ∈ doc_rows w emb limit (n0 + i) f /\
         m = with_file_id f row /\ file_id m = Some f) /\
    (length (concat tagged) <= limit -> ms ≡ₚ concat tagged).
Proof.
  intros Hlen Hok n0 tagged. rewrite (fromFiles_success emb fileIds limit w Hlen Hok).
  eexists. split; [done|]. split.
  - intros m Hm. apply elem_of_take in Hm as (j & Hm & _).
    apply list_elem_of_lookup_2 in Hm. rewrite (sort_perm by_similarity_desc) in Hm.
    apply list_elem_of_In, in_concat in Hm as (g & Hg & Hmg).
    apply list_elem_of_In in Hg, Hmg.
    apply list_elem_of_lookup in Hg as [i Hg]. rewrite list_lookup_imap in Hg.
    destruct (fileIds !! i) as [f|] eqn:Hf; [|done]. cbn in Hg. injection Hg as <-.
    apply list_elem_of_fmap in Hmg as (row & -> & Hrow).
    by exists i, f, row.
  - intros Hfew. rewrite take_ge by (by rewrite sort_length).
    apply sort_perm.
Qed.

(** On [Scenarios.two_documents] with [limit = 5] all four rows come
    back. *)
Lemma matches_carry_their_document_witness :
  exists ms,
    fst (retrieveRelevantChunksFromFiles [] [lit "doc-a"; lit "doc-b"] 5
           Scenarios.two_documents) = Ret ms /\
    length ms = 4.
Proof.
  destruct (matches_carry_their_document [] [lit "doc-a"; lit "doc-b"] 5
              Scenarios.two_documents) as (ms & Hms & _ & Hall).
  - cbn. lia.
  - intros [|[|i]] f Hf; cbn in Hf; try done; injection Hf as <-; eexists; reflexivity.
  - exists ms. split; [exact Hms|].
    rewrite (Permutation_length (Hall ltac:(vm_compute; lia))). reflexivity.
Defined.

Lemma has_similarity_after (q : Q) (x y : chunk_row) :
  has_similarity q x = true -> Qpositive (by_similarity_desc x y) = true ->
  has_similarity q y = false.
Proof.
  unfold has_similarity, by_similarity_desc. rewrite Qpositive_true.
  intros Hx Hlt. apply Qeq_bool_iff in Hx. apply Qlt_minus_iff in Hlt.
  destruct (Qeq_bool (similarity y) q) eqn:Hy; [|done].
  apply Qeq_bool_iff in Hy. rewrite Hx, Hy in Hlt. by apply Qlt_irrefl in Hlt.
Qed.

Lemma sort_insert_filter (q : Q) (x : chunk_row) (l : list chunk_row) :
  List.filter (has_similarity q) (sort_insert by_similarity_desc x l)
  = List.filter (has_similarity q) (x :: l).
Proof.
  induction l as [|y l IH]; [done|]. cbn [sort_insert].
  destruct (Qpositive (by_similarity_desc x y)) eqn:Hpos; [|done].
  cbn [List.filter] in *. rewrite IH.
  destruct (has_similarity q x) eqn:Hx; [|done].
  by rewrite (has_similarity_after q x y Hx Hpos).
Qed.

(** [Array.prototype.sort] with this comparator keeps rows of equal
    similarity in their order. *)
Lemma sort_stable (q : Q) (l : list chunk_row) :
  List.filter (has_similarity q) (sort by_similarity_desc l) = List.filter (has_similarity q) l.
Proof.
  induction l as [|x l IH]; [done|]. cbn [sort]. rewrite sort_insert_filter.
  cbn [List.filter]. by rewrite IH.
Qed.

Lemma filter_take_prefix {A} (p : A -> bool) (n : nat) (l : list A) :
  List.filter p (take n l) `prefix_of` List.filter p l.
Proof.
  exists (List.filter p (drop n l)). by rewrite <- List.filter_app, take_drop.
Qed.

(** X4. Ties are broken by the order of fetching: among the rows of one
    similarity value, the merged result keeps the order in which the
    documents were queried and, within a document, the order of the
    store's answer. *)
Theorem ties_keep_fetch_order (emb : vector) (fileIds : list jsstring) (limit : nat)
    (w : World) (q : Q) :
  2 <= length fileIds ->
  (forall i f, fileIds !! i = Some f -> doc_ok w emb limit (length (requests w) + i) f) ->
  let n0 := length (requests w) in
  let tagged := imap (fun i f => with_file_id f <$> doc_rows w emb limit (n0 + i) f) fileIds in
  exists ms,
    fst (retrieveRelevantChunksFromFiles emb fileIds limit w) = Ret ms /\
    List.filter (has_similarity q) ms `prefix_of` List.filter (has_similarity q) (concat tagged).
Proof.
  intros Hlen Hok n0 tagged. rewrite (fromFiles_success emb fileIds limit w Hlen Hok).
  eexists. split; [done|]. cbn [fst].
  rewrite <- (sort_stable q (concat tagged)). apply filter_take_prefix.
Qed.

(** On [MoreTerms.tied_documents] three rows have similarity one half;
    they follow the better row of the second document in the order a1, a2,
    b2. *)
Lemma ties_keep_fetch_order_witness :
  id <$> match fst (retrieveRelevantChunksFromFiles [] [lit "doc-b"; lit "doc-a"] 4
                      MoreTerms.tied_documents) with
         | Ret ms => List.filter (has_similarity (1 # 2)) ms
         | Throw _ => []
         end
  = [lit "b2"; lit "a1"; lit "a2"].
Proof.
  destruct (ties_keep_fetch_order [] [lit "doc-b"; lit "doc-a"] 4
              MoreTerms.tied_documents (1 # 2)) as (ms & Hms & _).
  - cbn. lia.
  - intros [|[|i]] f Hf; cbn in Hf; try done; injection Hf as <-; eexists; reflexivity.
  - by vm_compute.
Defined.

Lemma same_store_issue (w0 w : World) (qs : list request) :
  same_store w0 w -> same_store w0 (issue qs w).
Proof. intros H. exact H. Qed.

Section SimilarityOnly.

(** An invariant that sending a similarity query keeps. *)
Variable I : World -> Prop.
Hypothesis I_issue : forall r w, is_similarity_query r -> I w -> I (issue [r] w).

Lemma retrieveRelevantChunks_keeps emb fileId limit sourceTypes :
  keeps I (retrieveRelevantChunks emb fileId limit sourceTypes).
Proof. repeat keeps_step ltac:(intros; by apply I_issue). Qed.

Lemma retrieveRelevantChunksFromFiles_keeps emb fileIds limit :
  keeps I (retrieveRelevantChunksFromFiles emb fileIds limit).
Proof.
  unfold retrieveRelevantChunksFromFiles. destruct fileIds as [|f1 [|f2 rest]].
  - apply keeps_ret.
  - apply retrieveRelevantChunks_keeps.
  - apply keeps_bind; [|intros; apply keeps_ret].
    apply keeps_for_of. intros x acc.
    apply keeps_bind; [|intros; apply keeps_ret].
    apply retrieveRelevantChunks_keeps.
Qed.

Lemma retrieveRelevantChunksForPhone_keeps emb fileIds callIds limit :
  keeps I (retrieveRelevantChunksForPhone emb fileIds callIds limit).
Proof.
  unfold retrieveRelevantChunksForPhone.
  apply keeps_bind; [|intros all; apply keeps_bind; [|intros; apply keeps_ret]].
  - destruct (0 <? length fileIds); [|apply keeps_ret].
    apply keeps_for_of. intros x acc.
    apply keeps_bind; [|intros; apply keeps_ret].
    apply retrieveRelevantChunks_keeps.
  - destruct (0 <? length callIds); [|apply keeps_ret].
    apply keeps_bind; [|intros; apply keeps_ret].
    apply retrieveRelevantChunks_keeps.
Qed.

Lemma retrieveRelevantShopifyChunks_keeps emb storeId limit :
  keeps I (retrieveRelevantShopifyChunks emb storeId limit).
Proof.
  unfold retrieveRelevantShopifyChunks.
  apply keeps_bind; [apply keeps_remote; intros; by apply I_issue|].
  intros [d|e]; [apply keeps_ret | apply keeps_throw].
Qed.

End SimilarityOnly.

(** X5. Retrieval is free of side effects: whatever the store answers,
    the three retrieval functions send similarity queries only, set no
    timer and leave every table as it was. *)
Theorem retrieval_has_no_side_effects (emb : vector) (fileIds callIds : list jsstring)
    (storeId : jsstring) (limit : nat) (w : World) :
  let fromFiles := snd (retrieveRelevantChunksFromFiles emb fileIds limit w) in
  let forPhone := snd (retrieveRelevantChunksForPhone emb fileIds callIds limit w) in
  let shopify := snd (retrieveRelevantShopifyChunks emb storeId limit w) in
  same_store w fromFiles /\ Forall is_similarity_query (issued w fromFiles) /\
  same_store w forPhone /\ Forall is_similarity_query (issued w forPhone) /\
  same_store w shopify /\ Forall is_similarity_query (issued w shopify).
Proof.
  cbv zeta.
  repeat split;
    first [ apply sent_only_issued;
            first [ apply (retrieveRelevantChunksFromFiles_keeps
                             (sent_only is_similarity_query (requests w)))
                  | apply (retrieveRelevantChunksForPhone_keeps
                             (sent_only is_similarity_query (requests w)))
                  | apply (retrieveRelevantShopifyChunks_keeps
                             (sent_only is_similarity_query (requests w))) ];
            [intros; by apply sent_only_issue | apply sent_only_refl]
          | first [ apply (retrieveRelevantChunksFromFiles_keeps (same_store w))
                  | apply (retrieveRelevantChunksForPhone_keeps (same_store w))
                  | apply (retrieveRelevantShopifyChunks_keeps (same_store w)) ];
            [intros; by apply same_store_issue | apply same_store_refl] ].
Qed.


End RetrievalMore.

(* ===================================================================== *)
(** * More on the source mapping directory *)
(* ===================================================================== *)

Module PhoneMappingMore.
Import Terms MoreTerms ModelFacts Logic LogicFacts PhoneMapping PhoneMappingFacts.

Lemma retry_step_ok (phoneNumber : jsstring) (M k a : nat) (w : World) d :
  oracle w (length (requests w)) (SelectDataSource phoneNumber) = PgOk d ->
  retry_attempts (remote (SelectDataSource phoneNumber)) M (S k) a w
  = (Ret (PgOk d), issue [SelectDataSource phoneNumber] w).
Proof. intros Hd. cbn [retry_attempts]. unfold bind. by rewrite remote_run, Hd. Qed.

Lemma same_tables_refl (w : World) : same_tables w w.
Proof. by repeat split. Qed.

Lemma same_tables_trans (w0 w1 w2 : World) :
  same_tables w0 w1 -> same_tables w1 w2 -> same_tables w0 w2.
Proof.
  intros (? & ? & ? & ? & ? & ?) (? & ? & ? & ? & ? & ?). repeat split; congruence.
Qed.

(** The first answer without an error ends the lookup, in the loop or
    in the query after it. *)
Lemma retry_first_answer (phoneNumber : jsstring) (M : nat) :
  forall (k r a : nat) (w : World) d,
    k <= r ->
    (forall i, i < k ->
       exists e, oracle w (length (requests w) + i) (SelectDataSource phoneNumber) = PgFail e) ->
    oracle w (length (requests w) + k) (SelectDataSource phoneNumber) = PgOk d ->
    let run := retry_attempts (remote (SelectDataSource phoneNumber)) M r a w in
    fst run = Ret (PgOk d) /\
    requests (snd run) = requests w ++ replicate (S k) (SelectDataSource phoneNumber) /\
    timers (snd run) = timers w ++ retry_waits M a k /\
    same_tables w (snd run).
Proof.
  induction k as [|k IH]; intros r a w d Hr Hfail Hok run; subst run.
  - rewrite Nat.add_0_r in Hok. destruct r as [|r].
    + cbn [retry_attempts]. rewrite remote_run, Hok. cbn.
      by rewrite (right_id_L [] (++)).
    + rewrite (retry_step_ok _ _ _ _ _ _ Hok). cbn.
      by rewrite (right_id_L [] (++)).
  - destruct r as [|r]; [lia|].
    destruct (Hfail 0) as [e He]; [lia|]. rewrite Nat.add_0_r in He.
    rewrite (retry_step_fail _ _ _ _ _ _ He).
    match goal with |- context [retry_attempts _ M r (S a) ?w0] => set (w1 := w0) end.
    assert (Ho : oracle w1 = oracle w) by (subst w1; by destruct (a <? M)).
    assert (Hq : requests w1 = requests w ++ [SelectDataSource phoneNumber])
      by (subst w1; by destruct (a <? M)).
    assert (Ht : timers w1 = timers w ++ (if a <? M then [inject_Z (Z.of_nat a * 1000)] else []))
      by (subst w1; destruct (a <? M); cbn; by rewrite ?(right_id_L [] (++))).
    assert (Hs : same_tables w w1) by (subst w1; by destruct (a <? M)).
    destruct (IH r (S a) w1 d) as (Hrun & Hreq & Htim & Htab).
    { lia. }
    { intros i Hi. destruct (Hfail (S i)) as [e' He']; [lia|]. exists e'.
      rewrite Ho, Hq, length_app. cbn [length].
      by replace (length (requests w) + 1 + i) with (length (requests w) + S i) by lia. }
    { rewrite Ho, Hq, length_app. cbn [length].
      by replace (length (requests w) + 1 + k) with (length (requests w) + S k) by lia. }
    split; [done|]. split; [|split].
    + rewrite Hreq, Hq. by rewrite <- (assoc_L (++)).
    + rewrite Htim, Ht, <- (assoc_L (++)). done.
    + by apply (same_tables_trans w w1).
Qed.

(** X6. The first answer wins: when the store refuses the data-source
    query [k] times ([k <= 3]) and then answers, the lookup sends [k + 1]
    queries, waits 1 s after the first and 2 s after the second refusal,
    writes nothing and returns the answered value (['file'] when the column
    is empty).  For [k = 3] the answer comes from the query after the retry
    loop. *)
Theorem first_answer_wins (phoneNumber : jsstring) (w : World) (k : nat) (d : option jsstring) :
  k <= 3 ->
  (forall i, i < k ->
     exists e, oracle w (length (requests w) + i) (SelectDataSource phoneNumber) = PgFail e) ->
  oracle w (length (requests w) + k) (SelectDataSource phoneNumber) = PgOk d ->
  let run := getDataSourceForPhone phoneNumber w in
  fst run = Ret (if str_truthy d then d else Some (lit "file")) /\
  issued w (snd run) = replicate (S k) (SelectDataSource phoneNumber) /\
  timers (snd run) = timers w ++ take k [1000%Q; 2000%Q] /\
  same_tables w (snd run).
Proof.
  intros Hk Hfail Hok run. subst run. rewrite data_source_run. unfold retrySupabaseQuery.
  destruct (retry_first_answer phoneNumber 3 k 3 1 w d Hk Hfail Hok) as (Hrun & Hreq & Htim & Htab).
  destruct (retry_attempts _ 3 3 1 w) as [o w1]. cbn [fst snd] in *. subst o.
  cbn [fst snd]. split; [done|]. split; [|split; [|done]].
  - unfold issued. by rewrite Hreq, drop_app_length.
  - rewrite Htim. f_equal. by destruct k as [|[|[|[|k]]]]; [..|lia].
Qed.

(** On [MoreTerms.recovering_store] the third query is answered. *)
Lemma first_answer_wins_witness :
  let run := getDataSourceForPhone Scenarios.business_number recovering_store in
  fst run = Ret (Some (lit "shopify")) /\
  length (issued recovering_store (snd run)) = 3 /\
  timers (snd run) = [1000%Q; 2000%Q].
Proof.
  destruct (first_answer_wins Scenarios.business_number recovering_store 2
              (Some (lit "shopify"))) as (Hrun & Hreq & Htim & _).
  - lia.
  - intros [|[|i]] Hi; [by eexists ..|lia].
  - reflexivity.
  - cbv zeta. rewrite Hrun, Hreq, Htim. by repeat split.
Defined.

Lemma retry_step (D : Type) (queryFn : Eff (pg_reply D)) (M r a : nat) (w w1 : World)
    (reply : pg_reply D) :
  queryFn w = (Ret reply, w1) ->
  retry_attempts queryFn M (S r) a w
  = match reply with
    | PgOk _ => (Ret reply, w1)
    | PgFail _ =>
      retry_attempts queryFn M r (S a)
        (if a <? M then wait (inject_Z (Z.of_nat a * 1000)) w1 else w1)
    end.
Proof.
  intros Hreply. change (retry_attempts queryFn M (S r) a) with
    (let! result := queryFn in
     match result with
     | PgOk _ => ret result
     | PgFail _ =>
       do! (if a <? M then sleep (inject_Z (Z.of_nat a * 1000)) else ret tt) in
       retry_attempts queryFn M r (S a)
     end).
  unfold bind at 1. rewrite Hreply. destruct reply; [done|].
  unfold bind. by destruct (a <? M).
Qed.

(** Whatever the answers, a lookup through [retrySupabaseQuery] sends
    the query between once and [remaining + 1] times and nothing else. *)
Lemma retry_attempts_bound {D} (queryFn : Eff (pg_reply D)) (q : request) (M : nat) :
  (forall w, exists reply, queryFn w = (Ret reply, issue [q] w)) ->
  forall (r a : nat) (w : World),
    let run := retry_attempts queryFn M r a w in
    exists n ts,
      1 <= n <= S r /\
      requests (snd run) = requests w ++ replicate n q /\
      timers (snd run) = timers w ++ ts /\ ts `prefix_of` retry_waits M a r /\
      same_tables w (snd run) /\
      exists reply, fst run = Ret reply.
Proof.
  intros Hq. induction r as [|r IH]; intros a w run; subst run.
  - cbn [retry_attempts]. destruct (Hq w) as [reply ->]. exists 1, []. cbn.
    rewrite (right_id_L [] (++)). repeat split; eauto.
  - destruct (Hq w) as [reply Hreply]. rewrite (retry_step _ _ _ _ _ _ _ _ Hreply).
    destruct reply as [d|e].
    + exists 1, []. cbn. rewrite (right_id_L [] (++)).
      repeat split; eauto using prefix_nil. lia.
    + set (ts0 := if a <? M then [inject_Z (Z.of_nat a * 1000)] else []).
      match goal with |- context [retry_attempts _ M r (S a) ?w0] => set (w1 := w0) end.
      assert (Hreq : requests w1 = requests w ++ [q]) by (subst w1; by destruct (a <? M)).
      assert (Htim : timers w1 = timers w ++ ts0)
        by (subst w1 ts0; destruct (a <? M); cbn; by rewrite ?(right_id_L [] (++))).
      assert (Htab : same_tables w w1) by (subst w1; by destruct (a <? M)).
      destruct (IH (S a) w1) as (n & ts & Hn & Hreq' & Htim' & Hpre & Htab' & Hret).
      exists (S n), (ts0 ++ ts). split; [lia|]. split; [|split; [|split; [|split]]].
      * rewrite Hreq', Hreq. by rewrite <- (assoc_L (++)).
      * rewrite Htim', Htim. by rewrite <- (assoc_L (++)).
      * by apply prefix_app.
      * by apply (same_tables_trans w w1).
      * done.
Qed.

(** X7. Whatever the store answers, a data-source lookup and a
    store-mapping check each send their one query between one and four
    times and nothing else, wait at most twice (1 s, then 2 s), write no
    table and never throw. *)
Theorem lookups_send_one_to_four_queries (phoneNumber : jsstring) (w : World) :
  (let run := getDataSourceForPhone phoneNumber w in
   exists n ts,
     1 <= n <= 4 /\
     issued w (snd run) = replicate n (SelectDataSource phoneNumber) /\
     timers (snd run) = timers w ++ ts /\ ts `prefix_of` [1000%Q; 2000%Q] /\
     same_tables w (snd run) /\ exists v, fst run = Ret v) /\
  (let run := hasShopifyMapping phoneNumber w in
   exists n ts,
     1 <= n <= 4 /\
     issued w (snd run) = replicate n (SelectShopifyStoreId phoneNumber) /\
     timers (snd run) = timers w ++ ts /\ ts `prefix_of` [1000%Q; 2000%Q] /\
     same_tables w (snd run) /\ exists v, fst run = Ret v).
Proof.
  split; cbv zeta.
  - destruct (retry_attempts_bound (remote (SelectDataSource phoneNumber))
                (SelectDataSource phoneNumber) 3 (fun w0 => ex_intro _ _ eq_refl) 3 1 w)
      as (n & ts & Hn & Hreq & Htim & Hpre & Htab & reply & Hret).
    rewrite data_source_run. unfold retrySupabaseQuery.
    destruct (retry_attempts _ 3 3 1 w) as [o w1]. cbn [fst snd] in *. subst o.
    exists n, ts. unfold issued.
    destruct reply; cbn [fst snd]; rewrite Hreq, drop_app_length;
      repeat split; first [lia | done | by eexists | apply Htab].
  - destruct (retry_attempts_bound (remote (SelectShopifyStoreId phoneNumber))
                (SelectShopifyStoreId phoneNumber) 3 (fun w0 => ex_intro _ _ eq_refl) 3 1 w)
      as (n & ts & Hn & Hreq & Htim & Hpre & Htab & reply & Hret).
    unfold hasShopifyMapping, bind. rewrite shopify_store_run. unfold retrySupabaseQuery.
    destruct (retry_attempts _ 3 3 1 w) as [o w1]. cbn [fst snd] in *. subst o.
    exists n, ts. unfold issued.
    destruct reply; cbn [fst snd ret]; rewrite Hreq, drop_app_length;
      repeat split; first [lia | done | by eexists | apply Htab].
Qed.

Lemma filter_Boolean_spec (data : list (option jsstring)) (x : jsstring) :
  x ∈ filter_Boolean data <-> x <> [] /\ Some x ∈ data.
Proof.
  unfold filter_Boolean. rewrite list_elem_of_omap. split.
  - intros ([[|c s]|] & Hin & Hx); cbn in Hx; try done. by injection Hx as <-.
  - intros [Hx Hin]. exists (Some x). split; [done|]. by destruct x.
Qed.

(** X8. The ID lists of a phone number: each of the two reads sends one
    query, never throws and writes nothing; a refused query gives the empty
    list, and an answered one gives exactly the non-empty IDs of the
    answer, [null] and [''] left out. *)
Theorem mapped_ids (phoneNumber : jsstring) (w : World) :
  let n0 := length (requests w) in
  (exists ids,
     getFilesForPhoneNumber phoneNumber w = (Ret ids, issue [SelectFileIds phoneNumber] w) /\
     match oracle w n0 (SelectFileIds phoneNumber) with
     | PgFail _ => ids = []
     | PgOk data => forall x, x ∈ ids <-> x <> [] /\ Some x ∈ data
     end) /\
  (exists ids,
     getCallsForPhoneNumber phoneNumber w = (Ret ids, issue [SelectCallIds phoneNumber] w) /\
     match oracle w n0 (SelectCallIds phoneNumber) with
     | PgFail _ => ids = []
     | PgOk data => forall x, x ∈ ids <-> x <> [] /\ Some x ∈ data
     end).
Proof.
  cbv zeta. split.
  - unfold getFilesForPhoneNumber, bind. rewrite remote_run.
    destruct (oracle w _ (SelectFileIds phoneNumber)) as [data|e]; eexists; (split; [done|]);
      [apply filter_Boolean_spec | done].
  - unfold getCallsForPhoneNumber, bind. rewrite remote_run.
    destruct (oracle w _ (SelectCallIds phoneNumber)) as [data|e]; eexists; (split; [done|]);
      [apply filter_Boolean_spec | done].
Qed.


End PhoneMappingMore.

(* ===================================================================== *)
(** * More on the rate-limited embedding *)
(* ===================================================================== *)

Module EmbeddingMore.
Import Terms MoreTerms ModelFacts Logic LogicFacts Embedding EmbeddingFacts.




End EmbeddingMore.

(* ===================================================================== *)
(** * More on the responder *)
(* ===================================================================== *)

Module OrchestratorMore.
Import Terms MoreTerms ModelFacts Logic LogicFacts.
Import Retrieval Embedding PhoneMapping Orchestrator OrchestratorFacts.

Section NoSend.

(** An invariant that waiting and every request but a send keep. *)
Variable I : World -> Prop.
Hypothesis I_issue : forall r w, is_send r = false -> I w -> I (issue [r] w).
Hypothesis I_wait : forall ms w, I w -> I (wait ms w).











End NoSend.








(** X12. The history step is bounded and fail-safe: it sends one query,
    never throws, and returns at most 20 turns, each with a non-empty text
    and the role of a user or an assistant; when the query fails the
    history is empty and the run goes on. *)
Theorem history_is_bounded_and_failsafe (fromNumber : jsstring) (w : World) :
  exists history,
    load_history fromNumber w = (Ret history, issue [SelectHistory fromNumber] w) /\
    length history <= 20 /\
    Forall (fun m => msg_content m <> [] /\ msg_role m <> system) history /\
    (oracle w (length (requests w)) (SelectHistory fromNumber) <> None -> history = []).
Proof.
  unfold load_history, bind. rewrite remote_run. eexists. split; [reflexivity|].
  destruct (oracle w (length (requests w)) (SelectHistory fromNumber)) as [e|];
    cbn [default]; [by repeat split; cbn; auto; lia|].
  split; [|split; [|done]].
  - rewrite length_fmap. etrans; [apply List.filter_length_le|].
    unfold select_history, Datatypes.id. rewrite length_take. lia.
  - apply Forall_fmap, Forall_forall. intros m Hm.
    apply list_elem_of_In, List.filter_In in Hm as [_ Hm].
    unfold is_chat_turn in Hm. apply andb_prop in Hm as [Htext _].
    unfold to_chat_message. cbn [msg_content msg_role]. split.
    + by destruct (content_text m) as [[|c s]|].
    + by destruct (str_eqb (event_type m) (lit "MoMessage")).
Qed.


Section Run.

Variable shopifyRules documentRules : jsstring.



End Run.

End OrchestratorMore.

(* ===================================================================== *)
(** * More on call ingestion *)
(* ===================================================================== *)

Module IngestionMore.
Import Terms MoreTerms ModelFacts Logic LogicFacts.
Import Embedding Ingestion IngestionFacts.

Section Pipeline.

(** An invariant of the pipeline steps of the call [callId]. *)
Variable callId : jsstring.
Variable I : World -> Prop.
Hypothesis I_issue : forall r w, I w -> I (issue [r] w).
Hypothesis I_update :
  forall patch w, I w -> I (set_call_recordings (alter (apply_patch patch) callId) w).
Hypothesis I_transcripts : forall f w, I w -> I (set_call_transcripts f w).
Hypothesis I_classifications : forall f w, I w -> I (set_call_classifications f w).
Hypothesis I_chunks : forall f w, I w -> I (set_rag_chunks f w).

Variable classification_prompt : jsstring -> jsstring.













End Pipeline.





Section Worker.

Variable classification_prompt : jsstring -> jsstring.




End Worker.

Section Upload.

Variable callId : jsstring.
Variable I : World -> Prop.
Hypothesis I_issue : forall r w, I w -> I (issue [r] w).
Hypothesis I_wait : forall ms w, I w -> I (wait ms w).
Hypothesis I_update :
  forall patch w, I w -> I (set_call_recordings (alter (apply_patch patch) callId) w).
Hypothesis I_transcripts : forall f w, I w -> I (set_call_transcripts f w).
Hypothesis I_classifications : forall f w, I w -> I (set_call_classifications f w).
Hypothesis I_chunks : forall f w, I w -> I (set_rag_chunks f w).
Hypothesis I_mapping : forall f w, I w -> I (set_phone_call_mapping f w).

Variable classification_prompt : jsstring -> jsstring.




End Upload.


Section UploadRun.

Variable classification_prompt : jsstring -> jsstring.




(** X16. A form that is not in order is answered with 400 before
    anything is created: after the table check no request is sent and no
    table is written.  A missing file is reported first, then a missing or
    empty phone number, then an unsupported file type. *)
Theorem invalid_uploads_create_nothing (form : form_data) (w : World) :
  oracle w (length (requests w)) CheckCallRecordingsTable = None ->
  (form_file form = None \/ str_truthy (form_phone_number form) = false \/
   exists file, form_file form = Some file /\ up_type file ∉ allowedTypes) ->
  POST classification_prompt form w
  = (Ret (json_error
            match form_file form with
            | None => lit "No audio file uploaded"
            | Some file =>
              if str_truthy (form_phone_number form)
              then lit "Unsupported file type. Please upload MP3, WAV, or OGG files."
              else lit "Phone number is required"
            end 400),
     issue [CheckCallRecordingsTable] w).
Proof.
  intros Hcheck Hbad.
  unfold POST, try_catch. unfold bind at 1. rewrite remote_run, Hcheck.
  unfold bind at 1. cbn [ret].
  destruct (form_file form) as [file|]; [|done].
  destruct (form_phone_number form) as [[|p phone]|]; try done. cbn [str_truthy].
  destruct Hbad as [?|[?|(file' & [= <-] & Htype)]]; try done.
  by rewrite bool_decide_eq_false_2.
Qed.


End UploadRun.


(** An upload without a file, to a store that is up. *)
Lemma invalid_uploads_create_nothing_witness :
  POST plain_prompt {| form_file := None; form_phone_number := None |}
    Scenarios.unmapped
  = (Ret (json_error (lit "No audio file uploaded") 400),
     issue [CheckCallRecordingsTable] Scenarios.unmapped).
Proof.
  apply (invalid_uploads_create_nothing plain_prompt {| form_file := None; form_phone_number := None |}
           Scenarios.unmapped); [reflexivity | by left].
Defined.

Section Batches.

(** A provider that answers every text [c] with [emb c], which may be
    no embedding. *)
Variable emb : jsstring -> option vector.
Variable o : nat -> forall r : request, reply_of r.
Hypothesis provider_up : forall n c, o n (EmbedText c None) = EmbedReturns (emb c).

Lemma embed_all_run (batch : list jsstring) :
  forall w, oracle w = o ->
    Promise_all ((fun c => embedText c None) <$> batch) w
    = (Ret (emb <$> batch), issue ((fun c => EmbedText c None) <$> batch) w).
Proof.
  induction batch as [|c batch IH]; intros w Ho.
  - cbn. by rewrite issue_nil.
  - cbn [fmap list_fmap Promise_all]. unfold embedText at 1, bind. rewrite remote_run.
    rewrite Ho, provider_up. cbn [ret].
    rewrite (IH (issue [EmbedText c None] w)) by done. by rewrite issue_issue.
Qed.

(** The body of the loop over a batch; [embeddings[off + j]] belongs to
    the [j]-th chunk. *)
Lemma push_rows_step (callId : jsstring) (i : nat) (embeddings : list (option vector))
    (c : jsstring) (batch : list jsstring) (off : nat) (rows : list rag_chunk) (w : World) :
  embeddings !! off = Some (emb c) ->
  for_of (imap (fun j c => (off + j, c)) (c :: batch))
    (fun '(j, c) rows =>
       match mjoin (embeddings !! j) with
       | None =>
         throw (new_Error (lit "Failed to generate embedding for chunk "
                           ++ Orchestrator.number_toString (N.of_nat (i + j + 1))))
       | Some embedding =>
         ret (rows ++ [{| rc_source_type := lit "call"; rc_source_id := callId; rc_text := c;
                          rc_embedding := Some embedding; rc_phone_number := None;
                          rc_chunk_index := None |}])
       end)
    rows w
  = match emb c with
    | None => (Throw (missing_embedding (i + off)), w)
    | Some _ =>
      for_of (imap (fun j c => (S off + j, c)) batch)
        (fun '(j, c) rows =>
           match mjoin (embeddings !! j) with
           | None =>
             throw (new_Error (lit "Failed to generate embedding for chunk "
                               ++ Orchestrator.number_toString (N.of_nat (i + j + 1))))
           | Some embedding =>
             ret (rows ++ [{| rc_source_type := lit "call"; rc_source_id := callId;
                              rc_text := c; rc_embedding := Some embedding;
                              rc_phone_number := None; rc_chunk_index := None |}])
           end)
        (rows ++ [upload_chunk_row callId emb c]) w
    end.
Proof.
  intros Hemb. cbn [imap for_of]. unfold bind at 1. rewrite Nat.add_0_r, Hemb.
  cbn [mjoin option_join]. unfold upload_chunk_row.
  destruct (emb c) as [v|]; [|done]. cbn [ret].
  by rewrite (imap_ext _ (fun j c => (S off + j, c)))
    by (intros; unfold compose; f_equal; lia).
Qed.

Lemma push_batch_rows_ok (callId : jsstring) (i : nat) (embeddings : list (option vector)) :
  forall (batch : list jsstring) (off : nat) (rows : list rag_chunk) (w : World),
    (forall j c, batch !! j = Some c -> embeddings !! (off + j) = Some (emb c)) ->
    (forall j c, batch !! j = Some c -> emb c <> None) ->
    for_of (imap (fun j c => (off + j, c)) batch)
      (fun '(j, c) rows =>
         match mjoin (embeddings !! j) with
         | None =>
           throw (new_Error (lit "Failed to generate embedding for chunk "
                             ++ Orchestrator.number_toString (N.of_nat (i + j + 1))))
         | Some embedding =>
           ret (rows ++ [{| rc_source_type := lit "call"; rc_source_id := callId; rc_text := c;
                            rc_embedding := Some embedding; rc_phone_number := None;
                            rc_chunk_index := None |}])
         end)
      rows w
    = (Ret (rows ++ (upload_chunk_row callId emb <$> batch)), w).
Proof.
  induction batch as [|c batch IH]; intros off rows w Hemb Hsome.
  - cbn. by rewrite (right_id_L [] (++)).
  - rewrite push_rows_step by (rewrite <- (Nat.add_0_r off); by apply Hemb).
    destruct (emb c) eqn:Hc; [|by destruct (Hsome 0 c eq_refl)].
    rewrite IH.
    + cbn [fmap list_fmap]. by rewrite <- (assoc_L (++)).
    + intros j c' Hj. replace (S off + j) with (off + S j) by lia. by apply Hemb.
    + intros j c' Hj. by apply (Hsome (S j)).
Qed.

Lemma push_batch_rows_throw (callId : jsstring) (i : nat) (embeddings : list (option vector)) :
  forall (batch : list jsstring) (j0 : nat) (c0 : jsstring) (off : nat)
         (rows : list rag_chunk) (w : World),
    (forall j c, batch !! j = Some c -> embeddings !! (off + j) = Some (emb c)) ->
    (forall j c, j < j0 -> batch !! j = Some c -> emb c <> None) ->
    batch !! j0 = Some c0 -> emb c0 = None ->
    for_of (imap (fun j c => (off + j, c)) batch)
      (fun '(j, c) rows =>
         match mjoin (embeddings !! j) with
         | None =>
           throw (new_Error (lit "Failed to generate embedding for chunk "
                             ++ Orchestrator.number_toString (N.of_nat (i + j + 1))))
         | Some embedding =>
           ret (rows ++ [{| rc_source_type := lit "call"; rc_source_id := callId; rc_text := c;
                            rc_embedding := Some embedding; rc_phone_number := None;
                            rc_chunk_index := None |}])
         end)
      rows w
    = (Throw (missing_embedding (i + (off + j0))), w).
Proof.
  induction batch as [|c batch IH]; intros j0 c0 off rows w Hemb Hsome Hj0 Hnone; [done|].
  rewrite push_rows_step by (rewrite <- (Nat.add_0_r off); by apply Hemb).
  destruct j0 as [|j0].
  - injection Hj0 as ->. by rewrite Hnone, Nat.add_0_r.
  - destruct (emb c) eqn:Hc; [|by destruct (Hsome 0 c ltac:(lia) eq_refl)].
    rewrite (IH j0 c0); [by replace (S off + j0) with (off + S j0) by lia| | |done|done].
    + intros j c' Hj. replace (S off + j) with (off + S j) by lia. by apply Hemb.
    + intros j c' Hlt Hj. apply (Hsome (S j)); [lia|done].
Qed.

(** One iteration of the loop over the batches. *)
Lemma embed_batches_step (callId : jsstring) (chunks : list jsstring) (fuel i : nat)
    (rows : list rag_chunk) (w : World) :
  oracle w = o -> i < length chunks ->
  let batch := take 10 (drop i chunks) in
  let w1 := issue ((fun c => EmbedText c None) <$> batch) w in
  embed_batches (S fuel) i callId chunks rows w
  = match push_batch_rows callId i batch (emb <$> batch) rows w1 with
    | (Ret rows1, _) =>
      embed_batches fuel (i + 10) callId chunks rows1
        (if i + 10 <? length chunks then wait 1000 w1 else w1)
    | (Throw e, w2) => (Throw e, w2)
    end.
Proof.
  intros Ho Hi batch w1. cbn [embed_batches].
  apply Nat.ltb_lt in Hi as ->. unfold BATCH_SIZE, BATCH_DELAY_MS. fold batch.
  unfold bind at 1. rewrite (embed_all_run batch w Ho). fold w1.
  unfold bind at 1.
  assert (Hsame : forall rows0 w0,
             snd (push_batch_rows callId i batch (emb <$> batch) rows0 w0) = w0).
  { intros rows0 w0. unfold push_batch_rows.
    generalize (imap (fun (j : nat) (c : jsstring) => (j, c)) batch). intros l.
    revert rows0. induction l as [|[j c] l IHl]; intros rows0; [done|].
    cbn [for_of]. unfold bind. destruct (mjoin _); cbn; [apply IHl | done]. }
  specialize (Hsame rows w1).
  destruct (push_batch_rows callId i batch (emb <$> batch) rows w1) as [[rows1|e] w2];
    cbn [snd] in Hsame; subst w2; [|done].
  unfold bind. by destruct (i + 10 <? length chunks).
Qed.

Lemma embed_batches_run (callId : jsstring) (chunks : list jsstring) :
  (forall j c, chunks !! j = Some c -> emb c <> None) ->
  forall (fuel i : nat) (rows : list rag_chunk) (w : World),
    oracle w = o -> length chunks <= i + fuel ->
    let run := embed_batches fuel i callId chunks rows w in
    fst run = Ret (rows ++ (upload_chunk_row callId emb <$> drop i chunks)) /\
    requests (snd run) = requests w ++ ((fun c => EmbedText c None) <$> drop i chunks) /\
    timers (snd run) = timers w ++ replicate ((length chunks - i - 1) / 10) 1000%Q /\
    same_tables w (snd run).
Proof.
  intros Hsome. induction fuel as [|fuel IH]; intros i rows w Ho Hfuel run; subst run.
  - cbn [embed_batches ret fst snd]. rewrite drop_ge by lia.
    replace ((length chunks - i - 1) / 10) with 0 by (symmetry; apply Nat.div_small; lia).
    cbn. by rewrite !(right_id_L [] (++)).
  - destruct (decide (i < length chunks)) as [Hi|Hi].
    2: { cbn [embed_batches]. replace (i <? length chunks) with false
           by (symmetry; apply Nat.ltb_ge; lia).
         cbn [ret fst snd]. rewrite drop_ge by lia.
         replace ((length chunks - i - 1) / 10) with 0 by (symmetry; apply Nat.div_small; lia).
         cbn. by rewrite !(right_id_L [] (++)). }
    rewrite embed_batches_step by done. cbv zeta.
    set (batch := take 10 (drop i chunks)).
    assert (Hsplit : drop i chunks = batch ++ drop (i + 10) chunks).
    { subst batch. by rewrite <- drop_drop, take_drop. }
    assert (Hbatch : forall j c, batch !! j = Some c -> chunks !! (i + j) = Some c).
    { intros j c Hj. subst batch. apply lookup_take_Some in Hj as [Hj _].
      by rewrite lookup_drop in Hj. }
    unfold push_batch_rows.
    rewrite (imap_ext _ (fun j c => (0 + j, c))) by done.
    rewrite (push_batch_rows_ok callId i _ batch 0 rows).
    2: { intros j c Hj. change (0 + j) with j. by rewrite list_lookup_fmap, Hj. }
    2: { intros j c Hj. eapply Hsome, Hbatch, Hj. }
    set (w1 := issue _ w). set (rows1 := rows ++ _).
    destruct (i + 10 <? length chunks) eqn:Hmore.
    + apply Nat.ltb_lt in Hmore.
      edestruct (IH (i + 10) rows1 (wait 1000 w1)) as (Hrun & Hreq & Htim & Htab); [done|lia|].
      rewrite Hrun, Hreq, Htim. subst rows1. split; [|split; [|split]].
      * by rewrite Hsplit, fmap_app, (assoc_L (++)).
      * subst w1. simpl_world. by rewrite Hsplit, fmap_app, !(assoc_L (++)).
      * subst w1. unfold wait. simpl_world. rewrite <- (assoc_L (++)). f_equal.
        replace (length chunks - i - 1) with (length chunks - (i + 10) - 1 + 1 * 10) by lia.
        rewrite Nat.div_add by lia. by rewrite Nat.add_1_r.
      * exact Htab.
    + apply Nat.ltb_ge in Hmore.
      edestruct (IH (i + 10) rows1 w1) as (Hrun & Hreq & Htim & Htab); [done|lia|].
      rewrite Hrun, Hreq, Htim. subst rows1. split; [|split; [|split]].
      * by rewrite Hsplit, fmap_app, (assoc_L (++)).
      * subst w1. simpl_world. by rewrite Hsplit, fmap_app, !(assoc_L (++)).
      * subst w1. simpl_world. f_equal.
        replace ((length chunks - i - 1) / 10) with 0 by (symmetry; apply Nat.div_small; lia).
        replace ((length chunks - (i + 10) - 1) / 10) with 0
          by (symmetry; apply Nat.div_small; lia).
        done.
      * exact Htab.
Qed.

(** X17. Batches of ten: when the provider has an embedding for every
    chunk, the embedding loop of the upload endpoint requests one embedding
    per chunk, in chunk order, waits 1 s between consecutive batches of ten
    chunks (so [(n - 1) / 10] times for [n] chunks), writes no table and
    returns one row per chunk, in chunk order; [length chunks] iterations
    are enough. *)
Theorem batches_of_ten (callId : jsstring) (chunks : list jsstring) (w : World) :
  oracle w = o ->
  (forall j c, chunks !! j = Some c -> emb c <> None) ->
  let run := embed_batches (length chunks) 0 callId chunks [] w in
  fst run = Ret (upload_chunk_row callId emb <$> chunks) /\
  issued w (snd run) = (fun c => EmbedText c None) <$> chunks /\
  timers (snd run) = timers w ++ replicate ((length chunks - 1) / 10) 1000%Q /\
  same_tables w (snd run).
Proof.
  intros Ho Hsome. cbv zeta.
  destruct (embed_batches_run callId chunks Hsome (length chunks) 0 [] w Ho ltac:(lia))
    as (Hrun & Hreq & Htim & Htab).
  rewrite Nat.sub_0_r in Htim. cbn [drop] in *.
  split; [done|]. split; [|done]. unfold issued. by rewrite Hreq, drop_app_length.
Qed.

Lemma embed_batches_throw (callId : jsstring) (chunks : list jsstring) (k : nat)
    (c0 : jsstring) :
  (forall j c, j < k -> chunks !! j = Some c -> emb c <> None) ->
  chunks !! k = Some c0 -> emb c0 = None ->
  forall (fuel i : nat) (rows : list rag_chunk) (w : World),
    oracle w = o -> length chunks <= i + fuel -> i <= k ->
    let run := embed_batches fuel i callId chunks rows w in
    fst run = Throw (missing_embedding k) /\ same_tables w (snd run).
Proof.
  intros Hsome Hk Hnone.
  assert (Hlen : k < length chunks) by (by eapply lookup_lt_Some).
  induction fuel as [|fuel IH]; intros i rows w Ho Hfuel Hik run; subst run; [lia|].
  rewrite embed_batches_step by (done || lia). cbv zeta.
  set (batch := take 10 (drop i chunks)).
  assert (Hbatch : forall j c, batch !! j = Some c -> chunks !! (i + j) = Some c).
  { intros j c Hj. subst batch. apply lookup_take_Some in Hj as [Hj _].
    by rewrite lookup_drop in Hj. }
  unfold push_batch_rows.
  rewrite (imap_ext _ (fun j c => (0 + j, c))) by done.
  destruct (decide (k < i + 10)) as [Hin|Hout].
  - rewrite (push_batch_rows_throw callId i _ batch (k - i) c0 0 rows).
    + cbn [fst snd]. by replace (i + (0 + (k - i))) with k by lia.
    + intros j c Hj. change (0 + j) with j. by rewrite list_lookup_fmap, Hj.
    + intros j c Hlt Hj. apply (Hsome (i + j)); [lia|]. by apply Hbatch.
    + subst batch. rewrite lookup_take, decide_True, lookup_drop by lia.
      by replace (i + (k - i)) with k by lia.
    + done.
  - rewrite (push_batch_rows_ok callId i _ batch 0 rows).
    + edestruct (IH (i + 10) (rows ++ (upload_chunk_row callId emb <$> batch)))
        as (Hrun & Htab); [| |shelve|]; [|lia|].
      { instantiate (1 := if i + 10 <? length chunks
                          then wait 1000 (issue ((fun c => EmbedText c None) <$> batch) w)
                          else issue ((fun c => EmbedText c None) <$> batch) w).
        by destruct (i + 10 <? length chunks). }
      split; [exact Hrun|]. revert Htab. by destruct (i + 10 <? length chunks).
    + intros j c Hj. change (0 + j) with j. by rewrite list_lookup_fmap, Hj.
    + intros j c Hj. apply (Hsome (i + j)); [|by apply Hbatch].
      apply lookup_lt_Some in Hj. subst batch. rewrite length_take in Hj. lia.
  Unshelve. lia.
Qed.

(** X18. A chunk without an embedding stops the upload: when the
    provider returns no embedding for chunk [k] (counted from 0) and has one
    for every chunk before it, the embedding loop throws "Failed to generate
    embedding for chunk [k + 1]" and writes no table, so no chunk of the
    call is stored. *)
Theorem missing_embedding_stops_the_upload (callId : jsstring) (chunks : list jsstring)
    (k : nat) (c0 : jsstring) (w : World) :
  oracle w = o ->
  (forall j c, j < k -> chunks !! j = Some c -> emb c <> None) ->
  chunks !! k = Some c0 -> emb c0 = None ->
  let run := embed_batches (length chunks) 0 callId chunks [] w in
  fst run = Throw (missing_embedding k) /\ same_tables w (snd run).
Proof.
  intros Ho Hsome Hk Hnone.
  apply (embed_batches_throw callId chunks k c0 Hsome Hk Hnone); [done|lia|lia].
Qed.


End Batches.

(** Twelve chunks take two batches and one wait. *)
Lemma batches_of_ten_witness :
  let run := embed_batches 12 0 Scenarios.new_call twelve_chunks [] embedding_provider in
  length (issued embedding_provider (snd run)) = 12 /\ timers (snd run) = [1000%Q].
Proof.
  destruct (batches_of_ten length_embedding embedding_provider_oracle
              (fun n c => eq_refl) Scenarios.new_call twelve_chunks embedding_provider eq_refl)
    as (_ & Hreq & Htim & _).
  - intros j c Hj. apply list_elem_of_lookup_2, list_elem_of_fmap in Hj as (i & -> & _). done.
  - cbv zeta. change 12 with (length twelve_chunks) at 1 3.
    rewrite Hreq, Htim. by vm_compute.
Defined.


(** The empty text as the second of three chunks: the error names
    chunk 2. *)
Lemma missing_embedding_stops_the_upload_witness :
  fst (embed_batches 3 0 Scenarios.new_call [lit "a"; []; lit "c"] [] embedding_provider)
  = Throw (new_Error (lit "Failed to generate embedding for chunk 2")).
Proof.
  destruct (missing_embedding_stops_the_upload length_embedding embedding_provider_oracle
              (fun n c => eq_refl) Scenarios.new_call [lit "a"; []; lit "c"] 1 []
              embedding_provider eq_refl) as (Hrun & _); try done.
  intros [|j] c Hlt Hj; [|lia]. by injection Hj as <-.
Defined.

End IngestionMore.

(* ===================================================================== *)
(** * The texts of the catalog *)
(* ===================================================================== *)

Module CatalogTextFacts.
Import CatalogText.

Lemma has_gt_cons (c : N) (s : jsstring) :
  has_gt (c :: s) = (gt_sign =? c)%N || has_gt s.
Proof. reflexivity. Qed.

Lemma has_gt_app (a b : jsstring) : has_gt (a ++ b) = has_gt a || has_gt b.
Proof. unfold has_gt. apply existsb_app. Qed.

Lemma strip_scan_sublist (in_tag : bool) (s : jsstring) :
  strip_scan in_tag s `sublist_of` s.
Proof.
  revert in_tag. induction s as [|c s IH]; intros in_tag; cbn [strip_scan]; [done|].
  destruct in_tag.
  - destruct (c =? gt_sign)%N; by apply sublist_cons.
  - destruct ((c =? lt_sign)%N && has_gt s); [by apply sublist_cons | by apply sublist_skip].
Qed.

(** Without a [>] nothing is removed. *)
Lemma strip_scan_no_gt (s : jsstring) : has_gt s = false -> strip_scan false s = s.
Proof.
  induction s as [|c s IH]; [done|]. rewrite has_gt_cons.
  intros [_ Hs]%orb_false_elim. cbn [strip_scan]. rewrite Hs, andb_false_r.
  by rewrite IH.
Qed.

Lemma no_tag_cons (c : N) (t : jsstring) :
  (c = lt_sign -> has_gt t = false) -> no_tag t -> no_tag (c :: t).
Proof.
  intros Hc Ht [|c' pre] post Heq; injection Heq as -> ->; [by apply Hc | by eapply Ht].
Qed.

Lemma no_tag_tail (c : N) (t : jsstring) : no_tag (c :: t) -> no_tag t.
Proof. intros H pre post ->. by apply (H (c :: pre) post). Qed.

Lemma strip_scan_no_tag (in_tag : bool) (s : jsstring) : no_tag (strip_scan in_tag s).
Proof.
  revert in_tag. induction s as [|c s IH]; intros in_tag; cbn [strip_scan].
  - by intros [|? ?] ? ?.
  - destruct in_tag; [destruct (c =? gt_sign)%N; apply IH|].
    destruct (c =? lt_sign)%N eqn:Hc; cbn [andb].
    + destruct (has_gt s) eqn:Hs; [apply IH|].
      apply no_tag_cons; [|apply IH]. intros _. by rewrite strip_scan_no_gt.
    + apply no_tag_cons; [|apply IH]. intros ->. by rewrite N.eqb_refl in Hc.
Qed.

Lemma strip_scan_fixed (t : jsstring) : no_tag t -> strip_scan false t = t.
Proof.
  induction t as [|c t IH]; [done|]. intros Ht. cbn [strip_scan].
  destruct (c =? lt_sign)%N eqn:Hc; cbn [andb].
  - apply N.eqb_eq in Hc as ->. rewrite (Ht [] t eq_refl).
    by rewrite IH by (by eapply no_tag_tail).
  - by rewrite IH by (by eapply no_tag_tail).
Qed.

(** X20. Tag stripping, [replace(/<[^>]*>/g, '')]: the result is the
    text with some code units removed, in order; no [<] of the result is
    followed by a [>], so no tag is left and stripping twice changes nothing
    more; and a text without [>] is returned as it is. *)
Theorem strip_tags_leaves_no_tag (s : jsstring) :
  strip_tags s `sublist_of` s /\
  (forall pre post, strip_tags s = pre ++ lt_sign :: post -> gt_sign ∉ post) /\
  strip_tags (strip_tags s) = strip_tags s /\
  (gt_sign ∉ s -> strip_tags s = s).
Proof.
  assert (Hgt : forall t, has_gt t = false <-> gt_sign ∉ t).
  { intros t. unfold has_gt. rewrite <- not_true_iff_false, existsb_exists.
    split.
    - intros H Hin. apply H. exists gt_sign. split; [by apply list_elem_of_In|].
      apply N.eqb_refl.
    - intros H (x & Hin & Hx%N.eqb_eq). subst x. by apply H, list_elem_of_In. }
  unfold strip_tags. split; [apply strip_scan_sublist|]. split; [|split].
  - intros pre post Heq. apply Hgt. by eapply strip_scan_no_tag.
  - apply strip_scan_fixed, strip_scan_no_tag.
  - intros H. by apply strip_scan_no_gt, Hgt.
Qed.

Lemma trimStart_keeps_text (a b : jsstring) (c : N) :
  is_white_space c = false -> exists a', trimStart (a ++ c :: b) = a' ++ c :: b.
Proof.
  intros Hc. induction a as [|x a IH]; cbn [app trimStart].
  - exists []. by rewrite Hc.
  - destruct (is_white_space x); [done | by exists (x :: a)].
Qed.

(** Trimming keeps a label that ends in a colon. *)
Lemma trim_keeps_label (label rest : jsstring) (c : N) :
  is_white_space c = false ->
  (forall x, x ∈ label ++ [c] -> is_white_space x = false) ->
  exists rest', trim ((label ++ [c]) ++ rest) = (label ++ [c]) ++ rest'.
Proof.
  intros Hc Hlabel. unfold trim, trimEnd.
  assert (Hstart : trimStart ((label ++ [c]) ++ rest) = (label ++ [c]) ++ rest).
  { destruct label as [|l label]; cbn [app trimStart].
    - by rewrite Hc.
    - rewrite (Hlabel l); [done|]. by left. }
  rewrite Hstart, reverse_app, reverse_app, reverse_singleton. cbn [app].
  destruct (trimStart_keeps_text (reverse rest) (reverse label) c Hc) as [a' ->].
  exists (reverse a'). rewrite reverse_app, reverse_cons, reverse_involutive.
  by rewrite <- !(assoc_L (++)).
Qed.

(** X21. The text of a page or of a collection always begins with its
    label, [Page:] or [Collection:], whatever the title and the body are
    (an empty title leaves the bare label), so it is never blank. *)
Theorem catalog_texts_keep_their_label (page : ShopifyPage) (collection : ShopifyCollection) :
  (exists rest, pageToText page = lit "Page:" ++ rest) /\
  (exists rest, collectionToText collection = lit "Collection:" ++ rest) /\
  (0 <? length (trim (pageToText page))) = true /\
  (0 <? length (trim (collectionToText collection))) = true.
Proof.
  assert (Hpage : exists rest, pageToText page = lit "Page:" ++ rest).
  { unfold pageToText.
    destruct (page_body page) as [[|c body]|];
      match goal with
      | |- exists _, trim ?t = _ =>
        let H := fresh in
        assert (H : exists rest, t = (lit "Page" ++ [58%N]) ++ rest)
          by (eexists; cbn [lit]; vm_compute (lit "Page: "); cbn [app]; reflexivity);
        destruct H as [rest ->]
      end;
      apply (trim_keeps_label (lit "Page") _ 58%N); try done;
      intros x Hx; vm_compute in Hx; repeat (apply elem_of_cons in Hx as [->|Hx]; [done|]);
      by apply elem_of_nil in Hx. }
  assert (Hcoll : exists rest, collectionToText collection = lit "Collection:" ++ rest).
  { unfold collectionToText.
    destruct (collection_description collection) as [[|c body]|];
      match goal with
      | |- exists _, trim ?t = _ =>
        let H := fresh in
        assert (H : exists rest, t = (lit "Collection" ++ [58%N]) ++ rest)
          by (eexists; cbn [lit]; vm_compute (lit "Collection: "); cbn [app]; reflexivity);
        destruct H as [rest ->]
      end;
      apply (trim_keeps_label (lit "Collection") _ 58%N); try done;
      intros x Hx; vm_compute in Hx; repeat (apply elem_of_cons in Hx as [->|Hx]; [done|]);
      by apply elem_of_nil in Hx. }
  split; [done|]. split; [done|].
  destruct Hpage as [r1 ->], Hcoll as [r2 ->]. split.
  - change (lit "Page:") with (lit "Page" ++ [58%N]).
    destruct (trim_keeps_label (lit "Page") r1 58%N) as [r ->]; try done.
    intros x Hx; vm_compute in Hx; repeat (apply elem_of_cons in Hx as [->|Hx]; [done|]);
      by apply elem_of_nil in Hx.
  - change (lit "Collection:") with (lit "Collection" ++ [58%N]).
    destruct (trim_keeps_label (lit "Collection") r2 58%N) as [r ->]; try done.
    intros x Hx; vm_compute in Hx; repeat (apply elem_of_cons in Hx as [->|Hx]; [done|]);
      by apply elem_of_nil in Hx.
Qed.

End CatalogTextFacts.

(* ===================================================================== *)
(** * The rate-limit-safe catalog sync *)
(* ===================================================================== *)

Module CatalogSyncFacts.
Import Terms MoreTerms ModelFacts Logic LogicFacts Embedding EmbeddingFacts CatalogSync.

Lemma embedding_only_refl (w : World) : embedding_only w w.
Proof.
  split; [by repeat split|]. split; [done|]. split; [done|].
  exists []. by rewrite (right_id_L [] (++)).
Qed.

Lemma embedding_only_trans (w0 w1 w2 : World) :
  embedding_only w0 w1 -> embedding_only w1 w2 -> embedding_only w0 w2.
Proof.
  intros (Ht1 & Ho1 & Hc1 & qs1 & Hq1 & Hf1) (Ht2 & Ho2 & Hc2 & qs2 & Hq2 & Hf2).
  split; [|split; [congruence|split; [congruence|]]].
  - destruct Ht1 as (? & ? & ? & ? & ? & ?), Ht2 as (? & ? & ? & ? & ? & ?).
    repeat split; congruence.
  - exists (qs1 ++ qs2). rewrite Hq2, Hq1, (assoc_L (++)). split; [done|].
    by apply Forall_app.
Qed.

Lemma embedding_only_issue (w : World) (qs : list request) :
  Forall is_embedding_traffic qs -> embedding_only w (issue qs w).
Proof.
  intros Hqs. split; [by repeat split|]. split; [done|]. split; [done|]. by exists qs.
Qed.

Lemma embedding_only_wait (w : World) (ms : Q) : embedding_only w (wait ms w).
Proof.
  split; [by repeat split|]. split; [done|]. split; [done|].
  exists []. by rewrite (right_id_L [] (++)).
Qed.

Lemma embed_attempts_only (M : nat) (text : jsstring) (c : cache) :
  forall (r a : nat) last (w : World),
    embedding_only w (snd (embed_attempts M r a text c last w)).
Proof.
  induction r as [|r IH]; intros a last w; [apply embedding_only_refl|].
  rewrite embed_attempts_step.
  destruct (oracle w _ (embed_query text)) as [v|e].
  - apply embedding_only_issue. by repeat constructor.
  - destruct (isRateLimit e && (a <? M - 1)).
    + eapply embedding_only_trans; [|apply IH].
      eapply embedding_only_trans; [|apply embedding_only_wait].
      apply embedding_only_issue. by repeat constructor.
    + apply embedding_only_issue. by repeat constructor.
Qed.

Lemma embedTextWithRateLimit_only (text : jsstring) (c : cache) (w : World) :
  embedding_only w (snd (embedTextWithRateLimit text c w)).
Proof.
  unfold embedTextWithRateLimit.
  destruct (c !! text); [apply embedding_only_refl | apply embed_attempts_only].
Qed.

Section Sync.

Variable productToText : ShopifyProduct -> jsstring.

(** The loop over the chunks of one product never throws: an exception
    of the embedding is carried in the result. *)
Lemma sync_chunks_run (product : ShopifyProduct) (total : nat) :
  forall (chunks : list jsstring) (i : nat) (c : cache) (processed : list ShopifyChunkData)
         (w : World),
    exists r c' w',
      sync_chunks product total i chunks c processed w = (Ret (r, c'), w') /\
      embedding_only w w' /\
      match r with
      | inr l => l = processed ++ imap (fun j chunk => chunk_data product chunk (i + j) total) chunks
      | inl _ => True
      end.
Proof.
  induction chunks as [|chunk rest IH]; intros i c processed w.
  - exists (inr processed), c, w. cbn. rewrite (right_id_L [] (++)).
    split; [done|]. split; [apply embedding_only_refl | done].
  - cbn [sync_chunks].
    assert (Hfetch : exists fetched w1,
      match mjoin (c !! chunk) with
      | Some _ => ret (inr c)
      | None =>
        try_catch
          (let! r := embedTextWithRateLimit chunk c in ret (inr (snd r)))
          (fun error => ret (inl error))
      end w = (Ret (fetched : js_error + cache), w1) /\ embedding_only w w1).
    { destruct (mjoin (c !! chunk)).
      - exists (inr c), w. split; [done | apply embedding_only_refl].
      - pose proof (embedTextWithRateLimit_only chunk c w) as Honly.
        unfold try_catch, bind.
        destruct (embedTextWithRateLimit chunk c w) as [[r|e] w1]; cbn in Honly |- *;
          by eexists _, _. }
    destruct Hfetch as (fetched & w1 & Hfetch & Hw1).
    unfold bind at 1. rewrite Hfetch. destruct fetched as [error|c1].
    + exists (inl error), c, w1. split; [done|]. by split.
    + set (w2 := if i <? total - 1 then wait requestDelay w1 else w1).
      assert (Hw2 : embedding_only w1 w2).
      { subst w2. destruct (i <? total - 1);
          [apply embedding_only_wait | apply embedding_only_refl]. }
      destruct (IH (S i) c1 (processed ++ [chunk_data product chunk i total]) w2)
        as (r & c' & w' & Hrun & Hw' & Hr).
      exists r, c', w'. split; [|split].
      * unfold bind. subst w2. by destruct (i <? total - 1).
      * eapply embedding_only_trans; [exact Hw1|].
        eapply embedding_only_trans; [exact Hw2 | exact Hw'].
      * destruct r as [e|l]; [done|]. rewrite Hr, <- (assoc_L (++)). cbn [imap app].
        rewrite Nat.add_0_r. do 2 f_equal. apply imap_ext. intros j x _.
        unfold compose. f_equal. lia.
Qed.

Lemma sync_product_run (product : ShopifyProduct) (c : cache) (w : World) :
  exists r c' w',
    sync_product productToText product c w = (Ret (r, c'), w') /\
    embedding_only w w' /\ sr_product r = product /\ sync_result_ok productToText w r.
Proof.
  unfold sync_product. unfold bind at 1. cbn [fst snd].
  fold (product_chunks w (productToText product)).
  set (chunks := product_chunks w (productToText product)).
  destruct (sync_chunks_run product (length chunks) chunks 0 c [] w)
    as (r & c' & w' & Hrun & Hw' & Hr).
  unfold bind. rewrite Hrun. cbn [fst snd]. destruct r as [error|l]; cbn [ret].
  - eexists _, _, _. split; [reflexivity|]. split; [done|]. split; [done|].
    unfold sync_result_ok. cbn [sr_success sr_chunks sr_error]. split; [done|].
    unfold message_or_unknown. destruct (message error) as [[|x m]|]; by eexists _, _.
  - eexists _, _, _. split; [reflexivity|]. split; [done|]. split; [done|].
    unfold sync_result_ok. cbn [sr_success sr_chunks sr_error sr_product]. split; [done|].
    by rewrite Hr.
Qed.

Lemma sync_loop_run (products : list ShopifyProduct) :
  forall (results : list sync_result) (c : cache) (w0 w : World),
    embedding_only w0 w ->
    exists added c' w',
      for_of products
        (fun product acc =>
           let! step := sync_product productToText product (snd acc) in
           ret (fst acc ++ [fst step], snd step))
        (results, c) w
      = (Ret (results ++ added, c'), w') /\
      embedding_only w0 w' /\ sr_product <$> added = products /\
      Forall (sync_result_ok productToText w0) added.
Proof.
  induction products as [|product products IH]; intros results c w0 w Hw.
  - exists [], c, w. cbn. by rewrite (right_id_L [] (++)).
  - cbn [for_of]. destruct (sync_product_run product c w) as (r & c1 & w1 & Hrun & Hw1 & Hp & Hok).
    unfold bind at 1. unfold bind at 1. cbn [fst snd]. rewrite Hrun. cbn [ret fst snd].
    assert (Hw01 : embedding_only w0 w1) by (by eapply embedding_only_trans).
    destruct (IH (results ++ [r]) c1 w0 w1 Hw01) as (added & c' & w' & Hloop & Hw' & Hps & Hoks).
    exists (r :: added), c', w'. split; [|split; [done|split]].
    + rewrite Hloop. by rewrite <- (assoc_L (++)).
    + cbn. by rewrite Hp, Hps.
    + constructor; [|done]. destruct Hw as (_ & _ & Hchunk & _).
      unfold sync_result_ok, product_chunks in *. by rewrite <- Hchunk.
Qed.

(** X22. The catalog sync never throws and reports every product: the
    results list the products in order; a product whose embedding failed has
    no chunks and a non-empty error text, and the products after it are
    still processed; a product that succeeded lists one chunk per non-blank
    chunk of its text, numbered from 0.  Only embedding traffic is sent and
    no table is written. *)
Theorem sync_reports_every_product (products : list ShopifyProduct) (w : World) :
  let run := syncShopifyWithMistralRateLimitSafe productToText products w in
  exists results,
    fst run = Ret results /\
    sr_product <$> results = products /\
    Forall (sync_result_ok productToText w) results /\
    same_tables w (snd run) /\
    Forall is_embedding_traffic (issued w (snd run)).
Proof.
  cbv zeta.
  destruct (sync_loop_run products [] ∅ w w (embedding_only_refl w))
    as (added & c' & w' & Hloop & (Htab & _ & _ & qs & Hqs & Hall) & Hps & Hoks).
  assert (Hrun : syncShopifyWithMistralRateLimitSafe productToText products w
                 = (Ret added, w')).
  { unfold syncShopifyWithMistralRateLimitSafe.
    by erewrite IngestionFacts.bind_run by exact Hloop. }
  rewrite Hrun. cbn [fst snd].
  exists added. repeat split; try done; try apply Htab.
  unfold issued. by rewrite Hqs, drop_app_length.
Qed.

End Sync.

Section CachedSync.

Variable productToText : ShopifyProduct -> jsstring.

(** A provider that answers every call. *)
Variable o : nat -> forall r : request, reply_of r.
Hypothesis provider_up : forall n t, exists v, o n (embed_query t) = EmbedReturns v.

Lemma embed_once (w0 : World) (t : jsstring) (ts : list jsstring) (c : cache) (w : World) :
  oracle w = o -> embedded_once w0 ts c w ->
  exists v c' w' ts',
    embedTextWithRateLimit t c w = (Ret (v, c'), w') /\
    oracle w' = o /\ embedded_once w0 ts' c' w'.
Proof.
  intros Ho (Hreq & Hdup & Hcached). unfold embedTextWithRateLimit.
  destruct (c !! t) as [v|] eqn:Ht.
  - by exists v, c, w, ts.
  - rewrite embed_attempts_step, Ho.
    destruct (provider_up (length (requests w)) t) as [v ->].
    exists v, (<[t := v]> c), (issue [embed_query t] w), (ts ++ [t]).
    split; [done|]. split; [done|]. split; [|split].
    + rewrite requests_issue, Hreq, fmap_app. by rewrite (assoc_L (++)).
    + apply NoDup_app. split; [done|]. split; [|apply NoDup_singleton].
      intros x Hx ->%list_elem_of_singleton. destruct (Hcached _ Hx) as [? ?]. congruence.
    + intros x [Hx| ->%list_elem_of_singleton]%elem_of_app.
      * destruct (decide (x = t)) as [->|Hne];
          [by rewrite lookup_insert_eq | by rewrite lookup_insert_ne; [apply Hcached|]].
      * by rewrite lookup_insert_eq.
Qed.

Lemma sync_chunks_once (w0 : World) (product : ShopifyProduct) (total : nat) :
  forall (chunks : list jsstring) (i : nat) (c : cache) (processed : list ShopifyChunkData)
         (w : World) (ts : list jsstring),
    oracle w = o -> embedded_once w0 ts c w ->
    exists l c' w' ts',
      sync_chunks product total i chunks c processed w = (Ret (inr l, c'), w') /\
      oracle w' = o /\ embedded_once w0 ts' c' w'.
Proof.
  induction chunks as [|chunk rest IH]; intros i c processed w ts Ho Hts.
  - by exists processed, c, w, ts.
  - cbn [sync_chunks].
    assert (Hfetch : exists c1 w1 ts1,
      match mjoin (c !! chunk) with
      | Some _ => ret (inr c)
      | None =>
        try_catch
          (let! r := embedTextWithRateLimit chunk c in ret (inr (snd r)))
          (fun error => ret (inl error))
      end w = (Ret (inr c1 : js_error + cache), w1) /\
      oracle w1 = o /\ embedded_once w0 ts1 c1 w1).
    { destruct (mjoin (c !! chunk)); [by exists c, w, ts|].
      destruct (embed_once w0 chunk ts c w Ho Hts) as (v & c1 & w1 & ts1 & Hrun & Ho1 & Hts1).
      exists c1, w1, ts1. unfold try_catch, bind. by rewrite Hrun. }
    destruct Hfetch as (c1 & w1 & ts1 & Hfetch & Ho1 & Hts1).
    unfold bind at 1. rewrite Hfetch.
    set (w2 := if i <? total - 1 then wait requestDelay w1 else w1).
    assert (Ho2 : oracle w2 = o) by (subst w2; by destruct (i <? total - 1)).
    assert (Hts2 : embedded_once w0 ts1 c1 w2) by (subst w2; by destruct (i <? total - 1)).
    destruct (IH (S i) c1 (processed ++ [chunk_data product chunk i total]) w2 ts1 Ho2 Hts2)
      as (l & c' & w' & ts' & Hrun & Ho' & Hts').
    exists l, c', w', ts'. split; [|done].
    unfold bind. subst w2. by destruct (i <? total - 1).
Qed.

Lemma sync_loop_once (w0 : World) (products : list ShopifyProduct) :
  forall (results : list sync_result) (c : cache) (w : World) (ts : list jsstring),
    oracle w = o -> embedded_once w0 ts c w ->
    exists added c' w' ts',
      for_of products
        (fun product acc =>
           let! step := sync_product productToText product (snd acc) in
           ret (fst acc ++ [fst step], snd step))
        (results, c) w
      = (Ret (results ++ added, c'), w') /\
      embedded_once w0 ts' c' w' /\ Forall (fun r => sr_success r = true) added.
Proof.
  induction products as [|product products IH]; intros results c w ts Ho Hts.
  - exists [], c, w, ts. cbn. by rewrite (right_id_L [] (++)).
  - cbn [for_of].
    set (chunks := product_chunks w (productToText product)).
    destruct (sync_chunks_once w0 product (length chunks) chunks 0 c [] w ts Ho Hts)
      as (l & c1 & w1 & ts1 & Hrun & Ho1 & Hts1).
    assert (Hstep : sync_product productToText product c w
                    = (Ret ({| sr_product := product; sr_chunks := l; sr_success := true;
                               sr_error := None |}, c1), w1)).
    { unfold sync_product. unfold bind at 1. cbn [fst snd].
      fold (product_chunks w (productToText product)). fold chunks.
      unfold bind. by rewrite Hrun. }
    unfold bind at 1. unfold bind at 1. cbn [fst snd]. rewrite Hstep. cbn [ret fst snd].
    destruct (IH (results ++ [{| sr_product := product; sr_chunks := l; sr_success := true;
                                 sr_error := None |}]) c1 w1 ts1 Ho1 Hts1)
      as (added & c' & w' & ts' & Hloop & Hts' & Hall).
    eexists (_ :: added), c', w', ts'. split; [|split; [done|]].
    + rewrite Hloop. by rewrite <- (assoc_L (++)).
    + by constructor.
Qed.

(** X23. The cache saves provider calls: with a provider that answers
    every call, every product of the sync succeeds and no text is sent to
    the provider twice, however often it occurs among the chunks of the
    products. *)
Theorem sync_embeds_each_text_once (products : list ShopifyProduct) (w : World) :
  oracle w = o ->
  let run := syncShopifyWithMistralRateLimitSafe productToText products w in
  exists results ts,
    fst run = Ret results /\
    Forall (fun r => sr_success r = true) results /\
    issued w (snd run) = embed_query <$> ts /\ NoDup ts.
Proof.
  intros Ho. cbv zeta.
  destruct (sync_loop_once w products [] ∅ w [] Ho) as (added & c' & w' & ts & Hloop & Hts & Hall).
  { split; [cbn; by rewrite (right_id_L [] (++))|]. split; [apply NoDup_nil_2|].
    by intros t Ht%elem_of_nil. }
  assert (Hrun : syncShopifyWithMistralRateLimitSafe productToText products w
                 = (Ret added, w')).
  { unfold syncShopifyWithMistralRateLimitSafe.
    by erewrite IngestionFacts.bind_run by exact Hloop. }
  rewrite Hrun. cbn [fst snd]. destruct Hts as (Hreq & Hdup & _).
  exists added, ts. repeat split; try done.
  unfold issued. by rewrite Hreq, drop_app_length.
Qed.

End CachedSync.

(** Two products with the same title, each cut into its title and the
    chunk [details]: four chunks, two provider calls. *)
Lemma sync_embeds_each_text_once_witness :
  length (issued catalog_worker
            (snd (syncShopifyWithMistralRateLimitSafe product_title [mug; mug]
                    catalog_worker))) = 2.
Proof.
  destruct (sync_embeds_each_text_once product_title embedding_provider_oracle
              (fun n t => ex_intro _ _ eq_refl) [mug; mug] catalog_worker eq_refl)
    as (results & ts & _ & _ & Hreq & _).
  by vm_compute.
Defined.

End CatalogSyncFacts.

(* ===================================================================== *)
(** * The catalog processor *)
(* ===================================================================== *)

Module ShopifyFacts.
Import CatalogText CatalogSync Shopify ShopifyTerms.

Lemma preserves_pure {A} (I : State -> Prop) (a : A) : preserves I (pure a).
Proof. by intros s Hs. Qed.

Lemma preserves_raise {A} (I : State -> Prop) (e : js_error) : preserves I (raise (A := A) e).
Proof. by intros s Hs. Qed.

Lemma preserves_and_then {A B} (I : State -> Prop) (c : Run A) (k : A -> Run B) :
  preserves I c -> (forall a, preserves I (k a)) -> preserves I (and_then c k).
Proof.
  intros Hc Hk s Hs. specialize (Hc s Hs). unfold and_then.
  destruct (c s) as [[a|e] s1]; cbn in Hc |- *; [by apply Hk | done].
Qed.

Lemma preserves_ask (I : State -> Prop) (q : query) :
  (forall s, I s -> I (asking [q] s)) -> preserves I (ask q).
Proof. intros H s Hs. by apply H. Qed.

Lemma preserves_lift {A} (I : State -> Prop) (c : Eff A) :
  (forall f s, I s -> I (set_world f s)) -> preserves I (lift c).
Proof. intros H s Hs. by apply H. Qed.

Lemma preserves_makeRequest {D} (I : State -> Prop) (response : api_reply D) :
  preserves I (makeRequest response).
Proof. destruct response; by intros s Hs. Qed.

Lemma and_then_run {A B} (c : Run A) (k : A -> Run B) (s s' : State) (a : A) :
  c s = (Ret a, s') -> and_then c k s = k a s'.
Proof. unfold and_then. by intros ->. Qed.

Lemma and_then_raise {A B} (c : Run A) (k : A -> Run B) (s s' : State) (e : js_error) :
  c s = (Throw e, s') -> and_then c k s = (Throw e, s').
Proof. unfold and_then. by intros ->. Qed.

Section Storing.

(** An invariant that the embedding world, the insert requests and the
    rows of the store [storeId] keep. *)
Variable I : State -> Prop.
Variable storeId : jsstring.
Hypothesis I_world : forall f s, I s -> I (set_world f s).
Hypothesis I_insert : forall row s, I s -> I (asking [InsertChunk row] s).
Hypothesis I_add :
  forall row s, own_row storeId row -> I s -> I (set_shopify_chunks (fun t => t ++ [row]) s).

Lemma storeChunk_preserves (chunkData : ShopifyChunkData) :
  (0 <? length (trim (text chunkData))) = true ->
  preserves I (storeChunk storeId chunkData).
Proof.
  intros Htext. unfold storeChunk.
  apply preserves_and_then; [by apply preserves_lift|].
  intros [embedding|]; [|apply preserves_raise].
  apply preserves_and_then; [apply preserves_ask; intros; by apply I_insert|].
  intros [error|].
  - destruct (bool_decide _); [apply preserves_pure | apply preserves_raise].
  - intros s Hs. by apply I_add.
Qed.

Lemma store_chunks_preserves (data : jsstring -> ShopifyChunkData) (chunks : list jsstring) :
  (forall c, text (data c) = c) ->
  Forall (fun c => (0 <? length (trim c)) = true) chunks ->
  preserves I (store_chunks storeId data chunks).
Proof.
  intros Hdata. induction 1 as [|c chunks Hc Hchunks IH]; cbn [store_chunks].
  - apply preserves_pure.
  - apply preserves_and_then; [|by intros].
    apply storeChunk_preserves. by rewrite Hdata.
Qed.

(** The chunks of a text are not blank. *)
Lemma chunks_of_run (t : jsstring) (s : State) :
  exists chunks,
    chunks_of t s = (Ret chunks, set_world (fun _ => world s) s) /\
    Forall (fun c => (0 <? length (trim c)) = true) chunks.
Proof.
  eexists. split.
  - unfold chunks_of, lift. cbn [fst snd]. reflexivity.
  - apply Forall_forall. intros c Hc. by apply list_elem_of_In, List.filter_In in Hc as [_ Hc].
Qed.

Lemma stored_text_preserves (t : jsstring) (data : jsstring -> ShopifyChunkData) :
  (forall c, text (data c) = c) ->
  preserves I (let* chunks := chunks_of t in store_chunks storeId data chunks).
Proof.
  intros Hdata s Hs. destruct (chunks_of_run t s) as (chunks & Hrun & Hchunks).
  rewrite (and_then_run _ _ _ _ _ Hrun).
  apply store_chunks_preserves; [done | done | by apply I_world].
Qed.

Lemma processPage_preserves (page : ShopifyPage) : preserves I (processPage storeId page).
Proof. by apply stored_text_preserves. Qed.

Lemma processCollection_preserves (collection : ShopifyCollection) :
  preserves I (processCollection storeId collection).
Proof. by apply stored_text_preserves. Qed.

Lemma processProduct_preserves (productToText : ShopifyProduct -> jsstring)
    (storeDomain : jsstring) (product : ShopifyProduct) :
  preserves I (processProduct productToText storeDomain storeId product).
Proof. by apply stored_text_preserves. Qed.

(** With the listing requests kept too, the loops keep the invariant. *)
Hypothesis I_listing :
  forall q s, is_listing_query q = true -> I s -> I (asking [q] s).

Lemma process_items_preserves {T} (process : T -> Run unit) (max : nat) :
  (forall item, preserves I (process item)) ->
  forall items total, preserves I (process_items process max items total).
Proof.
  intros Hp. induction items as [|item rest IH]; intros total; cbn [process_items].
  - apply preserves_pure.
  - destruct (max <=? total); [apply preserves_pure|].
    apply preserves_and_then; [apply Hp | intros; apply IH].
Qed.

Lemma paginate_preserves {T} (fetch : nat -> option jsstring -> Run (listing T))
    (process : T -> Run unit) (first max : nat) :
  (forall cursor, preserves I (fetch first cursor)) ->
  (forall item, preserves I (process item)) ->
  forall fuel nextPage cursor total,
    preserves I (paginate fetch process first max fuel nextPage cursor total).
Proof.
  intros Hf Hp. induction fuel as [|fuel IH]; intros nextPage cursor total; cbn [paginate];
    destruct (nextPage && (total <? max)); try apply preserves_pure.
  apply preserves_and_then; [apply Hf|]. intros page.
  apply preserves_and_then; [by apply process_items_preserves | intros; apply IH].
Qed.

Lemma getProducts_preserves d t first after : preserves I (getProducts d t first after).
Proof.
  apply preserves_and_then; [|intros; apply preserves_makeRequest].
  apply preserves_ask. intros. by apply I_listing.
Qed.

Lemma getPages_preserves d t first after : preserves I (getPages d t first after).
Proof.
  apply preserves_and_then; [|intros; apply preserves_makeRequest].
  apply preserves_ask. intros. by apply I_listing.
Qed.

Lemma getCollections_preserves d t first after : preserves I (getCollections d t first after).
Proof.
  apply preserves_and_then; [|intros; apply preserves_makeRequest].
  apply preserves_ask. intros. by apply I_listing.
Qed.

(** The three loops of [processAllData], after the clearing. *)
Lemma loops_preserve (productToText : ShopifyProduct -> jsstring) (d t : jsstring)
    (fuel : nat) :
  preserves I
    (let* products := processProducts productToText d t storeId fuel in
     match products with
     | None => pure None
     | Some _ =>
       let* pages := processPages d t storeId fuel in
       match pages with
       | None => pure None
       | Some _ =>
         let* collections := processCollections d t storeId fuel in
         match collections with
         | None => pure None
         | Some _ => pure (Some tt)
         end
       end
     end).
Proof.
  apply preserves_and_then.
  { apply paginate_preserves; [apply getProducts_preserves | apply processProduct_preserves]. }
  intros [_|]; [|apply preserves_pure].
  apply preserves_and_then.
  { apply paginate_preserves; [apply getPages_preserves | apply processPage_preserves]. }
  intros [_|]; [|apply preserves_pure].
  apply preserves_and_then.
  { apply paginate_preserves;
      [apply getCollections_preserves | apply processCollection_preserves]. }
  intros [_|]; apply preserves_pure.
Qed.

End Storing.

Section Loop.

(** The loop of a [process...s] method, with a counter that every fetch
    advances by one and that processing an item leaves alone, on states
    that stay [good]. *)
Context {T : Type}.
Variable fetch : nat -> option jsstring -> Run (listing T).
Variable process : T -> Run unit.
Variable first max : nat.
Variable good : State -> Prop.
Variable cnt : State -> nat.

Hypothesis fetch_spec :
  forall cursor s, good s ->
    good (snd (fetch first cursor s)) /\ cnt (snd (fetch first cursor s)) = S (cnt s) /\
    forall page, fst (fetch first cursor s) = Ret page ->
                 hasNextPage page = true -> nodes page <> [].
Hypothesis process_spec :
  forall item s, good s -> good (snd (process item s)) /\ cnt (snd (process item s)) = cnt s.

Lemma process_items_spec (items : list T) :
  forall (total : nat) (s : State),
    good s -> total <= max ->
    let r := process_items process max items total s in
    good (snd r) /\ cnt (snd r) = cnt s /\
    match fst r with
    | Ret total' => total <= total' <= max /\ (items <> [] -> total < max -> total < total')
    | Throw _ => True
    end.
Proof.
  induction items as [|item rest IH]; intros total s Hs Hle r; subst r;
    cbn [process_items].
  - cbn. repeat split; (done || lia).
  - destruct (max <=? total) eqn:Hmax.
    + apply Nat.leb_le in Hmax. cbn. repeat split; (done || lia).
    + apply Nat.leb_gt in Hmax. destruct (process_spec item s Hs) as [Hgood Hcnt].
      unfold and_then. destruct (process item s) as [[[]|e] s1]; cbn [fst snd] in *; [|done].
      destruct (IH (S total) s1 Hgood ltac:(lia)) as (Hg & Hc & Hr).
      split; [done|]. split; [congruence|].
      destruct (fst (process_items process max rest (S total) s1)); [|done]. lia.
Qed.

Lemma paginate_done (fuel : nat) (nextPage : bool) (cursor : option jsstring) (total : nat) :
  nextPage && (total <? max) = false ->
  paginate fetch process first max fuel nextPage cursor total = pure (Some total).
Proof. intros H. destruct fuel; cbn [paginate]; by rewrite H. Qed.

(** With [max - total] iterations the loop ends, after at most that
    many fetches and with at most [max] items processed. *)
Lemma paginate_spec :
  forall (fuel : nat) (nextPage : bool) (cursor : option jsstring) (total : nat) (s : State),
    good s -> total <= max -> max - total <= fuel ->
    let r := paginate fetch process first max fuel nextPage cursor total s in
    good (snd r) /\ cnt (snd r) <= cnt s + (max - total) /\
    match fst r with
    | Ret None => False
    | Ret (Some total') => total <= total' <= max
    | Throw _ => True
    end.
Proof.
  induction fuel as [|fuel IH]; intros nextPage cursor total s Hs Hle Hfuel r; subst r.
  - rewrite paginate_done.
    + cbn. repeat split; (done || lia).
    + replace (total <? max) with false by (symmetry; apply Nat.ltb_ge; lia).
      apply andb_false_r.
  - destruct (nextPage && (total <? max)) eqn:Hgo.
    2: { rewrite paginate_done by done. cbn. repeat split; (done || lia). }
    cbn [paginate]. rewrite Hgo. apply andb_prop in Hgo as [_ Hlt%Nat.ltb_lt].
    destruct (fetch_spec cursor s Hs) as (Hg1 & Hc1 & Hprog).
    destruct (fetch first cursor s) as [[page|e] s1] eqn:Hfetch; cbn [fst snd] in *.
    2: { rewrite (and_then_raise _ _ _ _ _ Hfetch). cbn. repeat split; (done || lia). }
    rewrite (and_then_run _ _ _ _ _ Hfetch).
    pose proof (process_items_spec (nodes page) total s1 Hg1 Hle) as (Hg2 & Hc2 & Hr).
    destruct (process_items process max (nodes page) total s1) as [[total'|e] s2] eqn:Hitems;
      cbn [fst snd] in *.
    2: { rewrite (and_then_raise _ _ _ _ _ Hitems). cbn. repeat split; (done || lia). }
    rewrite (and_then_run _ _ _ _ _ Hitems). destruct Hr as [Hbound Hstep].
    destruct (hasNextPage page) eqn:Hnext.
    + specialize (Hstep (Hprog page eq_refl Hnext) Hlt).
      destruct (IH true (endCursor page) total' s2 Hg2 ltac:(lia) ltac:(lia)) as (Hg & Hc & Hres).
      split; [done|]. split; [lia|].
      destruct (fst (paginate fetch process first max fuel true (endCursor page) total' s2))
        as [[total''|]|]; (done || lia).
    + rewrite paginate_done by done. cbn. repeat split; (done || lia).
Qed.

End Loop.

Lemma listings_asked_asking (q : query) (s : State) :
  listings_asked (asking [q] s) = listings_asked s + (if is_listing_query q then 1 else 0).
Proof.
  unfold listings_asked, asking. cbn [asked set_asked].
  rewrite List.filter_app, length_app. cbn. by destruct (is_listing_query q).
Qed.

(** A listing request through [makeRequest]. *)
Lemma listing_fetch_spec {T} (q : query) (cast : answer_of q -> api_reply (listing T))
    (s0 s : State) :
  is_listing_query q = true ->
  (forall l, cast (api s0 (length (asked s)) q) = ApiData l ->
             hasNextPage l = true -> nodes l <> []) ->
  api s = api s0 ->
  let r := (let* response := (fun s => (Ret (cast (api s (length (asked s)) q)), asking [q] s))
            in makeRequest response) s in
  api (snd r) = api s0 /\ listings_asked (snd r) = S (listings_asked s) /\
  forall page, fst r = Ret page -> hasNextPage page = true -> nodes page <> [].
Proof.
  intros Hq Hprog Hapi. cbv zeta. unfold and_then. rewrite Hapi.
  destruct (cast (api s0 (length (asked s)) q)) as [l|status text|errors] eqn:Hl;
    cbn [makeRequest pure raise fst snd];
    (split; [done|]); (split; [rewrite listings_asked_asking, Hq; lia|]);
    intros page; try done.
  intros [= <-]. by apply Hprog.
Qed.

Section Limits.

Variable productToText : ShopifyProduct -> jsstring.
Variable storeDomain storefrontToken storeId : jsstring.

Lemma item_spec {T} (process : T -> Run unit) (s0 : State) :
  (forall (I : State -> Prop),
     (forall f s, I s -> I (set_world f s)) ->
     (forall row s, I s -> I (asking [InsertChunk row] s)) ->
     (forall row s, own_row storeId row -> I s ->
                    I (set_shopify_chunks (fun t => t ++ [row]) s)) ->
     forall item, preserves I (process item)) ->
  forall item s, api s = api s0 ->
    api (snd (process item s)) = api s0 /\
    listings_asked (snd (process item s)) = listings_asked s.
Proof.
  intros Hp item s Hs.
  apply (Hp (fun s' => api s' = api s0 /\ listings_asked s' = listings_asked s));
    [by intros | | by intros | done].
  intros row s' [? ?]. split; [done|]. rewrite listings_asked_asking. cbn. lia.
Qed.

(** X24. The listing loops stay within their limits: when the
    Storefront API lists at least one item whenever it announces a next
    page, the loops over products, pages and collections end (6, 3 and 3
    iterations are enough), having processed at most 6 products, 3 pages and
    3 collections and sent at most as many listing requests, whatever the
    size of the catalog. *)
Theorem listings_stay_within_the_limit (s : State) :
  listings_progress s ->
  within_limit 6 s (processProducts productToText storeDomain storefrontToken storeId 6 s) /\
  within_limit 3 s (processPages storeDomain storefrontToken storeId 3 s) /\
  within_limit 3 s (processCollections storeDomain storefrontToken storeId 3 s).
Proof.
  intros Hprog. unfold within_limit, processProducts, processPages, processCollections.
  split; [|split].
  - destruct (paginate_spec (getProducts storeDomain storefrontToken)
                (processProduct productToText storeDomain storeId) 250 6
                (fun s' => api s' = api s) listings_asked) with (fuel := 6) (nextPage := true)
                (cursor := @None jsstring) (total := 0) (s := s) as (_ & Hc & Hr);
      try done; try lia.
    + intros cursor s' Hs'.
      apply (listing_fetch_spec (GetProducts storeDomain storefrontToken 250 cursor)
               (fun a => a) s s'); [done| |done].
      intros l Hl. pose proof (Hprog (length (asked s'))
                                 (GetProducts storeDomain storefrontToken 250 cursor)) as H.
      cbn in H, Hl. by rewrite Hl in H.
    + intros item s' Hs'. apply (item_spec _ s); [|done].
      intros I ? ? ? item'. by apply processProduct_preserves.
    + split; [lia|]. destruct (fst _) as [[total|]|]; (done || lia).
  - destruct (paginate_spec (getPages storeDomain storefrontToken) (processPage storeId) 100 3
                (fun s' => api s' = api s) listings_asked) with (fuel := 3) (nextPage := true)
                (cursor := @None jsstring) (total := 0) (s := s) as (_ & Hc & Hr);
      try done; try lia.
    + intros cursor s' Hs'.
      apply (listing_fetch_spec (GetPages storeDomain storefrontToken 100 cursor)
               (fun a => a) s s'); [done| |done].
      intros l Hl. pose proof (Hprog (length (asked s'))
                                 (GetPages storeDomain storefrontToken 100 cursor)) as H.
      cbn in H, Hl. by rewrite Hl in H.
    + intros item s' Hs'. apply (item_spec _ s); [|done].
      intros I ? ? ? item'. by apply processPage_preserves.
    + split; [lia|]. destruct (fst _) as [[total|]|]; (done || lia).
  - destruct (paginate_spec (getCollections storeDomain storefrontToken)
                (processCollection storeId) 100 3
                (fun s' => api s' = api s) listings_asked) with (fuel := 3) (nextPage := true)
                (cursor := @None jsstring) (total := 0) (s := s) as (_ & Hc & Hr);
      try done; try lia.
    + intros cursor s' Hs'.
      apply (listing_fetch_spec (GetCollections storeDomain storefrontToken 100 cursor)
               (fun a => a) s s'); [done| |done].
      intros l Hl. pose proof (Hprog (length (asked s'))
                                 (GetCollections storeDomain storefrontToken 100 cursor)) as H.
      cbn in H, Hl. by rewrite Hl in H.
    + intros item s' Hs'. apply (item_spec _ s); [|done].
      intros I ? ? ? item'. by apply processCollection_preserves.
    + split; [lia|]. destruct (fst _) as [[total|]|]; (done || lia).
Qed.

End Limits.

(** On [ShopifyTerms.five_pages] one listing of five pages is fetched
    and the first three pages are stored, two chunks each. *)
Lemma listings_stay_within_the_limit_witness :
  let r := processPages (lit "demo.myshopify.com") (lit "token") (lit "s1") 3 five_pages in
  fst r = Ret (Some 3) /\ listings_asked (snd r) = 1 /\ length (shopify_chunks (snd r)) = 6.
Proof.
  destruct (listings_stay_within_the_limit product_title (lit "demo.myshopify.com")
              (lit "token") (lit "s1") five_pages) as (_ & H & _).
  - intros n q. destruct q; cbn; try done.
  - by vm_compute.
Defined.

(** X25. A listing that announces a next page and has no item keeps the
    loop running: when the Storefront API answers every page request with
    an empty listing and [hasNextPage], the loop over the pages is not over
    after any number of iterations; each iteration sends one more request
    and nothing is stored. *)
Theorem empty_listings_never_end (storeDomain storefrontToken storeId : jsstring)
    (fuel : nat) (s : State) :
  (forall n after, exists cursor,
     api s n (GetPages storeDomain storefrontToken 100 after)
     = ApiData {| nodes := []; hasNextPage := true; endCursor := cursor |}) ->
  let r := processPages storeDomain storefrontToken storeId fuel s in
  fst r = Ret None /\ listings_asked (snd r) = listings_asked s + fuel /\
  shopify_chunks (snd r) = shopify_chunks s.
Proof.
  intros Hstuck. unfold processPages. generalize (@None jsstring) as cursor.
  assert (Hgen : forall fuel cursor s',
    api s' = api s ->
    let r := paginate (getPages storeDomain storefrontToken) (processPage storeId) 100 3
               fuel true cursor 0 s' in
    fst r = Ret None /\ listings_asked (snd r) = listings_asked s' + fuel /\
    shopify_chunks (snd r) = shopify_chunks s').
  { clear fuel. induction fuel as [|fuel IH]; intros cursor s' Hs'.
    - cbn. by rewrite Nat.add_0_r.
    - cbv zeta.
      destruct (Hstuck (length (asked s')) cursor) as [next Hnext].
      assert (Hfetch : getPages storeDomain storefrontToken 100 cursor s'
                       = (Ret {| nodes := []; hasNextPage := true; endCursor := next |},
                          asking [GetPages storeDomain storefrontToken 100 cursor] s')).
      { unfold getPages, and_then, ask. by rewrite Hs', Hnext. }
      assert (Hstep :
        paginate (getPages storeDomain storefrontToken) (processPage storeId) 100 3
          (S fuel) true cursor 0 s'
        = paginate (getPages storeDomain storefrontToken) (processPage storeId) 100 3
            fuel true next 0 (asking [GetPages storeDomain storefrontToken 100 cursor] s')).
      { cbn [paginate andb Nat.ltb Nat.leb]. by rewrite (and_then_run _ _ _ _ _ Hfetch). }
      rewrite Hstep.
      destruct (IH next (asking [GetPages storeDomain storefrontToken 100 cursor] s') Hs')
        as (Hr & Hc & Ht).
      split; [done|]. split; [|done].
      rewrite Hc, listings_asked_asking. cbn. lia. }
  intros cursor. by apply Hgen.
Qed.

(** On [ShopifyTerms.stuck] seven iterations are not enough. *)
Lemma empty_listings_never_end_witness :
  fst (processPages (lit "demo.myshopify.com") (lit "token") (lit "s1") 7 stuck) = Ret None.
Proof.
  apply (empty_listings_never_end (lit "demo.myshopify.com") (lit "token") (lit "s1") 7 stuck).
  intros n after. by eexists.
Defined.

Lemma rebuilt_world (storeId : jsstring) (s0 : State) f s :
  rebuilt storeId s0 s -> rebuilt storeId s0 (set_world f s).
Proof. intros H. exact H. Qed.

Lemma rebuilt_asking (storeId : jsstring) (s0 : State) qs s :
  rebuilt storeId s0 s -> rebuilt storeId s0 (asking qs s).
Proof. intros H. exact H. Qed.

Lemma rebuilt_add (storeId : jsstring) (s0 : State) row s :
  own_row storeId row -> rebuilt storeId s0 s ->
  rebuilt storeId s0 (set_shopify_chunks (fun t => t ++ [row]) s).
Proof.
  intros Hrow (Hapi & added & Htable & Hadded). split; [done|].
  exists (added ++ [row]). cbn [shopify_chunks set_shopify_chunks].
  rewrite Htable, (assoc_L (++)). split; [done|].
  apply Forall_app. split; [done | by constructor].
Qed.

(** X26. Clearing comes first and is not undone.  When the store
    refuses the delete, [processAllData] throws "Failed to clear existing
    chunks" with nothing else requested and the table as it was.  When the
    delete succeeds, then, however the run ends (complete, with an exception
    of the Storefront API, the provider or the store, or still running), the
    rows of the other stores are untouched, the old rows of this store are
    gone, and every row added belongs to this store and has a text that is
    not blank. *)
Theorem clearing_comes_first (productToText : ShopifyProduct -> jsstring)
    (storeDomain storefrontToken storeId : jsstring) (fuel : nat) (s : State) :
  let r := processAllData productToText storeDomain storefrontToken storeId fuel s in
  match api s (length (asked s)) (DeleteChunks storeId) with
  | Some e =>
    r = (Throw (new_Error (lit "Failed to clear existing chunks: " ++ message_text e)),
         asking [DeleteChunks storeId] s)
  | None => rebuilt storeId s (snd r)
  end.
Proof.
  cbv zeta. unfold processAllData.
  destruct (api s (length (asked s)) (DeleteChunks storeId)) as [e|] eqn:Hdelete.
  - apply and_then_raise. unfold clearExistingChunks, and_then, ask. by rewrite Hdelete.
  - set (s1 := set_shopify_chunks
                 (List.filter (fun row => negb (str_eqb (ch_store_id row) storeId)))
                 (asking [DeleteChunks storeId] s)).
    assert (Hclear : clearExistingChunks storeId s = (Ret tt, s1)).
    { unfold clearExistingChunks, and_then, ask. by rewrite Hdelete. }
    rewrite (and_then_run _ _ _ _ _ Hclear).
    apply (loops_preserve (rebuilt storeId s) storeId).
    + intros. by apply rebuilt_world.
    + intros. by apply rebuilt_asking.
    + intros. by apply rebuilt_add.
    + intros. by apply rebuilt_asking.
    + split; [done|]. exists []. subst s1. cbn [shopify_chunks set_shopify_chunks asking set_asked].
      by rewrite (right_id_L [] (++)).
Qed.

Lemma not_marked_refl (s : State) : not_marked_synced s s.
Proof. exists []. by rewrite (right_id_L [] (++)). Qed.

Lemma not_marked_asking (s0 : State) q s :
  is_last_synced q = false -> not_marked_synced s0 s -> not_marked_synced s0 (asking [q] s).
Proof.
  intros Hq (qs & Hqs & Hnone). exists (qs ++ [q]).
  cbn [asking asked set_asked]. rewrite Hqs, (assoc_L (++)). split; [done|].
  rewrite List.filter_app, Hnone. cbn. by rewrite Hq.
Qed.

Section StoreRun.

Variable productToText : ShopifyProduct -> jsstring.

Lemma processAllData_not_marked (s0 : State) (d t storeId : jsstring) (fuel : nat) :
  preserves (not_marked_synced s0) (processAllData productToText d t storeId fuel).
Proof.
  unfold processAllData. apply preserves_and_then.
  - unfold clearExistingChunks. apply preserves_and_then.
    + apply preserves_ask. intros. by apply not_marked_asking.
    + intros [e|]; [apply preserves_raise | by intros s Hs].
  - intros _. apply (loops_preserve (not_marked_synced s0) storeId); try (by intros).
    + intros. by apply not_marked_asking.
    + intros q s Hq Hs. apply not_marked_asking; [by destruct q | done].
Qed.

(** X27. [last_synced_at] marks a complete run.  For a store that
    cannot be read, [processShopifyStore] throws "Store not found" with
    nothing else requested.  Otherwise the sync time is written once, as the
    last request, exactly when the processing of the catalog came to its
    end; a run that throws, or that is still in a listing loop, does not
    write it. *)
Theorem last_synced_marks_a_complete_run (fuel : nat) (storeId : jsstring) (s : State) :
  let r := processShopifyStore productToText fuel storeId s in
  match api s (length (asked s)) (SelectStore storeId) with
  | PgOk (Some _) => True
  | _ => r = (Throw (new_Error (lit "Store not found: " ++ storeId)),
              asking [SelectStore storeId] s)
  end /\
  exists qs, asked (snd r) = asked s ++ qs /\
    match fst r with
    | Ret (Some _) =>
      exists qs0 t, qs = qs0 ++ [UpdateLastSynced storeId t] /\
                    List.filter is_last_synced qs0 = []
    | _ => List.filter is_last_synced qs = []
    end.
Proof.
  cbv zeta. unfold processShopifyStore.
  assert (Hask : ask (SelectStore storeId) s
                 = (Ret (api s (length (asked s)) (SelectStore storeId)),
                    asking [SelectStore storeId] s)) by done.
  rewrite (and_then_run _ _ _ _ _ Hask).
  destruct (api s (length (asked s)) (SelectStore storeId)) as [[store|]|e];
    try (split; [done|]; exists [SelectStore storeId]; by split).
  split; [done|].
  pose proof (processAllData_not_marked s (store_domain store) (storefront_token store) storeId
                fuel (asking [SelectStore storeId] s)
                (not_marked_asking s (SelectStore storeId) s eq_refl (not_marked_refl s)))
    as (qs & Hqs & Hnone).
  destruct (processAllData productToText (store_domain store) (storefront_token store) storeId
              fuel (asking [SelectStore storeId] s)) as [[[[]|]|e] s1] eqn:Hrun;
    cbn [fst snd] in *.
  - rewrite (and_then_run _ _ _ _ _ Hrun). unfold and_then, lift, ask, pure, now.
    cbn [fst snd]. exists (qs ++ [UpdateLastSynced storeId (clock (world s1))]).
    cbn [asked set_asked set_world]. rewrite Hqs. split; [by rewrite <- (assoc_L (++))|].
    by eexists _, _.
  - rewrite (and_then_run _ _ _ _ _ Hrun). by exists qs.
  - rewrite (and_then_raise _ _ _ _ _ Hrun). by exists qs.
Qed.

End StoreRun.



End ShopifyFacts.
